(** * Bounded multi-source shortest paths (sssp_concept.py): a shallow embedding

    The module-level dictionaries [d_hat], [pred], [path_alpha] and the
    parameters [k_param], [t_param], [N_vertices] of the Python module are one
    record, [globals], threaded through every function.  A Python exception
    (KeyError on a subscript, TypeError on an ordering test against [None]) is
    a [Raise] result.

    Numbers.  A Python [float] is modelled as an exact rational or
    [float('inf')]: sums are exact and [==], [<] are the numeric ones.  The
    constants [1e-12] and [1e-9] are the rationals of the same name.

    Containers.  A [dict] whose iteration order is observed is an association
    list in insertion order; one that is only looked up is a [gmap].  A [set]
    of vertex ids is a strictly increasing list, iterated in increasing
    order (CPython iterates a set of small non-negative ints that way). *)

From Stdlib Require Import ZArith QArith Qabs Reals Lia Lqa Lra Psatz List Bool Sorted.
From stdpp Require Import gmap.
Import ListNotations.
Local Open Scope Z_scope.

(** ** Exceptions *)

Inductive exn := KeyError | TypeError | IndexError | RecursionError.

Inductive result (A : Type) : Type :=
| Ok (a : A)
| Raise (e : exn).
Arguments Ok {A} a.
Arguments Raise {A} e.

Definition bind {A B : Type} (m : result A) (f : A -> result B) : result B :=
  match m with
  | Ok a => f a
  | Raise e => Raise e
  end.

Notation "'let*' x ':=' m 'in' k" := (bind m (fun x => k))
  (at level 10, x binder, k at level 200).

(** [d[key]] on a dictionary that is only looked up. *)
Definition subscript {V : Type} (d : gmap Z V) (key : Z) : result V :=
  match d !! key with
  | Some v => Ok v
  | None => Raise KeyError
  end.

(** A left fold whose body may raise: the [for] loops of the source. *)
Fixpoint for_each {A S : Type} (l : list A) (body : S -> A -> result S) (s : S)
  : result S :=
  match l with
  | [] => Ok s
  | a :: l' => let* s' := body s a in for_each l' body s'
  end.

(** ** Numbers *)

(** A [float]: a finite value or [float('inf')]. *)
Inductive num := Fin (q : Q) | Inf.

Definition num_ltb (a b : num) : bool :=
  match a, b with
  | Fin x, Fin y => negb (Qle_bool y x)
  | Fin _, Inf => true
  | Inf, _ => false
  end.

Definition num_eqb (a b : num) : bool :=
  match a, b with
  | Fin x, Fin y => Qeq_bool x y
  | Inf, Inf => true
  | _, _ => false
  end.

Definition num_leb (a b : num) : bool := num_ltb a b || num_eqb a b.

Definition num_add (a b : num) : num :=
  match a, b with
  | Fin x, Fin y => Fin (x + y)
  | _, _ => Inf
  end.

(** Python's [min(a, b)] and [max(a, b)]: the first argument unless the
    second is strictly better. *)
Definition num_min (a b : num) : num := if num_ltb b a then b else a.
Definition num_max (a b : num) : num := if num_ltb a b then b else a.

Definition eps12 : num := Fin (1 # 1000000000000).   (* 1e-12 *)
Definition eps9 : num := Fin (1 # 1000000000).       (* 1e-9 *)
Definition zero : num := Fin 0.

(** An edge count: an [int], or the [float('inf')] of an unreached vertex. *)
Inductive alpha := AFin (z : Z) | AInf.

Definition alpha_ltb (a b : alpha) : bool :=
  match a, b with
  | AFin x, AFin y => x <? y
  | AFin _, AInf => true
  | AInf, _ => false
  end.

Definition alpha_eqb (a b : alpha) : bool :=
  match a, b with
  | AFin x, AFin y => x =? y
  | AInf, AInf => true
  | _, _ => false
  end.

Definition alpha_succ (a : alpha) : alpha :=
  match a with
  | AFin x => AFin (x + 1)
  | AInf => AInf
  end.

(** ** Sets of vertex ids *)

Definition pyset := list Z.

Fixpoint set_add (x : Z) (s : pyset) : pyset :=
  match s with
  | [] => [x]
  | y :: s' => if x <? y then x :: s
               else if x =? y then s
               else y :: set_add x s'
  end.

Definition set_mem (x : Z) (s : pyset) : bool := existsb (Z.eqb x) s.

Definition set_of_list (l : list Z) : pyset := fold_left (fun s x => set_add x s) l [].

Definition set_update (s : pyset) (l : list Z) : pyset := fold_left (fun s x => set_add x s) l s.

Definition issubset (a b : pyset) : bool := forallb (fun x => set_mem x b) a.

Definition len {A : Type} (l : list A) : Z := Z.of_nat (length l).

(** ** Insertion-ordered dictionaries *)

Section Dict.
Context {K V : Type} (eqb : K -> K -> bool).

Fixpoint dict_get (d : list (K * V)) (key : K) : option V :=
  match d with
  | [] => None
  | (k', v) :: d' => if eqb key k' then Some v else dict_get d' key
  end.

(** [d[key] = v]: an existing key keeps its place. *)
Fixpoint dict_set (d : list (K * V)) (key : K) (v : V) : list (K * V) :=
  match d with
  | [] => [(key, v)]
  | (k', v') :: d' => if eqb key k' then (k', v) :: d'
                      else (k', v') :: dict_set d' key v
  end.

Fixpoint dict_del (d : list (K * V)) (key : K) : list (K * V) :=
  match d with
  | [] => []
  | (k', v') :: d' => if eqb key k' then d' else (k', v') :: dict_del d' key
  end.
End Dict.

Definition dict_mem {K V : Type} (eqb : K -> K -> bool) (d : list (K * V)) (key : K) : bool :=
  match dict_get eqb d key with
  | Some _ => true
  | None => false
  end.

Definition is_nil {A : Type} (l : list A) : bool :=
  match l with
  | [] => true
  | _ :: _ => false
  end.

(** [l.pop(idx)] for an index in range. *)
Fixpoint list_pop {A : Type} (l : list A) (idx : nat) : list A :=
  match l, idx with
  | [], _ => []
  | _ :: l', O => l'
  | a :: l', S i => a :: list_pop l' i
  end.

(** [bisect.insort]: after the entries that are not larger. *)
Fixpoint insort (l : list num) (v : num) : list num :=
  match l with
  | [] => [v]
  | a :: l' => if num_ltb v a then v :: l else a :: insort l' v
  end.

(** [bisect.bisect_left] on a sorted list: the first index whose entry is
    not smaller. *)
Fixpoint bisect_left (l : list num) (x : num) : nat :=
  match l with
  | [] => O
  | a :: l' => if num_ltb a x then S (bisect_left l' x) else O
  end.

(** [max(l)] of a non-empty list given as head and tail: the first maximum. *)
Definition list_max (hd : num) (tl : list num) : num := fold_left num_max tl hd.

(** ** SimplifiedLemma3_3_DataStructure: the ordered frontier *)

Module SimplifiedLemma3_3_DataStructure.

(** The [(alpha, pred)] tuple kept with a key; [pred] may be [None]. *)
Definition entry := (alpha * option Z)%type.
Definition bucket := list (Z * entry).

Record t := mk {
  M : Z;
  B : num;
  _values : list num;
  _value_to_keys : list (num * bucket);
  _key_to_value : gmap Z num
}.

Definition init (M0 : Z) (B0 : num) : t :=
  mk (Z.max 1 M0) B0 [] [] ∅.

Definition _add_to_value_bucket (d : t) (value : num) (key : Z) (a : alpha)
  (pred_v_id : option Z) : t :=
  let fresh := negb (dict_mem num_eqb (_value_to_keys d) value) in
  let values := if fresh then insort (_values d) value else _values d in
  let v2k := if fresh then dict_set num_eqb (_value_to_keys d) value []
             else _value_to_keys d in
  let b := default [] (dict_get num_eqb v2k value) in
  mk (M d) (B d) values
     (dict_set num_eqb v2k value (dict_set Z.eqb b key (a, pred_v_id)))
     (<[key := value]> (_key_to_value d)).

Definition _remove_key (d : t) (key : Z) : t :=
  match _key_to_value d !! key with
  | None => d
  | Some old_value =>
    let k2v := delete key (_key_to_value d) in
    match dict_get num_eqb (_value_to_keys d) old_value with
    | Some valmap =>
      if negb (is_nil valmap) && dict_mem Z.eqb valmap key then
        let valmap' := dict_del Z.eqb valmap key in
        if is_nil valmap' then
          let idx := bisect_left (_values d) old_value in
          let found := match nth_error (_values d) idx with
                       | Some v => num_eqb v old_value
                       | None => false
                       end in
          mk (M d) (B d)
             (if found then list_pop (_values d) idx else _values d)
             (dict_del num_eqb (_value_to_keys d) old_value) k2v
        else
          mk (M d) (B d) (_values d)
             (dict_set num_eqb (_value_to_keys d) old_value valmap') k2v
      else mk (M d) (B d) (_values d) (_value_to_keys d) k2v
    | None => mk (M d) (B d) (_values d) (_value_to_keys d) k2v
    end
  end.

(** [pred_v_id >= old_pred]: ordering against [None] is a TypeError. *)
Definition pred_geb (p q : option Z) : result bool :=
  match p, q with
  | Some x, Some y => Ok (x >=? y)
  | _, _ => Raise TypeError
  end.

Definition Insert (d : t) (key : Z) (value : num) (a : alpha) (pred_v_id : option Z)
  : result t :=
  match _key_to_value d !! key with
  | Some old_value =>
    let* b := match dict_get num_eqb (_value_to_keys d) old_value with
              | Some b => Ok b
              | None => Raise KeyError
              end in
    let* '(old_alpha, old_pred) := match dict_get Z.eqb b key with
                                   | Some e => Ok e
                                   | None => Raise KeyError
                                   end in
    if num_ltb old_value value then Ok d
    else
      let* ignore :=
        if num_eqb value old_value then
          if alpha_ltb old_alpha a then Ok true
          else if alpha_eqb a old_alpha then pred_geb pred_v_id old_pred
          else Ok false
        else Ok false in
      if (ignore : bool) then Ok d
      else Ok (_add_to_value_bucket (_remove_key d key) value key a pred_v_id)
  | None => Ok (_add_to_value_bucket d value key a pred_v_id)
  end.

Definition item := (Z * num * alpha * option Z)%type.

Definition BatchPrepend (d : t) (L_items : list item) : result t :=
  for_each L_items
    (fun d '(key, value, a, pred_v_id) => Insert d key value a pred_v_id) d.

Definition is_empty (d : t) : bool := Nat.eqb (size (_key_to_value d)) 0.

(** The [for key in keys] loop of [Pull] over one bucket; the state is the
    bucket, [_key_to_value], [S_prime] and [pulled_values]. *)
Fixpoint take_keys (M0 : Z) (smallest_value : num) (keys : list Z)
  (st : bucket * gmap Z num * pyset * list num)
  : bucket * gmap Z num * pyset * list num :=
  match keys with
  | [] => st
  | key :: keys' =>
    let '(b, k2v, S_prime, pulled_values) := st in
    if len S_prime >=? M0 then st
    else take_keys M0 smallest_value keys'
           (dict_del Z.eqb b key, delete key k2v, set_add key S_prime,
            pulled_values ++ [smallest_value])
  end.

(** The [while self._values and len(S_prime) < self.M] loop.  A pass either
    empties the first bucket and drops its value, or leaves keys in it
    because [S_prime] is full, which ends the loop. *)
Fixpoint pull_loop (M0 : Z) (values : list num) (v2k : list (num * bucket))
  (k2v : gmap Z num) (S_prime : pyset) (pulled_values : list num)
  : result (list num * list (num * bucket) * gmap Z num * pyset * list num) :=
  match values with
  | [] => Ok (values, v2k, k2v, S_prime, pulled_values)
  | smallest_value :: rest =>
    if len S_prime <? M0 then
      let stored := dict_get num_eqb v2k smallest_value in
      let b := default [] stored in
      let '(b', k2v', S_prime', pulled_values') :=
        take_keys M0 smallest_value (map fst b) (b, k2v, S_prime, pulled_values) in
      if is_nil b' then
        match stored with
        | Some _ =>
          pull_loop M0 rest (dict_del num_eqb v2k smallest_value) k2v' S_prime'
                    pulled_values'
        | None => Raise KeyError
        end
      else Ok (values, dict_set num_eqb v2k smallest_value b', k2v', S_prime',
               pulled_values')
    else Ok (values, v2k, k2v, S_prime, pulled_values)
  end.

Definition Pull (d : t) : result (num * pyset * t) :=
  let* '(values, v2k, k2v, S_prime, pulled_values) :=
    pull_loop (M d) (_values d) (_value_to_keys d) (_key_to_value d) [] [] in
  let x := match values with
           | v :: _ => v
           | [] => match pulled_values with
                   | p :: ps => num_add (list_max p ps) eps12
                   | [] => B d
                   end
           end in
  Ok (x, S_prime, mk (M d) (B d) values v2k k2v).

End SimplifiedLemma3_3_DataStructure.

Module D := SimplifiedLemma3_3_DataStructure.

(** ** Global state and graphs *)

Record globals := mkG {
  d_hat : gmap Z num;
  pred : gmap Z (option Z);
  path_alpha : gmap Z alpha;
  k_param : Z;
  t_param : Z;
  N_vertices : Z
}.

(** [Graph = Dict[int, Dict[int, float]]]: the inner dictionary is iterated,
    the outer one is only looked up.  Weights are finite. *)
Abbreviation Graph := (gmap Z (list (Z * Q))).

Definition set_vertex (g : globals) (v : Z) (d : num) (a : alpha) (p : Z) : globals :=
  mkG (<[v := d]> (d_hat g)) (<[v := Some p]> (pred g)) (<[v := a]> (path_alpha g))
      (k_param g) (t_param g) (N_vertices g).

(** [d_hat.get(v, float('inf'))] and [path_alpha.get(v, float('inf'))]. *)
Definition d_hat_get (g : globals) (v : Z) : num := default Inf (d_hat g !! v).
Definition path_alpha_get (g : globals) (v : Z) : alpha := default AInf (path_alpha g !! v).

(** [u < pred.get(v, float('inf'))]: a missing key gives infinity, a key
    stored with [None] makes the comparison a TypeError. *)
Definition lt_pred_get (g : globals) (u v : Z) : result bool :=
  match pred g !! v with
  | None => Ok true
  | Some None => Raise TypeError
  | Some (Some p) => Ok (u <? p)
  end.

(** [pred.get(x)] with [None] replaced by [-1]. *)
Definition pred_or_minus_one (g : globals) (x : Z) : Z :=
  match pred g !! x with
  | Some (Some p) => p
  | _ => -1
  end.

(** [pred.get(x, -1)]: [None] when the key is stored with [None]. *)
Definition pred_get_minus_one (g : globals) (x : Z) : option Z :=
  match pred g !! x with
  | Some p => p
  | None => Some (-1)
  end.

(** Python list indexing, negative indices included. *)
Definition py_index {A : Type} (l : list A) (i : Z) : result A :=
  let j := if i <? 0 then len l + i else i in
  if j <? 0 then Raise IndexError
  else match nth_error l (Z.to_nat j) with
       | Some a => Ok a
       | None => Raise IndexError
       end.

Definition sorted (l : list num) : list num := fold_left insort l [].

(** ** Algorithm 2: BaseCase *)

(** Heap entries [(current_dist, current_path_alpha, vertex_id, pred_id)],
    ordered as Python orders tuples.  [heapq] is modelled by a sorted list:
    [heappop] returns the least entry either way. *)
Definition heap_entry := (num * alpha * Z * Z)%type.

Definition heap_ltb (a b : heap_entry) : bool :=
  let '(d1, a1, v1, p1) := a in
  let '(d2, a2, v2, p2) := b in
  if negb (num_eqb d1 d2) then num_ltb d1 d2
  else if negb (alpha_eqb a1 a2) then alpha_ltb a1 a2
  else if negb (v1 =? v2) then v1 <? v2
  else p1 <? p2.

Fixpoint heappush (H : list heap_entry) (e : heap_entry) : list heap_entry :=
  match H with
  | [] => [e]
  | h :: H' => if heap_ltb e h then e :: H else h :: heappush H' e
  end.

(** The test that discards a stale heap entry on pop. *)
Definition BaseCase_stale (g : globals) (e : heap_entry) : bool :=
  let '(current_d, current_alpha, u, current_pred_u) := e in
  let actual_pred_u := pred_or_minus_one g u in
  num_ltb (d_hat_get g u) current_d
  || (num_eqb current_d (d_hat_get g u)
      && alpha_ltb (path_alpha_get g u) current_alpha)
  || (num_eqb current_d (d_hat_get g u)
      && alpha_eqb current_alpha (path_alpha_get g u)
      && (current_pred_u >? actual_pred_u)).

(** The decision taken for one edge [(u, v)] popped with [(current_d,
    current_alpha)]: whether [d_hat[v]], [path_alpha[v]] and [pred[v]] are
    overwritten. *)
Definition BaseCase_accepts (B : num) (g : globals) (current_d : num)
  (current_alpha : alpha) (u v : Z) (weight_uv : Q) : result bool :=
  let new_dist := num_add current_d (Fin weight_uv) in
  let new_alpha := alpha_succ current_alpha in
  if num_ltb new_dist B then
    let current_v_d := d_hat_get g v in
    let current_v_alpha := path_alpha_get g v in
    if num_ltb new_dist current_v_d then Ok true
    else if num_eqb new_dist current_v_d then
      if alpha_ltb new_alpha current_v_alpha then Ok true
      else if alpha_eqb new_alpha current_v_alpha then lt_pred_get g u v
      else Ok false
    else Ok false
  else Ok false.

(** One pass of [for v, weight_uv in graph.get(u, {}).items()]. *)
Definition BaseCase_relax (B : num) (current_d : num) (current_alpha : alpha) (u : Z)
  (st : globals * list heap_entry) (edge : Z * Q)
  : result (globals * list heap_entry) :=
  let '(g, H) := st in
  let '(v, weight_uv) := edge in
  let new_dist := num_add current_d (Fin weight_uv) in
  let new_alpha := alpha_succ current_alpha in
  let* update_needed := BaseCase_accepts B g current_d current_alpha u v weight_uv in
  if (update_needed : bool) then
    Ok (set_vertex g v new_dist new_alpha u,
        heappush H (new_dist, new_alpha, v, u))
  else Ok (g, H).

(** The [while H and len(U0) < k_param + 1] loop.  [budget] is
    [k_param + 1 - len(U0)]: it drops by one each time a vertex joins [U0],
    and a pass that discards an entry only shortens the heap. *)
Fixpoint BaseCase_loop (budget : nat) (graph : Graph) (B : num) (g : globals)
  (U0 : pyset) (candidates : list (Z * num)) {struct budget}
  : list heap_entry -> result (globals * pyset * list (Z * num)) :=
  match budget with
  | O => fun _ => Ok (g, U0, candidates)
  | S budget' =>
    fix pop (H : list heap_entry) : result (globals * pyset * list (Z * num)) :=
      match H with
      | [] => Ok (g, U0, candidates)
      | (current_d, current_alpha, u, current_pred_u) :: H' =>
        if BaseCase_stale g (current_d, current_alpha, u, current_pred_u) then pop H'
        else if set_mem u U0 then pop H'
        else
          let* '(g', H'') :=
            for_each (default [] (graph !! u))
                     (BaseCase_relax B current_d current_alpha u) (g, H') in
          BaseCase_loop budget' graph B g' (set_add u U0)
                        (dict_set Z.eqb candidates u current_d) H''
      end
  end.

(** The heap seeded with every vertex of [S] at its current estimate. *)
Definition BaseCase_seed (g : globals) (S : pyset) : list heap_entry :=
  fold_left
    (fun H x => heappush H (d_hat_get g x, path_alpha_get g x, x,
                            pred_or_minus_one g x)) S [].

(** The vertices completed by the loop, with the distances recorded for
    them. *)
Definition BaseCase_completed (g : globals) (B : num) (S : pyset) (graph : Graph)
  : result (globals * pyset * list (Z * num)) :=
  BaseCase_loop (Z.to_nat (k_param g + 1)) graph B g [] [] (BaseCase_seed g S).

Definition BaseCase (g : globals) (B : num) (S : pyset) (graph : Graph)
  : result (num * pyset * globals) :=
  let* '(g', U0, candidates) := BaseCase_completed g B S graph in
  if len U0 <=? k_param g' then Ok (B, U0, g')
  else
    let sorted_distances := sorted (map snd candidates) in
    let* B_prime :=
      if len sorted_distances >? k_param g' then py_index sorted_distances (k_param g')
      else match sorted_distances with
           | d :: ds => Ok (list_max d ds)
           | [] => Ok B
           end in
    let final_U :=
      set_of_list
        (map fst (List.filter (fun '(v, dist) => num_ltb dist B_prime) candidates)) in
    Ok (B_prime, final_U, g').

(** ** Heuristic flags, as the module sets them *)

Definition HEURISTICS_ENABLED : bool := true.
Definition HEURISTICS_SEEDING : bool := true.
Definition HEURISTICS_RELAX_INSERT : bool := true.
Definition HEURISTICS_LARGE_M : bool := true.
Definition HEURISTICS_BOUNDARY_EQUALITY : bool := true.
Definition HEURISTICS_ADJUST_BI : bool := true.

(** ** Algorithm 1: FindPivots *)

(** The decision taken for one edge [(u, v)] of a relaxation round. *)
Definition FindPivots_accepts (g : globals) (u v : Z) (weight_uv : Q) : result bool :=
  let* d_u := subscript (d_hat g) u in
  let* a_u := subscript (path_alpha g) u in
  let new_dist := num_add d_u (Fin weight_uv) in
  let new_alpha := alpha_succ a_u in
  let current_v_d := d_hat_get g v in
  let current_v_alpha := path_alpha_get g v in
  if num_ltb new_dist current_v_d then Ok true
  else if num_eqb new_dist current_v_d then
    if alpha_ltb new_alpha current_v_alpha then Ok true
    else if alpha_eqb new_alpha current_v_alpha then lt_pred_get g u v
    else Ok false
  else Ok false.

(** One edge [(u, v)] of a relaxation round; the state is the global state,
    [W] and [next_Wi]. *)
Definition FindPivots_relax (B : num) (u : Z) (st : globals * pyset * pyset)
  (edge : Z * Q) : result (globals * pyset * pyset) :=
  let '(g, W, next_Wi) := st in
  let '(v, weight_uv) := edge in
  let* update_needed := FindPivots_accepts g u v weight_uv in
  let g' :=
    if (update_needed : bool) then
      set_vertex g v (num_add (d_hat_get g u) (Fin weight_uv))
                 (alpha_succ (path_alpha_get g u)) u
    else g in
  let within_bound :=
    if HEURISTICS_ENABLED && HEURISTICS_BOUNDARY_EQUALITY
    then num_leb (d_hat_get g' v) B
    else num_ltb (d_hat_get g' v) B in
  if within_bound then Ok (g', set_add v W, set_add v next_Wi)
  else Ok (g', W, next_Wi).

(** The body of [for i in range(k_param)]: every edge out of the current
    frontier, in place. *)
Definition FindPivots_round (graph : Graph) (B : num) (g : globals) (W Wi : pyset)
  : result (globals * pyset * pyset) :=
  for_each Wi
    (fun st u =>
       match graph !! u with
       | None => Ok st
       | Some edges => for_each edges (FindPivots_relax B u) st
       end)
    (g, W, []).

(** The rounds; the boolean tells whether [len(W) > k_param * len(S)] ended
    them early. *)
Fixpoint FindPivots_rounds (rounds : nat) (graph : Graph) (B : num) (srcs : pyset)
  (g : globals) (W Wi : pyset) : result (globals * pyset * bool) :=
  match rounds with
  | O => Ok (g, W, false)
  | S rounds' =>
    let* '(g', W', next_Wi) := FindPivots_round graph B g W Wi in
    if len W' >? k_param g' * len srcs then Ok (g', W', true)
    else FindPivots_rounds rounds' graph B srcs g' W' next_Wi
  end.

(** The forest [F_adj]: an edge [(pred[v], v)] for each [v] in [W] whose
    predecessor lies in [W] or [S]. *)
Definition build_F_adj (g : globals) (W srcs : pyset) : gmap Z (list Z) :=
  fold_left
    (fun F v_node =>
       match pred g !! v_node with
       | Some (Some p_node) =>
         if set_mem p_node W || set_mem p_node srcs
         then <[p_node := default [] (F !! p_node) ++ [v_node]]> F
         else F
       | _ => F
       end)
    W ∅.

(** [dfs_calculate_subtree_size].  [depth] bounds the nesting of the calls;
    the interpreter's own limit is not modelled, and [FindPivots] grants the
    depth a traversal can need. *)
Fixpoint dfs_calculate_subtree_size (depth : nat) (F_adj : gmap Z (list Z))
  (current_node : Z) (visited_for_this_pivot : pyset) : result (Z * pyset) :=
  match depth with
  | O => Raise RecursionError
  | S depth' =>
    if set_mem current_node visited_for_this_pivot
    then Ok (0, visited_for_this_pivot)
    else
      for_each (default [] (F_adj !! current_node))
        (fun '(size, visited) neighbor =>
           let* '(sub, visited') :=
             dfs_calculate_subtree_size depth' F_adj neighbor visited in
           Ok (size + sub, visited'))
        (1, set_add current_node visited_for_this_pivot)
  end.

Definition FindPivots (g : globals) (B : num) (S : pyset) (graph : Graph)
  : result (pyset * pyset * globals) :=
  let* '(g', W, early) :=
    FindPivots_rounds (Z.to_nat (k_param g)) graph B S g S S in
  if (early : bool) then Ok (S, W, g')
  else
    let F_adj := build_F_adj g' W S in
    let* P :=
      for_each S
        (fun P s_root =>
           if set_mem s_root W then
             let* '(subtree_size, _) :=
               dfs_calculate_subtree_size (length W + 1) F_adj s_root [] in
             if subtree_size >=? k_param g' then Ok (set_add s_root P) else Ok P
           else Ok P)
        [] in
    Ok (P, W, g').

(** ** Algorithm 3: BMSSP *)

(** [2**e] for an integer exponent of either sign. *)
Definition pow2 (e : Z) : Q := Qpower 2 e.

Definition M_param_of (l : Z) (g : globals) : Z :=
  if HEURISTICS_ENABLED && HEURISTICS_LARGE_M then
    if (l - 1) * t_param g >=? 0 then Z.max 64 (2 ^ ((l - 1) * t_param g)) else 64
  else
    if (l - 1) * t_param g >=? 0 then 2 ^ ((l - 1) * t_param g) else 1.

(** [for x in P: D.Insert(x, d_hat[x], path_alpha[x], pred.get(x, -1))]. *)
Definition insert_pivots (g : globals) (P : pyset) (d : D.t) : result D.t :=
  for_each P
    (fun d x =>
       let* d_x := subscript (d_hat g) x in
       let* a_x := subscript (path_alpha g) x in
       D.Insert d x d_x a_x (pred_get_minus_one g x))
    d.

(** The seeding heuristic: neighbours of [W] with a finite estimate. *)
Definition seed_neighbors (g : globals) (graph : Graph) (W : pyset) (d : D.t)
  : result D.t :=
  for_each W
    (fun d w =>
       match graph !! w with
       | None => Ok d
       | Some edges =>
         for_each edges
           (fun d '(v_nb, w_nb) =>
              match D._key_to_value d !! v_nb with
              | Some _ => Ok d
              | None =>
                match d_hat_get g v_nb with
                | Inf => Ok d
                | Fin dv =>
                  D.Insert d v_nb (Fin dv) (default (AFin 0) (path_alpha g !! v_nb))
                           (pred_get_minus_one g v_nb)
                end
              end)
           d
       end)
    d.

(** [min(d_hat[x] for x in P)] for a non-empty [P]. *)
Definition min_d_hat (g : globals) (P : pyset) : result num :=
  match P with
  | [] => Raise KeyError
  | x :: P' =>
    let* d_x := subscript (d_hat g) x in
    for_each P' (fun m y => let* d_y := subscript (d_hat g) y in Ok (num_min m d_y)) d_x
  end.

(** The adjustment of a tiny [Bi]. *)
Definition adjust_Bi (g : globals) (graph : Graph) (Si : pyset) (Bi : num) : num :=
  if HEURISTICS_ENABLED && HEURISTICS_ADJUST_BI && num_ltb Bi eps9 then
    let min_pos :=
      fold_left
        (fun min_pos u_si =>
           fold_left
             (fun min_pos '(v_nb, w_nb) =>
                let cand := num_add (d_hat_get g u_si) (Fin w_nb) in
                if num_ltb (d_hat_get g u_si) cand && num_ltb cand min_pos
                then cand else min_pos)
             (default [] (graph !! u_si)) min_pos)
        Si Inf in
    if num_ltb min_pos Inf then min_pos
    else
      let max_pulled :=
        match map (fun u_si => default zero (d_hat g !! u_si)) Si with
        | [] => zero
        | d :: ds => list_max d ds
        end in
      num_add max_pulled eps12
  else Bi.

(** The decision taken for one edge out of a completed vertex. *)
Definition BMSSP_accepts (g : globals) (u_completed v_neighbor : Z) (weight_uv : Q)
  : result bool :=
  let* d_u := subscript (d_hat g) u_completed in
  let* a_u := subscript (path_alpha g) u_completed in
  let new_dist := num_add d_u (Fin weight_uv) in
  let new_alpha := alpha_succ a_u in
  let current_v_d := d_hat_get g v_neighbor in
  let current_v_alpha := path_alpha_get g v_neighbor in
  if num_ltb new_dist current_v_d then Ok true
  else if num_eqb new_dist current_v_d then
    if alpha_ltb new_alpha current_v_alpha then Ok true
    else if alpha_eqb new_alpha current_v_alpha then
      lt_pred_get g u_completed v_neighbor
    else Ok false
  else Ok false.

(** One edge out of a completed vertex; the state is the global state, [D]
    and [K_batch_prepend]. *)
Definition BMSSP_relax (B Bi B_prime_i : num) (u_completed : Z)
  (st : globals * D.t * list D.item) (edge : Z * Q)
  : result (globals * D.t * list D.item) :=
  let '(g, d, K_batch_prepend) := st in
  let '(v_neighbor, weight_uv) := edge in
  let* update_needed := BMSSP_accepts g u_completed v_neighbor weight_uv in
  if (update_needed : bool) then
    let new_dist := num_add (d_hat_get g u_completed) (Fin weight_uv) in
    let new_alpha := alpha_succ (path_alpha_get g u_completed) in
    let g' := set_vertex g v_neighbor new_dist new_alpha u_completed in
    if HEURISTICS_ENABLED && HEURISTICS_RELAX_INSERT then
      let* d' := D.Insert d v_neighbor new_dist new_alpha (Some u_completed) in
      Ok (g', d', K_batch_prepend)
    else if num_leb Bi new_dist && num_ltb new_dist B then
      let* d' := D.Insert d v_neighbor new_dist new_alpha (Some u_completed) in
      Ok (g', d', K_batch_prepend)
    else if num_leb B_prime_i new_dist && num_ltb new_dist Bi then
      Ok (g', d, K_batch_prepend ++ [(v_neighbor, new_dist, new_alpha, Some u_completed)])
    else Ok (g', d, K_batch_prepend)
  else Ok (g, d, K_batch_prepend).

(** Step 5: the edges out of every vertex of [Ui]. *)
Definition relax_completed (graph : Graph) (B Bi B_prime_i : num) (Ui : pyset)
  (g : globals) (d : D.t) : result (globals * D.t * list D.item) :=
  for_each Ui
    (fun st u_completed =>
       match graph !! u_completed with
       | None => Ok st
       | Some edges => for_each edges (BMSSP_relax B Bi B_prime_i u_completed) st
       end)
    (g, d, []).

(** Step 6: the pulled vertices whose estimate lies in [[B'_i, Bi)]. *)
Definition requeue_pulled (g : globals) (Bi B_prime_i : num) (Si : pyset)
  (batch : list D.item) : result (list D.item) :=
  for_each Si
    (fun batch x_si =>
       if num_leb B_prime_i (d_hat_get g x_si) && num_ltb (d_hat_get g x_si) Bi then
         let* d_x := subscript (d_hat g) x_si in
         let* a_x := subscript (path_alpha g) x_si in
         Ok (batch ++ [(x_si, d_x, a_x, pred_get_minus_one g x_si)])
       else Ok batch)
    batch.

(** The variables of one [BMSSP] frame that its main loop updates. *)
Record frame := mkFrame {
  frame_D : D.t;
  current_U : pyset;
  last_B_prime_i : num;
  iteration_count : Z;
  stall_count : Z;
  processed_vertices : pyset
}.

Definition size_below (U : pyset) (max_U_size_for_level : Q) : bool :=
  negb (Qle_bool max_U_size_for_level (inject_Z (len U))).

(** The main loop.  [fuel] is [max_iterations - iteration_count]: when it is
    used up the test [iteration_count > max_iterations] breaks the loop.
    [rec] is the call [BMSSP(l - 1, _, _, graph)]. *)
Fixpoint BMSSP_loop (rec : globals -> num -> pyset -> result (num * pyset * globals))
  (fuel : nat) (graph : Graph) (B : num) (max_U_size_for_level : Q)
  (g : globals) (f : frame) : result (globals * frame) :=
  if size_below (current_U f) max_U_size_for_level && negb (D.is_empty (frame_D f)) then
    match fuel with
    | O =>
      Ok (g, mkFrame (frame_D f) (current_U f) (last_B_prime_i f)
                     (iteration_count f + 1) (stall_count f) (processed_vertices f))
    | S fuel' =>
      let* '(Bi, Si, d1) := D.Pull (frame_D f) in
      let stalled := issubset Si (processed_vertices f) in
      let stall_count' := if stalled then stall_count f + 1 else 0 in
      if stalled && (stall_count' >? 5) then
        Ok (g, mkFrame d1 (current_U f) (last_B_prime_i f)
                       (iteration_count f + 1) stall_count' (processed_vertices f))
      else
        let processed' :=
          if stalled then processed_vertices f
          else set_update (processed_vertices f) Si in
        let Bi := adjust_Bi g graph Si Bi in
        let* '(B_prime_i, Ui, g1) := rec g Bi Si in
        let* '(g2, d2, K_batch_prepend) :=
          relax_completed graph B Bi B_prime_i Ui g1 d1 in
        let* batch_items_to_add := requeue_pulled g2 Bi B_prime_i Si K_batch_prepend in
        let* d3 := D.BatchPrepend d2 batch_items_to_add in
        BMSSP_loop rec fuel' graph B max_U_size_for_level g2
          (mkFrame d3 (set_update (current_U f) Ui) B_prime_i
                   (iteration_count f + 1) stall_count' processed')
    end
  else Ok (g, f).

Definition max_iterations_of (g : globals) : Z := Z.max 1000 (N_vertices g * 10).

Fixpoint BMSSP (l : nat) (g : globals) (B : num) (srcs : pyset) (graph : Graph)
  {struct l} : result (num * pyset * globals) :=
  match l with
  | O => BaseCase g B srcs graph
  | S l' =>
    let* '(P, W, g1) := FindPivots g B srcs graph in
    let d0 := D.init (M_param_of (Z.of_nat l) g1) B in
    let* d1 := insert_pivots g1 P d0 in
    let* d2 := if HEURISTICS_ENABLED && HEURISTICS_SEEDING
               then seed_neighbors g1 graph W d1 else Ok d1 in
    let* B_prime_0 := if is_nil P then Ok B else min_d_hat g1 P in
    let max_U_size_for_level :=
      (inject_Z (k_param g1) * pow2 (Z.of_nat l * t_param g1))%Q in
    let* '(g2, f) :=
      BMSSP_loop (fun g B S => BMSSP l' g B S graph)
                 (Z.to_nat (max_iterations_of g1)) graph B max_U_size_for_level g1
                 (mkFrame d2 [] B_prime_0 0 0 []) in
    let final_return_B_prime :=
      if D.is_empty (frame_D f) then B else num_min (last_B_prime_i f) B in
    let U := fold_left
               (fun U x_w => if num_ltb (d_hat_get g2 x_w) final_return_B_prime
                             then set_add x_w U else U)
               W (current_U f) in
    Ok (final_return_B_prime, U, g2)
  end.

(** ** The entry point *)

(** The adjacency dictionary: [graph[u][v] = weight] for each edge in turn,
    so a repeated pair keeps its place and takes the last weight. *)
Definition build_graph (edges : list (Z * Z * Q)) : Graph :=
  fold_left
    (fun graph '(u, v, weight) =>
       <[u := dict_set Z.eqb (default [] (graph !! u)) v weight]> graph)
    edges ∅.

Definition range (n : Z) : list Z := map Z.of_nat (seq 0 (Z.to_nat n)).

(** [math.log(x, 2)], [**] and the rounding functions, over the reals. *)
Definition math_log2 (x : Z) : R := (ln (IZR x) / ln 2)%R.

Definition derive_k_param (n_for_log_calc : Z) : Z :=
  Z.max 1 (Zfloor (Rpower (math_log2 n_for_log_calc) (1 / 3))).

Definition derive_t_param (n_for_log_calc : Z) : Z :=
  Z.max 1 (Zfloor (Rpower (math_log2 n_for_log_calc) (2 / 3))).

Definition derive_l_max_level (n_for_log_calc t : Z) : Z :=
  if n_for_log_calc >? 1 then Zceil (math_log2 n_for_log_calc / IZR t) else 0.

(** [d.clear()]. *)
Definition dict_clear {V : Type} (d : gmap Z V) : gmap Z V := ∅.

(** The state after [g0]'s dictionaries are cleared and filled for
    [range(N_vertices)] and the source is set. *)
Definition initial_globals (g0 : globals) (n_val source k t : Z) : globals :=
  let d := fold_left (fun d v_id => <[v_id := Inf]> d) (range n_val)
                     (dict_clear (d_hat g0)) in
  let a := fold_left (fun a v_id => <[v_id := AInf]> a) (range n_val)
                     (dict_clear (path_alpha g0)) in
  let p := fold_left (fun p v_id => <[v_id := None]> p) (range n_val)
                     (dict_clear (pred g0)) in
  mkG (<[source := zero]> d) p (<[source := AFin 0]> a) k t n_val.

(** [{v: d_hat[v] for v in range(N_vertices) if d_hat[v] != float('inf')}],
    in insertion order. *)
Definition result_distances (g : globals) : result (list (Z * num)) :=
  for_each (range (N_vertices g))
    (fun r v =>
       let* d_v := subscript (d_hat g) v in
       if num_eqb d_v Inf then Ok r else Ok (r ++ [(v, d_v)]))
    [].

(** The call made with the derived parameters. *)
Definition run_BMSSP (g0 : globals) (n_val source k t l_max_level : Z) (graph : Graph)
  : result (list (Z * num) * globals) :=
  let* '(final_boundary, final_complete_vertices_U, g) :=
    BMSSP (Z.to_nat l_max_level) (initial_globals g0 n_val source k t) Inf [source]
          graph in
  let* r := result_distances g in
  Ok (r, g).

(** [g0] is the module state left by whatever ran before; the function
    overwrites all of it before reading any. *)
Definition solve_sssp_directed_real_weights (g0 : globals) (n_val m_val : Z)
  (edges : list (Z * Z * Q)) (source : Z) : result (list (Z * num) * globals) :=
  let graph := build_graph edges in
  let n_for_log_calc := Z.max 2 n_val in
  let k := derive_k_param n_for_log_calc in
  let t := derive_t_param n_for_log_calc in
  let l_max_level := derive_l_max_level n_for_log_calc t in
  run_BMSSP g0 n_val source k t l_max_level graph.

(** ** The reference: dijkstra_single_source (hybrid_sssp.py) *)

Definition pq_ltb (a b : Q * Z) : bool :=
  if negb (Qeq_bool (fst a) (fst b)) then negb (Qle_bool (fst b) (fst a))
  else snd a <? snd b.

Fixpoint pq_push (pq : list (Q * Z)) (e : Q * Z) : list (Q * Z) :=
  match pq with
  | [] => [e]
  | h :: pq' => if pq_ltb e h then e :: pq else h :: pq_push pq' e
  end.

(** One pass of [for v, w in graph_dict.get(u, {}).items()]. *)
Definition dijkstra_relax (d : Q) (st : gmap Z Q * list (Q * Z)) (edge : Z * Q)
  : gmap Z Q * list (Q * Z) :=
  let '(dist, pq) := st in
  let '(v, w) := edge in
  let new_dist := (d + w)%Q in
  let better := match dist !! v with
                | Some old => negb (Qle_bool old new_dist)
                | None => true
                end in
  if better then (<[v := new_dist]> dist, pq_push pq (new_dist, v)) else st.

(** The [while pq] loop.  The heap receives one entry at the start and at
    most one per edge afterwards, so [1 + |E|] passes empty it; [None] would
    mean that [passes] was too small. *)
Fixpoint dijkstra_loop (passes : nat) (graph_dict : Graph) (dist : gmap Z Q)
  (pq : list (Q * Z)) (visited : pyset) : option (gmap Z Q) :=
  match pq with
  | [] => Some dist
  | (d, u) :: pq' =>
    match passes with
    | O => None
    | S passes' =>
      if set_mem u visited then dijkstra_loop passes' graph_dict dist pq' visited
      else
        let '(dist', pq'') :=
          fold_left (dijkstra_relax d) (default [] (graph_dict !! u)) (dist, pq') in
        dijkstra_loop passes' graph_dict dist' pq'' (set_add u visited)
    end
  end.

Definition edge_count (graph_dict : Graph) : nat :=
  map_fold (fun _ edges n => (length edges + n)%nat) O graph_dict.

Definition dijkstra_single_source (graph_dict : Graph) (n source : Z)
  : option (gmap Z Q) :=
  dijkstra_loop (S (edge_count graph_dict)) graph_dict {[source := 0%Q]}
                [(0%Q, source)] [].

(** The distance map of a result, without the final module state. *)
Definition distances_of (r : result (list (Z * num) * globals)) : result (list (Z * num)) :=
  match r with
  | Ok (distances, _) => Ok distances
  | Raise e => Raise e
  end.

(** ** The relaxation rule in the words of the specification *)

(** The predecessor of [v], if it has one. *)
Definition predecessor (g : globals) (v : Z) : option Z :=
  match pred g !! v with
  | Some p => p
  | None => None
  end.

(** [(new_distance, new_path_length, u)] is lexicographically below
    [(distance(v), path_length(v), predecessor(v))]: smaller distance wins,
    then fewer edges, then the smaller predecessor id; a vertex that has no
    predecessor yet loses the last comparison. *)
Definition lex_smaller (new_distance : num) (new_path_length : alpha) (u : Z)
  (distance_v : num) (path_length_v : alpha) (predecessor_v : option Z) : bool :=
  num_ltb new_distance distance_v
  || (num_eqb new_distance distance_v
      && (alpha_ltb new_path_length path_length_v
          || (alpha_eqb new_path_length path_length_v
              && match predecessor_v with
                 | Some p => u <? p
                 | None => true
                 end))).

(** The rule for a candidate update of [v] through [u], whose distance and
    path length are [distance_u] and [path_length_u]. *)
Definition spec_accepts (g : globals) (distance_u : num) (path_length_u : alpha)
  (u v : Z) (w : Q) : bool :=
  lex_smaller (num_add distance_u (Fin w)) (alpha_succ path_length_u) u
              (d_hat_get g v) (path_alpha_get g v) (predecessor g v).

(** A module state in which nothing has been solved yet. *)
Definition fresh_globals : globals := mkG ∅ ∅ ∅ 0 0 0.

(** ** The order on numbers, as propositions *)

Definition num_lt (a b : num) : Prop :=
  match a, b with
  | Fin x, Fin y => (x < y)%Q
  | Fin _, Inf => True
  | Inf, _ => False
  end.

Definition num_le (a b : num) : Prop :=
  match a, b with
  | Fin x, Fin y => (x <= y)%Q
  | _, Inf => True
  | Inf, Fin _ => False
  end.

(** Numeric equality, the [==] of the source. *)
Definition num_eqv (a b : num) : Prop :=
  match a, b with
  | Fin x, Fin y => (x == y)%Q
  | Inf, Inf => True
  | _, _ => False
  end.

(** The parameters of the module state are left as they were. *)
Definition same_params (g g' : globals) : Prop :=
  k_param g' = k_param g /\ t_param g' = t_param g /\ N_vertices g' = N_vertices g.

(** ** FindPivots round by round *)

(** The state [(globals, W, Wi_current_step)] after [i] relaxation rounds
    started from [(g, W, Wi)], the size test left aside. *)
Fixpoint FindPivots_after (i : nat) (graph : Graph) (B : num) (g : globals)
  (W Wi : pyset) : result (globals * pyset * pyset) :=
  match i with
  | O => Ok (g, W, Wi)
  | S i' =>
    let* '(g', W', next_Wi) := FindPivots_round graph B g W Wi in
    FindPivots_after i' graph B g' W' next_Wi
  end.

(** After [i] rounds from [S], [W] has outgrown [k_param * len(S)]. *)
Definition FindPivots_outgrown (i : nat) (graph : Graph) (B : num) (g : globals)
  (srcs : pyset) : Prop :=
  exists gi Wi next_Wi,
    FindPivots_after i graph B g srcs srcs = Ok (gi, Wi, next_Wi)
    /\ len Wi > k_param g * len srcs.

(** [x] lies in the subtree of [root] in the forest [F_adj]. *)
Inductive in_subtree (F_adj : gmap Z (list Z)) (root : Z) : Z -> Prop :=
| subtree_root : in_subtree F_adj root root
| subtree_child p children x :
    in_subtree F_adj root p -> F_adj !! p = Some children -> In x children ->
    in_subtree F_adj root x.

(** The vertices of [nodes] that a traversal has not visited yet. *)
Definition unvisited (nodes : list Z) (visited : pyset) : nat :=
  length (List.filter (fun x => negb (set_mem x visited)) nodes).

(** What a traversal from [node] returns: the visited set grows by the
    vertices counted, every new vertex lies in the subtree of [node], and the
    new vertices have all their children visited. *)
Definition traversal_ok (F_adj : gmap Z (list Z)) (node : Z) (visited : pyset)
  (size : Z) (visited' : pyset) : Prop :=
  NoDup visited'
  /\ (forall x, In x visited -> In x visited')
  /\ In node visited'
  /\ size = len visited' - len visited
  /\ (forall x, In x visited' -> ~ In x visited -> in_subtree F_adj node x)
  /\ (forall p children c,
         In p visited' -> ~ In p visited -> F_adj !! p = Some children ->
         In c children -> In c visited').

(** A state in which the path 0 -> 1 has been relaxed, with [k_param = 2]. *)
Definition path_relaxed_state : globals :=
  mkG {[0 := zero; 1 := Fin 1]} {[0 := None; 1 := Some 0]}
      {[0 := AFin 0; 1 := AFin 1]} 2 1 3.

(** The result is a value or a Python exception: the depth granted to the
    traversals of [FindPivots] was enough. *)
Definition no_RecursionError {A : Type} (r : result A) : Prop :=
  match r with
  | Raise RecursionError => False
  | _ => True
  end.

(** ** The representation invariant of the ordered frontier *)

(** No two entries of an insertion-ordered dictionary have equal keys. *)
Fixpoint dict_unique {K V : Type} (eqb : K -> K -> bool) (d : list (K * V)) : Prop :=
  match d with
  | [] => True
  | (k, _) :: d' => dict_get eqb d' k = None /\ dict_unique eqb d'
  end.

(** The three fields agree: the values are listed in strictly increasing
    order, each listed value has a non-empty bucket and each bucket a listed
    value, and a key is stored with a value exactly when it sits in the
    bucket of that value. *)
Definition frontier_wf (values : list num) (v2k : list (num * D.bucket))
  (k2v : gmap Z num) : Prop :=
  StronglySorted num_lt values
  /\ dict_unique num_eqb v2k
  /\ (forall v, In v values ->
                exists b, dict_get num_eqb v2k v = Some b /\ b <> [])
  /\ (forall v b, dict_get num_eqb v2k v = Some b ->
                  dict_unique Z.eqb b /\ exists v', In v' values /\ num_eqv v v')
  /\ (forall key v, k2v !! key = Some v ->
                    exists b, dict_get num_eqb v2k v = Some b
                              /\ dict_mem Z.eqb b key = true)
  /\ (forall v b key, dict_get num_eqb v2k v = Some b ->
                      dict_mem Z.eqb b key = true ->
                      exists v', k2v !! key = Some v' /\ num_eqv v' v).

Definition frontier_inv (d : D.t) : Prop :=
  1 <= D.M d /\ frontier_wf (D._values d) (D._value_to_keys d) (D._key_to_value d).

(** The states of a frontier created with capacity [M0] and bound [B0] that
    calls of [Insert] and [BatchPrepend] can reach, also when calls of [Pull]
    come in between. *)
Inductive reachable (M0 : Z) (B0 : num) : D.t -> Prop :=
| reachable_init : reachable M0 B0 (D.init M0 B0)
| reachable_Insert d key value a pred_v_id d' :
    reachable M0 B0 d -> D.Insert d key value a pred_v_id = Ok d' ->
    reachable M0 B0 d'
| reachable_BatchPrepend d L_items d' :
    reachable M0 B0 d -> D.BatchPrepend d L_items = Ok d' ->
    reachable M0 B0 d'
| reachable_Pull d x S_prime d' :
    reachable M0 B0 d -> D.Pull d = Ok (x, S_prime, d') ->
    reachable M0 B0 d'.

(** What a [Pull] on the frontier [d] that returns the boundary [x] and the
    keys [S_prime] and leaves the frontier [d'] has to satisfy: at most [M]
    keys; a pulled key was stored with a value not above [x]; a key that
    remains keeps its value, which is not below [x]; when the frontier is
    emptied by a pull of at least one key, [x] is the largest pulled value
    [mx] plus [1e-12], strictly above [mx] when [mx] is finite; when nothing
    is pulled, [x] is the bound [B]. *)
Definition Pull_contract (d : D.t) (x : num) (S_prime : pyset) (d' : D.t) : Prop :=
  len S_prime <= D.M d
  /\ (forall key, In key S_prime ->
        exists v, D._key_to_value d !! key = Some v /\ num_le v x)
  /\ (forall key v, D._key_to_value d' !! key = Some v ->
        D._key_to_value d !! key = Some v /\ num_le x v)
  /\ (D.is_empty d' = true -> S_prime <> [] ->
        exists key mx,
          In key S_prime /\ D._key_to_value d !! key = Some mx
          /\ (forall key' v, In key' S_prime ->
                D._key_to_value d !! key' = Some v -> num_le v mx)
          /\ num_eqv x (num_add mx eps12)
          /\ (mx <> Inf -> num_lt mx x))
  /\ (S_prime = [] -> x = D.B d).

(** ** What the frontier stores for a key *)

(** The value of [key] and the [(alpha, pred)] tuple kept in the bucket of
    that value: [self._key_to_value[key]] and
    [self._value_to_keys[value][key]], the two reads of [Insert]. *)
Definition stored (d : D.t) (key : Z) : option (num * D.entry) :=
  match D._key_to_value d !! key with
  | Some value =>
    match dict_get num_eqb (D._value_to_keys d) value with
    | Some b => match dict_get Z.eqb b key with
                | Some e => Some (value, e)
                | None => None
                end
    | None => None
    end
  | None => None
  end.

(** [(value, a, p)] is lexicographically strictly below
    [(old_value, old_alpha, old_pred)]; two predecessors are compared only
    when both are vertex ids. *)
Definition triple_below (value : num) (a : alpha) (p : option Z)
  (old_value : num) (old_alpha : alpha) (old_pred : option Z) : bool :=
  num_ltb value old_value
  || (num_eqb value old_value
      && (alpha_ltb a old_alpha
          || (alpha_eqb a old_alpha
              && match p, old_pred with
                 | Some x, Some y => x <? y
                 | _, _ => false
                 end))).

(** ** Walks *)

(** A walk from [s] to a vertex along edges of [graph], with its total
    weight and its number of edges. *)
Inductive walk (graph : Graph) (s : Z) : Z -> Q -> Z -> Prop :=
| walk_nil : walk graph s s 0 0
| walk_step u v w q n :
    walk graph s u q n -> In (v, w) (default [] (graph !! u)) ->
    walk graph s v (q + w) (n + 1).

(** The estimate [d] and the edge count [a] of the vertex [u] are those of a
    walk from [s], unless [u] is still at infinity. *)
Definition reached_by_walk (graph : Graph) (s u : Z) (d : num) (a : alpha) : Prop :=
  d = Inf \/ exists q n, d = Fin q /\ a = AFin n /\ walk graph s u q n.

(** No edge of [graph] has a negative weight. *)
Definition nonnegative_weights (graph : Graph) : Prop :=
  forall u v w, In (v, w) (default [] (graph !! u)) -> (0 <= w)%Q.

(** The weight of the last edge from [u] to [v] in a list of edges, if there
    is one. *)
Fixpoint last_weight (edges : list (Z * Z * Q)) (u v : Z) : option Q :=
  match edges with
  | [] => None
  | (u', v', weight) :: rest =>
    match last_weight rest u v with
    | Some w => Some w
    | None => if (u' =? u) && (v' =? v) then Some weight else None
    end
  end.

(** Every entry of the heap of [BaseCase] holds, for its vertex, an estimate
    and an edge count with the property [V]. *)
Definition heap_ok (V : Z -> num -> alpha -> Prop) (H : list heap_entry) : Prop :=
  forall d a u p, In (d, a, u, p) H -> V u d a.

(** ** The state of the reference Dijkstra between two pops *)

(** The edges out of the vertices that are not visited yet: a bound on the
    pushes still to come. *)
Definition pending_edges (graph_dict : Graph) (visited : pyset) : nat :=
  map_fold (fun u edges n => if set_mem u visited then n else (length edges + n)%nat)
           O graph_dict.

(** Every distance recorded and every heap entry is the weight of a walk
    from the source. *)
Definition dijkstra_sound (graph_dict : Graph) (source : Z) (dist : gmap Z Q)
  (pq : list (Q * Z)) : Prop :=
  (forall v d, dist !! v = Some d -> exists n, walk graph_dict source v d n)
  /\ (forall d v, In (d, v) pq -> exists n, walk graph_dict source v d n).

(** The heap is in order; the source has a distance not above 0; a heap
    entry is not below the distance of its vertex; the distance of a vertex
    not yet visited is in the heap; a visited vertex has a distance not above
    any heap entry, and every edge out of it is relaxed. *)
Definition dijkstra_inv (graph_dict : Graph) (source : Z) (dist : gmap Z Q)
  (pq : list (Q * Z)) (visited : pyset) : Prop :=
  StronglySorted (fun a b : Q * Z => (fst a <= fst b)%Q) pq
  /\ (exists ds, dist !! source = Some ds /\ (ds <= 0)%Q)
  /\ (forall d v, In (d, v) pq -> exists dv, dist !! v = Some dv /\ (dv <= d)%Q)
  /\ (forall v dv, dist !! v = Some dv -> set_mem v visited = true \/ In (dv, v) pq)
  /\ (forall u, set_mem u visited = true ->
        exists du, dist !! u = Some du
                   /\ (forall d v, In (d, v) pq -> (du <= d)%Q)
                   /\ forall v w, In (v, w) (default [] (graph_dict !! u)) ->
                        exists dv, dist !! v = Some dv /\ (dv <= du + w)%Q).

(** ** get_sssp_statistics (sssp_diagnostics.py) *)

(** The dictionary of statistics, one field per key; [None] is Python's
    [None]. *)
Record statistics := mkStats {
  stats_n : Z;
  stats_k_param : Z;
  stats_t_param : Z;
  stats_reachable_count : Z;
  stats_unreachable_count : Z;
  stats_reachable_pct : Q;
  stats_max_distance : option num;
  stats_avg_distance : option num;
  stats_avg_path_length : option Q;
  stats_max_path_length : option Z
}.

(** [[v for v in range(N_vertices) if d_hat.get(v, float('inf')) != float('inf')]]
    and its complement. *)
Definition stats_reachable (g : globals) : list Z :=
  List.filter (fun v => negb (num_eqb (d_hat_get g v) Inf)) (range (N_vertices g)).

Definition stats_unreachable (g : globals) : list Z :=
  List.filter (fun v => num_eqb (d_hat_get g v) Inf) (range (N_vertices g)).

(** [sum(l) / len(l)] for a list of floats. *)
Definition num_mean (l : list num) : num :=
  match fold_left num_add l zero with
  | Fin s => Fin (s / inject_Z (len l))
  | Inf => Inf
  end.

(** [max(l)] for a non-empty list of ints. *)
Definition Z_list_max (hd : Z) (tl : list Z) : Z := fold_left Z.max tl hd.

(** The statistics of the module state [g].  A reachable vertex has a stored
    distance, so the subscript [d_hat[v]] is the value that
    [d_hat.get(v, float('inf'))] saw; [path_alpha[v]] is read only where
    [path_alpha.get(v, float('inf'))] is not infinite. *)
Definition get_sssp_statistics (g : globals) : statistics :=
  let reachable := stats_reachable g in
  let unreachable := stats_unreachable g in
  let reachable_pct :=
    if N_vertices g >? 0
    then (100 * inject_Z (len reachable) / inject_Z (N_vertices g))%Q
    else 0%Q in
  let head := mkStats (N_vertices g) (k_param g) (t_param g)
                      (len reachable) (len unreachable) reachable_pct in
  match reachable with
  | [] => head None None None None
  | _ :: _ =>
    let finite_dists := map (d_hat_get g) reachable in
    let finite_alphas :=
      flat_map (fun v => match path_alpha_get g v with
                         | AFin a => [a]
                         | AInf => []
                         end) reachable in
    let max_distance := match finite_dists with
                        | d :: ds => Some (list_max d ds)
                        | [] => None
                        end in
    match finite_alphas with
    | a :: rest =>
      head max_distance (Some (num_mean finite_dists))
           (Some (inject_Z (fold_left Z.add finite_alphas 0%Z)
                  / inject_Z (len finite_alphas))%Q)
           (Some (Z_list_max a rest))
    | [] => head max_distance (Some (num_mean finite_dists)) (Some 0%Q) (Some 0)
    end
  end.

(** ** count_mismatches (hybrid_sssp.py) *)

(** [abs(ref_d - test_d) > 1e-9].  For two infinities the difference is nan,
    and no comparison with nan holds. *)
Definition differs (ref_d test_d : num) : bool :=
  match ref_d, test_d with
  | Fin x, Fin y => negb (Qle_bool (Qabs (x - y)) (1 # 1000000000))
  | Inf, Inf => false
  | _, _ => true
  end.

(** The keys of a dictionary that is only looked up. *)
Definition dict_keys {V : Type} (d : gmap Z V) : list Z := map fst (map_to_list d).

(** The pair [(mismatches, avg_error)] over the union of the two key sets. *)
Definition count_mismatches (test_dist ref_dist : gmap Z num) : Z * Q :=
  let all_verts := set_update (set_of_list (dict_keys ref_dist)) (dict_keys test_dist) in
  let '(mismatches, total_error) :=
    fold_left
      (fun '(mismatches, total_error) v =>
         let ref_d := default Inf (ref_dist !! v) in
         let test_d := default Inf (test_dist !! v) in
         if differs ref_d test_d then
           (mismatches + 1,
            match ref_d, test_d with
            | Fin x, Fin y => (total_error + Qabs (x - y))%Q
            | _, _ => total_error
            end)
         else (mismatches, total_error))
      all_verts (0, 0%Q) in
  (mismatches,
   if mismatches >? 0 then (total_error / inject_Z mismatches)%Q else 0%Q).

(** ** edges_to_graph_dict (graph_generator.py) *)

(** [graph = {i: {} for i in range(n)}], then [graph[u][v] = weight] for each
    edge in turn: the subscript [graph[u]] raises KeyError for a tail outside
    [range(n)].  [compare_algorithms] of hybrid_sssp.py builds the graph of
    its reference run with the same two statements. *)
Definition edges_to_graph_dict (edges : list (Z * Z * Q)) (n : Z) : result Graph :=
  for_each edges
    (fun graph '(u, v, weight) =>
       let* adj := subscript graph u in
       Ok (<[u := dict_set Z.eqb adj v weight]> graph))
    (fold_left (fun graph i => <[i := []]> graph) (range n) ∅).

(** ** Well-formed inputs and the states a solve goes through on them *)

Definition in_range (n v : Z) : Prop := 0 <= v < n.

(** Every edge joins two vertices of [range(n)] and has a weight that is not
    negative. *)
Definition well_formed_graph (n : Z) (graph : Graph) : Prop :=
  forall u v w, In (v, w) (default [] (graph !! u)) ->
                in_range n u /\ in_range n v /\ (0 <= w)%Q.

(** A vertex of [range(n)] whose estimate is finite. *)
Definition fin (n : Z) (g : globals) (v : Z) : Prop :=
  in_range n v /\ d_hat_get g v <> Inf.

(** The three dictionaries have the keys of [range(n)]; every estimate is
    that of a walk; only the source and the vertices still at infinity have
    the predecessor [None]; the source keeps its distance, its edge count 0
    and its predecessor [None]. *)
Definition wf_state (n source : Z) (graph : Graph) (g : globals) : Prop :=
  (forall v, in_range n v ->
             d_hat g !! v <> None /\ path_alpha g !! v <> None /\ pred g !! v <> None)
  /\ (forall u, reached_by_walk graph source u (d_hat_get g u) (path_alpha_get g u))
  /\ (forall v, pred g !! v = Some None -> v = source \/ d_hat_get g v = Inf)
  /\ (num_le (d_hat_get g source) zero /\ path_alpha_get g source = AFin 0
      /\ pred g !! source = Some None)
  /\ 0 <= k_param g.

(** [g'] is a later state of the same solve. *)
Definition extends (n source : Z) (graph : Graph) (g g' : globals) : Prop :=
  wf_state n source graph g'
  /\ (forall v, fin n g v -> fin n g' v)
  /\ same_params g g'.

(** No bucket holds a key other than the source with the predecessor
    [None]. *)
Definition only_source_without_pred (source : Z) (v2k : list (num * D.bucket)) : Prop :=
  forall v b key a, In (v, b) v2k -> In (key, (a, None)) b -> key = source.

(** The frontier of a frame: well formed, its keys finite vertices, and no
    key but the source stored with the predecessor [None]. *)
Definition frontier_ok (n source : Z) (g : globals) (d : D.t) : Prop :=
  frontier_inv d
  /\ (forall key v, D._key_to_value d !! key = Some v -> fin n g key)
  /\ only_source_without_pred source (D._value_to_keys d).

(** The decision the three relaxation sites share, for the candidate
    [(new_dist, new_alpha, u)] against the triple of [v]. *)
Definition relax_decision (g : globals) (new_dist : num) (new_alpha : alpha) (u v : Z)
  : result bool :=
  if num_ltb new_dist (d_hat_get g v) then Ok true
  else if num_eqb new_dist (d_hat_get g v) then
    if alpha_ltb new_alpha (path_alpha_get g v) then Ok true
    else if alpha_eqb new_alpha (path_alpha_get g v) then lt_pred_get g u v
    else Ok false
  else Ok false.

(** An estimate [d] with the edge count [a] that a heap entry or a frontier
    item carries for the vertex [u]: [u] has a finite estimate in the state,
    and [d] and [a] are those of a walk. *)
Definition walk_estimate (n source : Z) (graph : Graph) (g : globals)
  (u : Z) (d : num) (a : alpha) : Prop :=
  fin n g u /\ exists q k, d = Fin q /\ a = AFin k /\ walk graph source u q k.

(** ** Two small inputs *)

(** The path 0 -> 1 -> 2 -> 3 with unit weights. *)
Definition chain_of_four : list (Z * Z * Q) := [(0, 1, 1%Q); (1, 2, 1%Q); (2, 3, 1%Q)].

(** The path 0 -> 1 -> 2 -> 3 -> 4 with unit weights and a direct edge
    0 -> 4 of weight 5. *)
Definition chain_with_shortcut : list (Z * Z * Q) :=
  [(0, 1, 1%Q); (1, 2, 1%Q); (2, 3, 1%Q); (3, 4, 1%Q); (0, 4, 5%Q)].

(** * Properties *)

(** ** The derived parameters at small sizes *)

Lemma ln2_pos : (0 < ln 2)%R.
Proof. rewrite <- ln_1. apply ln_increasing; lra. Qed.


Lemma math_log2_4 : math_log2 4 = 2%R.
Proof.
  unfold math_log2. pose proof ln2_pos.
  replace (IZR 4) with (2 * 2)%R by lra.
  rewrite ln_mult by lra. field. lra.
Qed.

Lemma math_log2_8 : math_log2 8 = 3%R.
Proof.
  unfold math_log2. pose proof ln2_pos.
  replace (IZR 8) with (2 * (2 * 2))%R by lra.
  rewrite !ln_mult by lra. field. lra.
Qed.

(** [x ** e] lies in [[1, x)] for [x > 1] and [0 <= e < 1]. *)
Lemma Rpower_between (x e : R) :
  (1 < x)%R -> (0 <= e < 1)%R -> (1 <= Rpower x e < x)%R.
Proof.
  intros Hx [He0 He1]. split.
  - rewrite <- (Rpower_O x) by lra. apply Rle_Rpower; lra.
  - rewrite <- (Rpower_1 x) at 2 by lra. apply Rpower_lt; lra.
Qed.

Lemma cube_root_8 : Rpower 8 (1 / 3) = 2%R.
Proof.
  replace 8%R with (Rpower 2 3).
  - rewrite Rpower_mult. replace (3 * (1 / 3))%R with 1%R by field.
    apply Rpower_1. lra.
  - replace 3%R with (INR 3) by (simpl; lra). rewrite Rpower_pow by lra. simpl. lra.
Qed.




Lemma derive_k_param_4 : derive_k_param 4 = 1.
Proof.
  unfold derive_k_param. rewrite math_log2_4.
  rewrite (Zfloor_eq 1); [reflexivity|].
  pose proof (Rpower_between 2 (1 / 3)). lra.
Qed.

Lemma derive_t_param_4 : derive_t_param 4 = 1.
Proof.
  unfold derive_t_param. rewrite math_log2_4.
  rewrite (Zfloor_eq 1); [reflexivity|].
  pose proof (Rpower_between 2 (2 / 3)). lra.
Qed.

Lemma derive_k_param_8 : derive_k_param 8 = 1.
Proof.
  unfold derive_k_param. rewrite math_log2_8.
  rewrite (Zfloor_eq 1); [reflexivity|].
  pose proof (Rpower_between 3 (1 / 3)).
  assert (Rpower 3 (1 / 3) < 2)%R; [|lra].
  rewrite <- cube_root_8. apply Rlt_Rpower_l; lra.
Qed.

Lemma derive_t_param_8 : derive_t_param 8 = 2.
Proof.
  unfold derive_t_param. rewrite math_log2_8.
  rewrite (Zfloor_eq 2); [reflexivity|].
  pose proof (Rpower_between 3 (2 / 3)).
  assert (Rpower 3 (2 / 3) = Rpower 9 (1 / 3)) as Heq.
  { replace (2 / 3)%R with (INR 2 * (1 / 3))%R by (simpl; field).
    rewrite <- Rpower_mult, Rpower_pow by lra. f_equal. simpl. lra. }
  assert (Rpower 8 (1 / 3) < Rpower 9 (1 / 3))%R by (apply Rlt_Rpower_l; lra).
  rewrite cube_root_8 in *. lra.
Qed.


Lemma derive_l_max_level_4 : derive_l_max_level 4 1 = 2.
Proof.
  unfold derive_l_max_level. simpl. rewrite math_log2_4.
  unfold Zceil. rewrite (Zfloor_eq (-2)); [reflexivity|]. lra.
Qed.

Lemma derive_l_max_level_8 : derive_l_max_level 8 2 = 2.
Proof.
  unfold derive_l_max_level. simpl. rewrite math_log2_8.
  unfold Zceil. rewrite (Zfloor_eq (-2)); [reflexivity|]. lra.
Qed.

(** A solve on four vertices runs [BMSSP] from level 2 with [k = t = 1]. *)
Lemma solve_4 g0 m_val edges source :
  solve_sssp_directed_real_weights g0 4 m_val edges source
  = run_BMSSP g0 4 source 1 1 2 (build_graph edges).
Proof.
  unfold solve_sssp_directed_real_weights.
  change (Z.max 2 4) with 4.
  rewrite derive_k_param_4, derive_t_param_4, derive_l_max_level_4. reflexivity.
Qed.

(** A solve on eight vertices runs it from level 2 with [k = 1], [t = 2]. *)
Lemma solve_8 g0 m_val edges source :
  solve_sssp_directed_real_weights g0 8 m_val edges source
  = run_BMSSP g0 8 source 1 2 2 (build_graph edges).
Proof.
  unfold solve_sssp_directed_real_weights.
  change (Z.max 2 8) with 8.
  rewrite derive_k_param_8, derive_t_param_8, derive_l_max_level_8. reflexivity.
Qed.

(** ** What a solve returns on the two small inputs *)

(** C8: on the unit-weight path 0 -> 1 -> 2 -> 3 with four vertices and
    source 0, the solve returns the distances of 0, 1 and 2 only: vertex 2 has
    the finite distance 2 and the edge (2, 3, 1) exists, yet vertex 3 is absent
    from the map, so its estimate is infinite and exceeds 2 + 1. *)
Theorem solve_chain_of_four_misses_vertex_3 (g0 : globals) :
  distances_of (solve_sssp_directed_real_weights g0 4 3 chain_of_four 0)
  = Ok [(0, Fin 0); (1, Fin 1); (2, Fin 2)].
Proof. rewrite solve_4. vm_compute. reflexivity. Qed.

(** C1: on eight vertices with the unit-weight path 0 -> 1 -> 2 -> 3 -> 4, the
    edge (0, 4, 5) and source 0, the solve returns distance 5 for vertex 4,
    whereas the reference Dijkstra returns 4; the two differ by more than
    1e-9. *)
Theorem solve_chain_with_shortcut_returns_wrong_distance (g0 : globals) :
  distances_of (solve_sssp_directed_real_weights g0 8 5 chain_with_shortcut 0)
  = Ok [(0, Fin 0); (1, Fin 1); (2, Fin 2); (3, Fin 3); (4, Fin 5)]
  /\ (exists dist, dijkstra_single_source (build_graph chain_with_shortcut) 8 0 = Some dist
                  /\ dist !! 4 = Some 4%Q)
  /\ (4 + (1 # 1000000000) < 5)%Q.
Proof.
  split; [rewrite solve_8; vm_compute; reflexivity|].
  split; [|reflexivity].
  eexists. split; [vm_compute; reflexivity|]. vm_compute. reflexivity.
Qed.

(** ** C3: the acceptance rule at the three relaxation sites *)

Lemma lt_pred_get_predecessor g u v b :
  lt_pred_get g u v = Ok b ->
  b = match predecessor g v with Some p => u <? p | None => true end.
Proof.
  unfold lt_pred_get, predecessor.
  destruct (pred g !! v) as [[p|]|]; intros H; inversion H; reflexivity.
Qed.

Lemma update_needed_lex_smaller g u v new_dist new_alpha b :
  (if num_ltb new_dist (d_hat_get g v) then Ok true
   else if num_eqb new_dist (d_hat_get g v) then
     if alpha_ltb new_alpha (path_alpha_get g v) then Ok true
     else if alpha_eqb new_alpha (path_alpha_get g v) then lt_pred_get g u v
     else Ok false
   else Ok false) = Ok b ->
  b = lex_smaller new_dist new_alpha u (d_hat_get g v) (path_alpha_get g v)
                  (predecessor g v).
Proof.
  unfold lex_smaller.
  destruct (num_ltb new_dist (d_hat_get g v)); [intros H; inversion H; reflexivity|].
  destruct (num_eqb new_dist (d_hat_get g v)); [|intros H; inversion H; reflexivity].
  destruct (alpha_ltb new_alpha (path_alpha_get g v));
    [intros H; inversion H; reflexivity|].
  destruct (alpha_eqb new_alpha (path_alpha_get g v));
    [|intros H; inversion H; reflexivity].
  intros H. apply lt_pred_get_predecessor in H. simpl. exact H.
Qed.

Lemma subscript_Ok {V : Type} (d : gmap Z V) key v :
  subscript d key = Ok v -> d !! key = Some v.
Proof. unfold subscript. destruct (d !! key); intros H; inversion H; reflexivity. Qed.

(** C3, as the code has it: wherever a site reaches a decision, [FindPivots]
    and the post-recursion relaxation of [BMSSP] accept exactly when
    (d_hat[u] + w, path_alpha[u] + 1, u) is lexicographically below the triple
    of [v], and they are the same function; [BaseCase] applies the same
    comparison to the distance and path length of the popped heap entry, and
    accepts only if in addition the new distance is below its bound [B]. *)
Theorem relaxation_rule_at_the_three_sites (g : globals) (u v : Z) (w : Q) :
  FindPivots_accepts g u v w = BMSSP_accepts g u v w
  /\ (forall b, FindPivots_accepts g u v w = Ok b ->
                b = spec_accepts g (d_hat_get g u) (path_alpha_get g u) u v w)
  /\ (forall B current_d current_alpha b,
         BaseCase_accepts B g current_d current_alpha u v w = Ok b ->
         b = num_ltb (num_add current_d (Fin w)) B
             && spec_accepts g current_d current_alpha u v w).
Proof.
  split; [reflexivity|]. split.
  - intros b. unfold FindPivots_accepts, spec_accepts.
    destruct (subscript (d_hat g) u) as [d_u|] eqn:Hd; [|discriminate].
    destruct (subscript (path_alpha g) u) as [a_u|] eqn:Ha; [|discriminate].
    apply subscript_Ok in Hd, Ha.
    assert (d_hat_get g u = d_u) as -> by (unfold d_hat_get; rewrite Hd; reflexivity).
    assert (path_alpha_get g u = a_u) as ->
        by (unfold path_alpha_get; rewrite Ha; reflexivity).
    simpl. apply update_needed_lex_smaller.
  - intros B current_d current_alpha b. unfold BaseCase_accepts, spec_accepts.
    destruct (num_ltb (num_add current_d (Fin w)) B).
    + simpl. apply update_needed_lex_smaller.
    + intros H. inversion H. reflexivity.
Qed.

Lemma relaxation_rule_at_the_three_sites_witness :
  FindPivots_accepts (initial_globals fresh_globals 2 0 1 1) 0 1 5 = Ok true
  /\ true = spec_accepts (initial_globals fresh_globals 2 0 1 1) zero (AFin 0) 0 1 5.
Proof.
  split; [reflexivity|].
  exact (proj1 (proj2 (relaxation_rule_at_the_three_sites
                         (initial_globals fresh_globals 2 0 1 1) 0 1 5))
               true eq_refl).
Defined.

(** C3 as stated fails at [BaseCase]: with bound 1, the edge (0, 1) of weight 5
    offers (5, 1, 0), which is below the triple (inf, inf, none) of the
    unreached vertex 1 and is accepted by [FindPivots], yet [BaseCase]
    rejects it. *)
Lemma BaseCase_rejects_a_lexicographically_smaller_triple :
  let g := initial_globals fresh_globals 2 0 1 1 in
  spec_accepts g zero (AFin 0) 0 1 5 = true
  /\ FindPivots_accepts g 0 1 5 = Ok true
  /\ BaseCase_accepts (Fin 1) g zero (AFin 0) 0 1 5 = Ok false.
Proof. repeat split. Qed.

(** ** C4: where the post-recursion relaxation puts an updated neighbour *)

Lemma BMSSP_relax_inserts B Bi B_prime_i u g d K v w g' d' K' :
  BMSSP_relax B Bi B_prime_i u (g, d, K) (v, w) = Ok (g', d', K') ->
  K' = K
  /\ ((BMSSP_accepts g u v w = Ok true
       /\ g' = set_vertex g v (num_add (d_hat_get g u) (Fin w))
                          (alpha_succ (path_alpha_get g u)) u
       /\ D.Insert d v (num_add (d_hat_get g u) (Fin w))
                   (alpha_succ (path_alpha_get g u)) (Some u) = Ok d')
      \/ (BMSSP_accepts g u v w = Ok false /\ g' = g /\ d' = d)).
Proof.
  unfold BMSSP_relax.
  destruct (BMSSP_accepts g u v w) as [[|]|e]; simpl; [| |discriminate].
  - destruct (D.Insert d v _ _ _) as [d1|e] eqn:Hins; simpl; [|discriminate].
    intros H. inversion H. subst. split; [reflexivity|]. left. auto.
  - intros H. inversion H. subst. split; [reflexivity|]. right. auto.
Qed.

Lemma for_each_invariant {A S : Type} (P : S -> Prop) (body : S -> A -> result S)
  (l : list A) :
  (forall s a s', P s -> body s a = Ok s' -> P s') ->
  forall s s', P s -> for_each l body s = Ok s' -> P s'.
Proof.
  intros Hbody. induction l as [|a l IH]; intros s s' Hs; simpl.
  - intros H. inversion H. subst. exact Hs.
  - destruct (body s a) as [s1|e] eqn:Hb; simpl; [|discriminate].
    apply IH. eapply Hbody; eauto.
Qed.

(** C4, as the code has it: with the flags as the module sets them, every
    neighbour whose update is accepted is inserted into the frontier of the
    level at once, whatever its new distance, and a rejected one leaves the
    frontier alone; step 5 queues nothing for batch-prepend. *)
Theorem updated_neighbors_are_inserted_directly
  (graph : Graph) (B Bi B_prime_i : num) (Ui : pyset) (g : globals) (d : D.t)
  (g' : globals) (d' : D.t) (K_batch_prepend : list D.item) :
  relax_completed graph B Bi B_prime_i Ui g d = Ok (g', d', K_batch_prepend) ->
  K_batch_prepend = []
  /\ forall u g1 d1 K1 v w g2 d2 K2,
       BMSSP_relax B Bi B_prime_i u (g1, d1, K1) (v, w) = Ok (g2, d2, K2) ->
       K2 = K1
       /\ (BMSSP_accepts g1 u v w = Ok true ->
           D.Insert d1 v (num_add (d_hat_get g1 u) (Fin w))
                    (alpha_succ (path_alpha_get g1 u)) (Some u) = Ok d2)
       /\ (BMSSP_accepts g1 u v w = Ok false -> d2 = d1).
Proof.
  intros Hrun. split.
  - unfold relax_completed in Hrun.
    change (snd (g', d', K_batch_prepend) = []).
    refine (for_each_invariant (fun st : globals * D.t * list D.item => snd st = [])
                               _ _ _ _ _ _ Hrun); [|reflexivity].
    intros [[g1 d1] K1] u [[g2 d2] K2] HK Hbody.
    destruct (graph !! u) as [edges|]; [|inversion Hbody; subst; exact HK].
    refine (for_each_invariant (fun st : globals * D.t * list D.item => snd st = [])
                               _ _ _ _ _ _ Hbody); [|exact HK].
    intros [[g3 d3] K3] [v w] [[g4 d4] K4] HK3 Hrelax.
    apply BMSSP_relax_inserts in Hrelax. destruct Hrelax as [-> _]. exact HK3.
  - intros u g1 d1 K1 v w g2 d2 K2 Hrelax.
    apply BMSSP_relax_inserts in Hrelax.
    destruct Hrelax as [-> [(Hacc & _ & Hins)|(Hacc & _ & ->)]].
    + split; [reflexivity|]. split; [intros _; exact Hins|].
      rewrite Hacc. discriminate.
    + split; [reflexivity|]. split; [rewrite Hacc; discriminate|reflexivity].
Qed.

Lemma updated_neighbors_are_inserted_directly_witness :
  match relax_completed {[0 := [(1, 1%Q)]]} Inf (Fin 10) (Fin 0) [0]
                        (initial_globals fresh_globals 2 0 1 1) (D.init 64 Inf) with
  | Ok (_, _, K_batch_prepend) => K_batch_prepend = []
  | Raise _ => False
  end.
Proof.
  destruct (relax_completed {[0 := [(1, 1%Q)]]} Inf (Fin 10) (Fin 0) [0]
              (initial_globals fresh_globals 2 0 1 1) (D.init 64 Inf))
    as [[[g' d'] K]|e] eqn:Hrun.
  - exact (proj1 (updated_neighbors_are_inserted_directly _ _ _ _ _ _ _ _ _ _ Hrun)).
  - vm_compute in Hrun. discriminate Hrun.
Defined.

(** C4 as stated fails: with [B] infinite, [Bi = 10] and [B'_i = 0], the edge
    (0, 1) of weight 1 gives vertex 1 the accepted distance 1, which lies in
    [[B'_i, Bi)]; it is not queued for batch-prepend but inserted into the
    frontier. *)
Lemma neighbor_below_Bi_is_inserted_not_queued :
  num_leb (Fin 0) (Fin 1) && num_ltb (Fin 1) (Fin 10) = true
  /\ match BMSSP_relax Inf (Fin 10) (Fin 0) 0
             (initial_globals fresh_globals 2 0 1 1, D.init 64 Inf, []) (1, 1%Q) with
     | Ok (g', d', K_batch_prepend) =>
       K_batch_prepend = []
       /\ D._key_to_value d' !! 1 = Some (Fin (0 + 1))
       /\ d_hat g' !! 1 = Some (Fin (0 + 1))
     | Raise _ => False
     end.
Proof. vm_compute. repeat split. Qed.

(** ** C9: the derived parameters and the capacity of a frontier *)




(** ** C10: a solve does not depend on the module state it finds *)

Lemma elem_of_range (n v : Z) : v ∈ range n <-> 0 <= v < n.
Proof.
  unfold range. rewrite list_elem_of_In, in_map_iff. split.
  - intros (i & <- & Hi). apply in_seq in Hi. lia.
  - intros Hv. exists (Z.to_nat v). split; [lia|]. apply in_seq. lia.
Qed.

Lemma lookup_fill {V : Type} (x : V) (l : list Z) (m : gmap Z V) (v : Z) :
  fold_left (fun d i => <[i := x]> d) l m !! v
  = if decide (v ∈ l) then Some x else m !! v.
Proof.
  revert m. induction l as [|a l IH]; intros m; simpl.
  - destruct (decide (v ∈ [])) as [H|H]; [inversion H|reflexivity].
  - rewrite IH. destruct (decide (v ∈ l)) as [Hin|Hin].
    + rewrite decide_True by (right; exact Hin). reflexivity.
    + destruct (decide (v = a)) as [->|Hne].
      * rewrite decide_True by left. apply lookup_insert_eq.
      * rewrite decide_False by (intros H; inversion H; subst; tauto).
        apply lookup_insert_ne. congruence.
Qed.


(** ** Sets as increasing lists *)

Lemma set_mem_In (x : Z) (s : pyset) : set_mem x s = true <-> In x s.
Proof.
  unfold set_mem. rewrite existsb_exists. split.
  - intros (y & Hy & Heq). apply Z.eqb_eq in Heq. subst. exact Hy.
  - intros H. exists x. split; [exact H | apply Z.eqb_refl].
Qed.

Lemma set_mem_false (x : Z) (s : pyset) : set_mem x s = false <-> ~ In x s.
Proof.
  rewrite <- set_mem_In. destruct (set_mem x s); split; congruence.
Qed.

Lemma set_add_In (x y : Z) (s : pyset) : In y (set_add x s) <-> y = x \/ In y s.
Proof.
  induction s as [|z s IH]; simpl.
  - intuition.
  - destruct (x <? z); [simpl; intuition|].
    destruct (x =? z) eqn:Heq.
    + apply Z.eqb_eq in Heq. subst. simpl. intuition.
    + simpl. rewrite IH. intuition.
Qed.

Lemma set_add_fresh (x : Z) (s : pyset) :
  ~ In x s -> Permutation (set_add x s) (x :: s).
Proof.
  induction s as [|z s IH]; simpl; intros Hx.
  - reflexivity.
  - destruct (x <? z); [reflexivity|].
    destruct (x =? z) eqn:Heq.
    + apply Z.eqb_eq in Heq. subst. tauto.
    + rewrite IH by tauto. apply perm_swap.
Qed.

Lemma set_add_length (x : Z) (s : pyset) :
  (length (set_add x s) <= S (length s))%nat.
Proof.
  induction s as [|z s IH]; simpl; [lia|].
  destruct (x <? z); [simpl; lia|]. destruct (x =? z); simpl; lia.
Qed.

Lemma set_update_In (s : pyset) (l : list Z) (y : Z) :
  In y (set_update s l) <-> In y l \/ In y s.
Proof.
  unfold set_update. revert s. induction l as [|x l IH]; intros s; simpl.
  - tauto.
  - rewrite IH, set_add_In. intuition.
Qed.

Lemma set_update_length (s : pyset) (l : list Z) :
  (length (set_update s l) <= length l + length s)%nat.
Proof.
  unfold set_update. revert s. induction l as [|x l IH]; intros s; simpl; [lia|].
  pose proof (IH (set_add x s)). pose proof (set_add_length x s). lia.
Qed.

Lemma set_of_list_In (l : list Z) (y : Z) : In y (set_of_list l) <-> In y l.
Proof.
  change (set_of_list l) with (set_update [] l). rewrite set_update_In. simpl. tauto.
Qed.

Lemma set_of_list_length (l : list Z) : (length (set_of_list l) <= length l)%nat.
Proof.
  change (set_of_list l) with (set_update [] l).
  pose proof (set_update_length [] l). simpl in *. lia.
Qed.

(** ** The order on numbers *)

Lemma num_ltb_lt a b : num_ltb a b = true <-> num_lt a b.
Proof.
  destruct a as [x|], b as [y|]; simpl; try tauto; try (split; [discriminate|tauto]).
  rewrite negb_true_iff. split.
  - intros H. destruct (Qlt_le_dec x y) as [Hlt|Hle]; [exact Hlt|].
    apply Qle_bool_iff in Hle. congruence.
  - intros H. destruct (Qle_bool y x) eqn:Hle; [|reflexivity].
    apply Qle_bool_iff in Hle. lra.
Qed.

Lemma num_eqb_eqv a b : num_eqb a b = true <-> num_eqv a b.
Proof.
  destruct a as [x|], b as [y|]; simpl; try tauto; try (split; [discriminate|tauto]).
  apply Qeq_bool_iff.
Qed.

Lemma num_leb_le a b : num_leb a b = true <-> num_le a b.
Proof.
  unfold num_leb. rewrite orb_true_iff, num_ltb_lt, num_eqb_eqv.
  destruct a as [x|], b as [y|]; simpl; try tauto. lra.
Qed.

Lemma num_ltb_ge a b : num_ltb a b = false <-> num_le b a.
Proof.
  destruct a as [x|], b as [y|]; simpl.
  - rewrite negb_false_iff. apply Qle_bool_iff.
  - split; [discriminate|tauto].
  - tauto.
  - tauto.
Qed.

Lemma num_le_refl a : num_le a a.
Proof. destruct a; simpl; [lra|exact I]. Qed.

Lemma num_le_trans a b c : num_le a b -> num_le b c -> num_le a c.
Proof. destruct a, b, c; simpl; try tauto. lra. Qed.

Lemma num_lt_le a b : num_lt a b -> num_le a b.
Proof. destruct a, b; simpl; try tauto. lra. Qed.

Lemma num_lt_irrefl a : ~ num_lt a a.
Proof. destruct a; simpl; [lra|tauto]. Qed.

Lemma num_lt_le_trans a b c : num_lt a b -> num_le b c -> num_lt a c.
Proof. destruct a, b, c; simpl; try tauto. lra. Qed.

Lemma num_le_lt_trans a b c : num_le a b -> num_lt b c -> num_lt a c.
Proof. destruct a, b, c; simpl; try tauto. lra. Qed.

Lemma num_eqv_le a b : num_eqv a b -> num_le a b.
Proof. destruct a, b; simpl; try tauto. lra. Qed.

Lemma num_eqv_sym a b : num_eqv a b -> num_eqv b a.
Proof. destruct a, b; simpl; try tauto. lra. Qed.

Lemma num_eqv_refl a : num_eqv a a.
Proof. destruct a; simpl; [lra|exact I]. Qed.

Lemma num_eqv_trans a b c : num_eqv a b -> num_eqv b c -> num_eqv a c.
Proof. destruct a, b, c; simpl; try tauto. lra. Qed.

Lemma num_le_antisym a b : num_le a b -> num_le b a -> num_eqv a b.
Proof. destruct a, b; simpl; try tauto. lra. Qed.

Lemma num_lt_add_eps a : a <> Inf -> num_lt a (num_add a eps12).
Proof. destruct a as [x|]; [|congruence]. intros _. simpl. lra. Qed.

(** ** Sorting *)

Lemma insort_Permutation (l : list num) (v : num) : Permutation (insort l v) (v :: l).
Proof.
  induction l as [|a l IH]; simpl; [reflexivity|].
  destruct (num_ltb v a); [reflexivity|].
  rewrite IH. apply perm_swap.
Qed.

Lemma insort_sorted (l : list num) (v : num) :
  StronglySorted num_le l -> StronglySorted num_le (insort l v).
Proof.
  induction l as [|a l IH]; simpl; intros Hs.
  - repeat constructor.
  - inversion Hs as [|? ? Hs' Hall]. subst.
    destruct (num_ltb v a) eqn:Hlt.
    + apply num_ltb_lt, num_lt_le in Hlt. constructor; [exact Hs|].
      constructor; [exact Hlt|].
      eapply Forall_impl; [exact Hall|]. intros b Hb. eapply num_le_trans; eauto.
    + apply num_ltb_ge in Hlt. constructor; [apply IH; exact Hs'|].
      eapply Permutation_Forall; [symmetry; apply insort_Permutation|].
      constructor; assumption.
Qed.

Lemma fold_insort_Permutation (l acc : list num) :
  Permutation (fold_left insort l acc) (l ++ acc).
Proof.
  revert acc. induction l as [|a l IH]; intros acc; simpl; [reflexivity|].
  rewrite IH, insort_Permutation. symmetry. apply Permutation_middle.
Qed.

Lemma sorted_Permutation (l : list num) : Permutation (sorted l) l.
Proof. unfold sorted. rewrite fold_insort_Permutation, app_nil_r. reflexivity. Qed.

Lemma sorted_ascending (l : list num) : StronglySorted num_le (sorted l).
Proof.
  unfold sorted. assert (StronglySorted num_le []) as Hacc by constructor.
  revert Hacc. generalize (@nil num). induction l as [|a l IH]; intros acc Hacc; simpl.
  - exact Hacc.
  - apply IH, insort_sorted, Hacc.
Qed.

(** ** Insertion-ordered dictionaries keyed by vertex ids *)

Lemma dict_set_fresh {V : Type} (d : list (Z * V)) (key : Z) (v : V) :
  ~ In key (map fst d) -> dict_set Z.eqb d key v = d ++ [(key, v)].
Proof.
  induction d as [|[k' v'] d IH]; simpl; intros Hk; [reflexivity|].
  destruct (key =? k') eqn:Heq.
  - apply Z.eqb_eq in Heq. subst. tauto.
  - rewrite IH by tauto. reflexivity.
Qed.

(** ** C2: the boundary returned by Pull *)

(** *** Insertion-ordered dictionaries under an equivalence on keys *)

Section DictLemmas.
Context {K V : Type} (eqb : K -> K -> bool).
Hypothesis eqb_refl : forall k, eqb k k = true.
Hypothesis eqb_sym : forall k k', eqb k k' = eqb k' k.
Hypothesis eqb_trans : forall k1 k2 k3, eqb k1 k2 = true -> eqb k2 k3 = true -> eqb k1 k3 = true.

Lemma eqb_congr k k' x : eqb k k' = true -> eqb k x = eqb k' x.
Proof.
  intros H. destruct (eqb k' x) eqn:E.
  - eapply eqb_trans; eauto.
  - destruct (eqb k x) eqn:E'; [|reflexivity].
    rewrite eqb_sym in H. rewrite <- E. symmetry. eapply eqb_trans; eauto.
Qed.

Lemma dict_get_congr (d : list (K * V)) k k' :
  eqb k k' = true -> dict_get eqb d k = dict_get eqb d k'.
Proof.
  intros H. induction d as [|[k0 v0] d IH]; simpl; [reflexivity|].
  rewrite (eqb_congr k k' k0 H), IH. reflexivity.
Qed.

Lemma dict_get_set_same (d : list (K * V)) k v k' :
  eqb k' k = true -> dict_get eqb (dict_set eqb d k v) k' = Some v.
Proof.
  intros H. induction d as [|[k0 v0] d IH]; simpl.
  - rewrite H. reflexivity.
  - destruct (eqb k k0) eqn:E; simpl.
    + rewrite (eqb_trans k' k k0 H E). reflexivity.
    + rewrite (eqb_congr k' k k0 H), E. exact IH.
Qed.

Lemma dict_get_set_other (d : list (K * V)) k v k' :
  eqb k' k = false -> dict_get eqb (dict_set eqb d k v) k' = dict_get eqb d k'.
Proof.
  intros H. induction d as [|[k0 v0] d IH]; simpl.
  - rewrite H. reflexivity.
  - destruct (eqb k k0) eqn:E; simpl.
    + destruct (eqb k' k0) eqn:E'; [|reflexivity].
      rewrite (eqb_sym k k0) in E. rewrite (eqb_trans k' k0 k E' E) in H. discriminate.
    + rewrite IH. reflexivity.
Qed.

Lemma dict_get_del_other (d : list (K * V)) k k' :
  eqb k' k = false -> dict_get eqb (dict_del eqb d k) k' = dict_get eqb d k'.
Proof.
  intros H. induction d as [|[k0 v0] d IH]; simpl; [reflexivity|].
  destruct (eqb k k0) eqn:E; simpl.
  - destruct (eqb k' k0) eqn:E'; [|reflexivity].
    rewrite (eqb_sym k k0) in E. rewrite (eqb_trans k' k0 k E' E) in H. discriminate.
  - rewrite IH. reflexivity.
Qed.

Lemma dict_get_del_same (d : list (K * V)) k k' :
  dict_unique eqb d -> eqb k' k = true -> dict_get eqb (dict_del eqb d k) k' = None.
Proof.
  intros Hu H. induction d as [|[k0 v0] d IH]; simpl; [reflexivity|].
  destruct Hu as [Hk0 Hu]. destruct (eqb k k0) eqn:E; simpl.
  - rewrite (dict_get_congr d k' k0); [exact Hk0|]. eapply eqb_trans; eauto.
  - rewrite (eqb_congr k' k k0 H), E. apply IH. exact Hu.
Qed.

Lemma dict_unique_set (d : list (K * V)) k v :
  dict_unique eqb d -> dict_unique eqb (dict_set eqb d k v).
Proof.
  induction d as [|[k0 v0] d IH]; simpl; [auto|].
  intros [Hk0 Hu]. destruct (eqb k k0) eqn:E; simpl.
  - auto.
  - split; [|auto]. rewrite dict_get_set_other; [exact Hk0|].
    rewrite eqb_sym. exact E.
Qed.

Lemma dict_unique_del (d : list (K * V)) k :
  dict_unique eqb d -> dict_unique eqb (dict_del eqb d k).
Proof.
  induction d as [|[k0 v0] d IH]; simpl; [auto|].
  intros [Hk0 Hu]. destruct (eqb k k0) eqn:E; simpl; [exact Hu|].
  split; [|auto]. rewrite dict_get_del_other; [exact Hk0|].
  rewrite eqb_sym. exact E.
Qed.

Lemma dict_mem_get (d : list (K * V)) k :
  dict_mem eqb d k = true <-> exists v, dict_get eqb d k = Some v.
Proof.
  unfold dict_mem. destruct (dict_get eqb d k); split; eauto; try discriminate.
  intros [v H]. discriminate.
Qed.

Lemma dict_get_In (d : list (K * V)) k v :
  dict_get eqb d k = Some v -> exists k0, In (k0, v) d /\ eqb k k0 = true.
Proof.
  induction d as [|[k0 v0] d IH]; simpl; [discriminate|].
  destruct (eqb k k0) eqn:E.
  - intros H. inversion H. subst. exists k0. auto.
  - intros H. destruct (IH H) as (k1 & Hin & Hk1). exists k1. auto.
Qed.

Lemma dict_In_get (d : list (K * V)) k0 v :
  In (k0, v) d -> exists v', dict_get eqb d k0 = Some v'.
Proof.
  induction d as [|[k1 v1] d IH]; simpl; [tauto|].
  intros [H|H].
  - inversion H. subst. rewrite eqb_refl. eauto.
  - destruct (eqb k0 k1); eauto.
Qed.
End DictLemmas.

Lemma num_eqb_refl a : num_eqb a a = true.
Proof. apply num_eqb_eqv, num_eqv_refl. Qed.

Lemma num_eqb_sym a b : num_eqb a b = num_eqb b a.
Proof.
  destruct (num_eqb b a) eqn:E.
  - apply num_eqb_eqv, num_eqv_sym, num_eqb_eqv, E.
  - destruct (num_eqb a b) eqn:E'; [|reflexivity].
    apply num_eqb_eqv, num_eqv_sym, num_eqb_eqv in E'. congruence.
Qed.

Lemma num_eqb_trans a b c : num_eqb a b = true -> num_eqb b c = true -> num_eqb a c = true.
Proof. rewrite !num_eqb_eqv. apply num_eqv_trans. Qed.

Lemma Z_eqb_trans a b c : (a =? b) = true -> (b =? c) = true -> (a =? c) = true.
Proof. rewrite !Z.eqb_eq. congruence. Qed.

Lemma num_lt_not_eqv a b : num_lt a b -> ~ num_eqv a b.
Proof. destruct a, b; simpl; try tauto. lra. Qed.

Lemma num_lt_not_eqv' a b : num_lt a b -> ~ num_eqv b a.
Proof. destruct a, b; simpl; try tauto. lra. Qed.

Lemma num_eqb_false a b : num_eqb a b = false <-> ~ num_eqv a b.
Proof. rewrite <- num_eqb_eqv. destruct (num_eqb a b); split; congruence. Qed.

Lemma num_lt_trans a b c : num_lt a b -> num_lt b c -> num_lt a c.
Proof. destruct a, b, c; simpl; try tauto. lra. Qed.

Lemma num_eqv_lt_trans a b c : num_eqv a b -> num_lt b c -> num_lt a c.
Proof. destruct a, b, c; simpl; try tauto. lra. Qed.

Lemma num_lt_eqv_trans a b c : num_lt a b -> num_eqv b c -> num_lt a c.
Proof. destruct a, b, c; simpl; try tauto. lra. Qed.

(** Keys of a bucket. *)
Lemma bucket_mem_In {V : Type} (b : list (Z * V)) key :
  dict_mem Z.eqb b key = true <-> In key (map fst b).
Proof.
  unfold dict_mem. induction b as [|[k e] b IH]; simpl; [split; [discriminate|tauto]|].
  destruct (key =? k) eqn:E.
  - apply Z.eqb_eq in E. subst. split; auto.
  - rewrite IH. apply Z.eqb_neq in E. split; [auto|]. intros [H|H]; [congruence|exact H].
Qed.

Lemma bucket_unique_NoDup {V : Type} (b : list (Z * V)) :
  dict_unique Z.eqb b <-> List.NoDup (map fst b).
Proof.
  induction b as [|[k e] b IH]; simpl.
  - split; [constructor|auto].
  - rewrite IH. split.
    + intros [Hk Hnd]. constructor; [|exact Hnd].
      rewrite <- bucket_mem_In. unfold dict_mem. rewrite Hk. discriminate.
    + intros H. inversion H as [|? ? Hk Hnd]. subst. split; [|exact Hnd].
      destruct (dict_get Z.eqb b k) eqn:E; [|reflexivity].
      exfalso. apply Hk, bucket_mem_In. unfold dict_mem. rewrite E. reflexivity.
Qed.

(** *** The loop over one bucket *)

Lemma take_keys_cons M0 v0 key e (b : D.bucket) k2v S_prime pulled :
  D.take_keys M0 v0 (map fst ((key, e) :: b)) ((key, e) :: b, k2v, S_prime, pulled)
  = if len S_prime >=? M0 then ((key, e) :: b, k2v, S_prime, pulled)
    else D.take_keys M0 v0 (map fst b)
           (b, delete key k2v, set_add key S_prime, pulled ++ [v0]).
Proof. simpl. rewrite Z.eqb_refl. reflexivity. Qed.

Lemma take_keys_spec M0 v0 :
  forall (b : D.bucket) k2v S_prime pulled,
    exists taken rest,
      b = taken ++ rest
      /\ D.take_keys M0 v0 (map fst b) (b, k2v, S_prime, pulled)
         = (rest,
            fold_left (fun m key => delete key m) (map fst taken) k2v,
            set_update S_prime (map fst taken),
            pulled ++ map (fun _ => v0) taken)
      /\ (rest = [] \/ M0 <= len (set_update S_prime (map fst taken)))
      /\ (len S_prime <= M0 -> len (set_update S_prime (map fst taken)) <= M0)
      /\ (len S_prime < M0 -> b <> [] -> taken <> []).
Proof.
  induction b as [|[key e] b IH]; intros k2v S_prime pulled.
  - exists [], []. simpl. rewrite app_nil_r. repeat split; auto; try lia.
  - rewrite take_keys_cons.
    destruct (len S_prime >=? M0) eqn:Hfull.
    + exists [], ((key, e) :: b). simpl. rewrite app_nil_r.
      apply Z.geb_le in Hfull. repeat split; auto; try lia.
    + assert (len S_prime < M0) as Hlt.
      { destruct (Z.geb_spec (len S_prime) M0); [discriminate|lia]. }
      destruct (IH (delete key k2v) (set_add key S_prime) (pulled ++ [v0]))
        as (taken & rest & Hb & Hrun & Hstop & Hlen & _).
      exists ((key, e) :: taken), rest. split; [simpl; rewrite Hb; reflexivity|].
      split.
      { rewrite Hrun. cbn [map fst fold_left]. unfold set_update at 2. cbn [fold_left].
        rewrite <- app_assoc. reflexivity. }
      split; [exact Hstop|]. split.
      { intros _. apply Hlen. pose proof (set_add_length key S_prime).
        unfold len in *. lia. }
      intros _ _. discriminate.
Qed.

(** The dictionary lemmas at the two key types in use. *)
Ltac dict_side := first [ apply num_eqb_refl | apply num_eqb_sym | apply num_eqb_trans
                        | apply Z.eqb_refl | apply Z.eqb_sym | apply Z_eqb_trans ].

Lemma v2k_get_congr {V : Type} (d : list (num * V)) k k' :
  num_eqb k k' = true -> dict_get num_eqb d k = dict_get num_eqb d k'.
Proof. apply dict_get_congr; dict_side. Qed.

Lemma v2k_get_set_same {V : Type} (d : list (num * V)) k v k' :
  num_eqb k' k = true -> dict_get num_eqb (dict_set num_eqb d k v) k' = Some v.
Proof. apply dict_get_set_same; dict_side. Qed.

Lemma v2k_get_set_other {V : Type} (d : list (num * V)) k v k' :
  num_eqb k' k = false ->
  dict_get num_eqb (dict_set num_eqb d k v) k' = dict_get num_eqb d k'.
Proof. apply dict_get_set_other; dict_side. Qed.

Lemma v2k_get_del_other {V : Type} (d : list (num * V)) k k' :
  num_eqb k' k = false ->
  dict_get num_eqb (dict_del num_eqb d k) k' = dict_get num_eqb d k'.
Proof. apply dict_get_del_other; dict_side. Qed.

Lemma v2k_get_del_same {V : Type} (d : list (num * V)) k k' :
  dict_unique num_eqb d -> num_eqb k' k = true ->
  dict_get num_eqb (dict_del num_eqb d k) k' = None.
Proof. apply dict_get_del_same; dict_side. Qed.

Lemma v2k_unique_set {V : Type} (d : list (num * V)) k v :
  dict_unique num_eqb d -> dict_unique num_eqb (dict_set num_eqb d k v).
Proof. apply dict_unique_set; dict_side. Qed.

Lemma v2k_unique_del {V : Type} (d : list (num * V)) k :
  dict_unique num_eqb d -> dict_unique num_eqb (dict_del num_eqb d k).
Proof. apply dict_unique_del; dict_side. Qed.

Lemma bucket_get_set_same {V : Type} (d : list (Z * V)) k v :
  dict_get Z.eqb (dict_set Z.eqb d k v) k = Some v.
Proof. apply dict_get_set_same; dict_side. Qed.

Lemma bucket_get_set_other {V : Type} (d : list (Z * V)) k v k' :
  k' <> k -> dict_get Z.eqb (dict_set Z.eqb d k v) k' = dict_get Z.eqb d k'.
Proof. intros Hne. apply dict_get_set_other; [dict_side..|apply Z.eqb_neq, Hne]. Qed.

Lemma bucket_get_del_other {V : Type} (d : list (Z * V)) k k' :
  k' <> k -> dict_get Z.eqb (dict_del Z.eqb d k) k' = dict_get Z.eqb d k'.
Proof. intros Hne. apply dict_get_del_other; [dict_side..|apply Z.eqb_neq, Hne]. Qed.

Lemma bucket_get_del_same {V : Type} (d : list (Z * V)) k :
  dict_unique Z.eqb d -> dict_get Z.eqb (dict_del Z.eqb d k) k = None.
Proof. intros Hu. apply dict_get_del_same; [dict_side..|exact Hu|apply Z.eqb_refl]. Qed.

Lemma bucket_unique_set {V : Type} (d : list (Z * V)) k v :
  dict_unique Z.eqb d -> dict_unique Z.eqb (dict_set Z.eqb d k v).
Proof. apply dict_unique_set; dict_side. Qed.

Lemma bucket_unique_del {V : Type} (d : list (Z * V)) k :
  dict_unique Z.eqb d -> dict_unique Z.eqb (dict_del Z.eqb d k).
Proof. apply dict_unique_del; dict_side. Qed.

Lemma lookup_fold_delete {V : Type} (keys : list Z) (m : gmap Z V) key :
  fold_left (fun m key => delete key m) keys m !! key
  = if set_mem key keys then None else m !! key.
Proof.
  revert m. induction keys as [|k keys IH]; intros m; [reflexivity|].
  cbn [fold_left]. rewrite IH. unfold set_mem. cbn [existsb].
  destruct (existsb (Z.eqb key) keys); [rewrite orb_true_r; reflexivity|].
  rewrite orb_false_r. destruct (key =? k) eqn:E.
  - apply Z.eqb_eq in E. subst. apply lookup_delete_eq.
  - apply Z.eqb_neq in E. apply lookup_delete_ne. congruence.
Qed.

Lemma sorted_head_lt v0 rest w :
  StronglySorted num_lt (v0 :: rest) -> In w rest -> num_lt v0 w.
Proof.
  intros Hs Hw. inversion Hs as [|? ? _ Hall]. subst.
  rewrite List.Forall_forall in Hall. auto.
Qed.

Lemma sorted_head_le v0 rest w :
  StronglySorted num_lt (v0 :: rest) -> In w (v0 :: rest) -> num_le v0 w.
Proof.
  intros Hs [<-|Hw]; [apply num_le_refl|].
  apply num_lt_le. eapply sorted_head_lt; eauto.
Qed.

(** The bucket of the least value has been emptied and dropped. *)
Lemma wf_after_full_bucket v0 rest v2k k2v b :
  frontier_wf (v0 :: rest) v2k k2v ->
  dict_get num_eqb v2k v0 = Some b ->
  frontier_wf rest (dict_del num_eqb v2k v0)
              (fold_left (fun m key => delete key m) (map fst b) k2v).
Proof.
  intros (Hsort & Huniq & Hlisted & Hbucket & Hk2v & Hb2k) Hb.
  assert (forall v, num_eqb v v0 = true -> dict_get num_eqb v2k v = Some b) as Hsame.
  { intros v Hv. rewrite (v2k_get_congr v2k v v0 Hv). exact Hb. }
  assert (forall v bv, dict_get num_eqb (dict_del num_eqb v2k v0) v = Some bv ->
                       num_eqb v v0 = false /\ dict_get num_eqb v2k v = Some bv) as Hdel.
  { intros v bv Hget. destruct (num_eqb v v0) eqn:E.
    - rewrite v2k_get_del_same in Hget by assumption. discriminate.
    - rewrite v2k_get_del_other in Hget by assumption. auto. }
  repeat split.
  - inversion Hsort. assumption.
  - apply v2k_unique_del. exact Huniq.
  - intros v Hv. destruct (Hlisted v) as (bv & Hget & Hne); [right; exact Hv|].
    exists bv. split; [|exact Hne]. rewrite v2k_get_del_other; [exact Hget|].
    apply num_eqb_false. apply num_lt_not_eqv'. eapply sorted_head_lt; eauto.
  - apply Hdel in H. destruct H as [_ H]. apply Hbucket in H. tauto.
  - apply Hdel in H. destruct H as [Hne H]. apply Hbucket in H.
    destruct H as (_ & v' & [<-|Hin] & Heqv); [|eauto].
    apply num_eqb_eqv in Heqv. congruence.
  - intros key v Hlook. rewrite lookup_fold_delete in Hlook.
    destruct (set_mem key (map fst b)) eqn:Hnin; [discriminate|].
    apply set_mem_false in Hnin.
    destruct (Hk2v key v Hlook) as (bv & Hget & Hmem). exists bv. split; [|exact Hmem].
    destruct (num_eqb v v0) eqn:E.
    + exfalso. rewrite (Hsame v E) in Hget. inversion Hget. subst bv.
      apply Hnin, bucket_mem_In. exact Hmem.
    + rewrite v2k_get_del_other by exact E. exact Hget.
  - intros v bv key Hget Hmem. apply Hdel in Hget. destruct Hget as [Hne Hget].
    destruct (Hb2k v bv key Hget Hmem) as (v' & Hlook & Heqv).
    exists v'. split; [|exact Heqv]. rewrite lookup_fold_delete.
    destruct (set_mem key (map fst b)) eqn:Hin; [|exact Hlook].
    exfalso. apply set_mem_In, bucket_mem_In in Hin.
    destruct (Hb2k v0 b key Hb Hin) as (v'' & Hlook' & Heqv').
    rewrite Hlook in Hlook'. inversion Hlook'. subst v''.
    apply num_eqb_false in Hne. apply Hne.
    eapply num_eqv_trans; [apply num_eqv_sym; exact Heqv|exact Heqv'].
Qed.

Lemma bucket_mem_app {V : Type} (b1 b2 : list (Z * V)) key :
  dict_mem Z.eqb (b1 ++ b2) key = true
  <-> In key (map fst b1) \/ dict_mem Z.eqb b2 key = true.
Proof. rewrite !bucket_mem_In, map_app, in_app_iff. tauto. Qed.

Lemma bucket_unique_app {V : Type} (b1 b2 : list (Z * V)) :
  dict_unique Z.eqb (b1 ++ b2) ->
  dict_unique Z.eqb b2
  /\ forall key, In key (map fst b1) -> dict_mem Z.eqb b2 key = true -> False.
Proof.
  rewrite !bucket_unique_NoDup, map_app. intros Hnd. split.
  - eapply List.NoDup_app_remove_l. exact Hnd.
  - intros key H1 H2. apply bucket_mem_In in H2.
    revert Hnd H1 H2. generalize (map fst b1) (map fst b2). clear.
    induction l as [|a l IH]; simpl; intros l0 Hnd H1 H2; [tauto|].
    inversion Hnd as [|? ? Ha Hnd']. subst. destruct H1 as [->|H1].
    + apply Ha, in_app_iff. auto.
    + eapply IH; eauto.
Qed.

(** Keys were taken from the bucket of the least value and some are left. *)
Lemma wf_after_partial_bucket v0 rest v2k k2v (taken rest_b : D.bucket) :
  frontier_wf (v0 :: rest) v2k k2v ->
  dict_get num_eqb v2k v0 = Some (taken ++ rest_b) ->
  rest_b <> [] ->
  frontier_wf (v0 :: rest) (dict_set num_eqb v2k v0 rest_b)
              (fold_left (fun m key => delete key m) (map fst taken) k2v).
Proof.
  intros (Hsort & Huniq & Hlisted & Hbucket & Hk2v & Hb2k) Hb Hne.
  assert (forall v, num_eqb v v0 = true ->
                    dict_get num_eqb v2k v = Some (taken ++ rest_b)) as Hsame.
  { intros v Hv. rewrite (v2k_get_congr v2k v v0 Hv). exact Hb. }
  destruct (Hbucket v0 _ Hb) as [Hub _].
  apply bucket_unique_app in Hub. destruct Hub as [Hurest Hdisj].
  assert (forall v bv, dict_get num_eqb (dict_set num_eqb v2k v0 rest_b) v = Some bv ->
                       (num_eqb v v0 = true /\ bv = rest_b)
                       \/ (num_eqb v v0 = false /\ dict_get num_eqb v2k v = Some bv))
    as Hset.
  { intros v bv Hget. destruct (num_eqb v v0) eqn:E.
    - rewrite v2k_get_set_same in Hget by assumption. inversion Hget. auto.
    - rewrite v2k_get_set_other in Hget by assumption. auto. }
  split; [exact Hsort|]. split; [apply v2k_unique_set; exact Huniq|]. split.
  { intros v Hv. destruct (num_eqb v v0) eqn:E.
    - exists rest_b. split; [apply v2k_get_set_same; exact E|exact Hne].
    - rewrite v2k_get_set_other by exact E. apply Hlisted. exact Hv. }
  split.
  { intros v bv Hget. destruct (Hset v bv Hget) as [[E ->]|[E Hget']].
    - split; [exact Hurest|]. exists v0. split; [left; reflexivity|].
      apply num_eqb_eqv. exact E.
    - apply Hbucket in Hget'. exact Hget'. }
  split.
  { intros key v Hlook. rewrite lookup_fold_delete in Hlook.
    destruct (set_mem key (map fst taken)) eqn:Hnin; [discriminate|].
    apply set_mem_false in Hnin.
    destruct (Hk2v key v Hlook) as (bv & Hget & Hmem).
    destruct (num_eqb v v0) eqn:E.
    - rewrite (Hsame v E) in Hget. inversion Hget. subst bv.
      exists rest_b. split; [apply v2k_get_set_same; exact E|].
      apply bucket_mem_app in Hmem. tauto.
    - exists bv. split; [|exact Hmem]. rewrite v2k_get_set_other by exact E. exact Hget. }
  intros v bv key Hget Hmem.
  assert (dict_mem Z.eqb (taken ++ rest_b) key = true ->
          exists v', k2v !! key = Some v' /\ num_eqv v' v0) as Hin0
      by (apply Hb2k; exact Hb).
  destruct (Hset v bv Hget) as [[E ->]|[E Hget']].
  - destruct Hin0 as (v' & Hlook & Heqv); [apply bucket_mem_app; auto|].
    exists v'. split.
    + rewrite lookup_fold_delete.
      destruct (set_mem key (map fst taken)) eqn:Hin; [|exact Hlook].
      exfalso. apply set_mem_In in Hin. eapply Hdisj; eauto.
    + eapply num_eqv_trans; [exact Heqv|]. apply num_eqv_sym, num_eqb_eqv. exact E.
  - destruct (Hb2k v bv key Hget' Hmem) as (v' & Hlook & Heqv).
    exists v'. split; [|exact Heqv]. rewrite lookup_fold_delete.
    destruct (set_mem key (map fst taken)) eqn:Hin; [|exact Hlook].
    exfalso. apply set_mem_In in Hin.
    destruct Hin0 as (v'' & Hlook' & Heqv'); [apply bucket_mem_app; auto|].
    rewrite Hlook in Hlook'. inversion Hlook'. subst v''.
    apply num_eqb_false in E. apply E.
    eapply num_eqv_trans; [apply num_eqv_sym; exact Heqv|exact Heqv'].
Qed.

Lemma pull_loop_cons M0 v0 rest v2k k2v S_prime pulled :
  D.pull_loop M0 (v0 :: rest) v2k k2v S_prime pulled
  = if len S_prime <? M0 then
      let stored := dict_get num_eqb v2k v0 in
      let b := default [] stored in
      let '(b', k2v', S_prime', pulled') :=
        D.take_keys M0 v0 (map fst b) (b, k2v, S_prime, pulled) in
      if is_nil b' then
        match stored with
        | Some _ =>
          D.pull_loop M0 rest (dict_del num_eqb v2k v0) k2v' S_prime' pulled'
        | None => Raise KeyError
        end
      else Ok (v0 :: rest, dict_set num_eqb v2k v0 b', k2v', S_prime', pulled')
    else Ok (v0 :: rest, v2k, k2v, S_prime, pulled).
Proof. reflexivity. Qed.

Lemma const_map_In {A : Type} (v0 : num) (l : list A) pv :
  In pv (map (fun _ => v0) l) -> pv = v0.
Proof. rewrite in_map_iff. intros (x & <- & _). reflexivity. Qed.

Lemma num_eqv_le_trans a b c : num_eqv a b -> num_le b c -> num_le a c.
Proof. destruct a, b, c; simpl; try tauto. lra. Qed.

(** The loop of [Pull], started on a well-formed frontier with room in
    [S_prime]: what it pulls and what it leaves. *)
Lemma pull_loop_spec M0 :
  forall values v2k k2v S_prime pulled,
    frontier_wf values v2k k2v -> len S_prime <= M0 ->
    exists values' v2k' k2v' S' new,
      D.pull_loop M0 values v2k k2v S_prime pulled
      = Ok (values', v2k', k2v', S', pulled ++ new)
      /\ frontier_wf values' v2k' k2v'
      /\ len S' <= M0
      /\ (forall key, In key S_prime -> In key S')
      /\ (forall key, In key S' ->
                      In key S_prime
                      \/ exists v pv, k2v !! key = Some v /\ In pv new /\ num_eqv v pv
                                      /\ forall w, In w values' -> num_le v w)
      /\ (forall pv, In pv new ->
                     exists key v, In key S' /\ k2v !! key = Some v /\ num_eqv v pv)
      /\ (forall key v, k2v' !! key = Some v -> k2v !! key = Some v)
      /\ (values <> [] -> len S_prime < M0 -> new <> [])
      /\ (forall w, In w values' -> In w values).
Proof.
  induction values as [|v0 rest IH]; intros v2k k2v S_prime pulled Hwf Hlen.
  - exists [], v2k, k2v, S_prime, []. simpl. rewrite app_nil_r.
    split; [reflexivity|]. split; [exact Hwf|]. split; [exact Hlen|].
    split; [auto|]. split; [auto|]. split; [intros pv []|]. split; [auto|].
    split; [congruence|auto].
  - rewrite pull_loop_cons. destruct (len S_prime <? M0) eqn:Hroom.
    2:{ exists (v0 :: rest), v2k, k2v, S_prime, []. rewrite app_nil_r.
        apply Z.ltb_ge in Hroom.
        split; [reflexivity|]. split; [exact Hwf|]. split; [exact Hlen|].
        split; [auto|]. split; [auto|]. split; [intros pv []|]. split; [auto|].
        split; [lia|auto]. }
    apply Z.ltb_lt in Hroom.
    pose proof Hwf as (Hsort & Huniq & Hlisted & Hbucket & Hk2v & Hb2k).
    destruct (Hlisted v0) as (b & Hb & Hbne); [left; reflexivity|].
    rewrite Hb. cbv zeta. change (default [] (Some b)) with b.
    destruct (take_keys_spec M0 v0 b k2v S_prime pulled)
      as (taken & rest_b & Hsplit & Hrun & Hstop & Hlen1 & Htaken).
    match goal with
    | |- context [D.take_keys ?a ?b0 ?c ?d] =>
      replace (D.take_keys a b0 c d) with
        (rest_b, fold_left (fun m key => delete key m) (map fst taken) k2v,
         set_update S_prime (map fst taken), pulled ++ map (fun _ => v0) taken)
        by (symmetry; exact Hrun)
    end.
    specialize (Hlen1 Hlen). specialize (Htaken Hroom Hbne).
    assert (forall key, In key (map fst taken) ->
                        exists v, k2v !! key = Some v /\ num_eqv v v0) as Hstored.
    { intros key Hkey. apply (Hb2k v0 b key Hb). rewrite Hsplit.
      apply bucket_mem_app. auto. }
    assert (exists key0, In key0 (map fst taken)) as [key0 Hkey0].
    { destruct taken as [|[k e] taken]; [congruence|]. exists k. left. reflexivity. }
    assert (In v0 (map (fun _ : Z * D.entry => v0) taken)) as Hv0new.
    { destruct taken as [|[k e] taken]; [congruence|]. left. reflexivity. }
    destruct rest_b as [|e0 rest_b]; cbn [is_nil].
    + (* the bucket is empty: on to the next value *)
      rewrite app_nil_r in Hsplit. subst taken.
      pose proof (wf_after_full_bucket _ _ _ _ _ Hwf Hb) as Hwf1.
      destruct (IH _ _ _ (pulled ++ map (fun _ => v0) b) Hwf1 Hlen1)
        as (values' & v2k' & k2v' & S' & new' & Hrun' & Hwf' & HlenS & Hmono & Hnew
            & Hsome & Hkeep & _ & Hsub).
      exists values', v2k', k2v', S', (map (fun _ => v0) b ++ new').
      rewrite app_assoc. split; [exact Hrun'|]. split; [exact Hwf'|].
      split; [exact HlenS|]. split.
      { intros key Hkey. apply Hmono, set_update_In. auto. }
      split.
      { intros key Hkey. destruct (Hnew key Hkey) as [Hin|(v & pv & Hlook & Hpv & Heqv & Hbound)].
        - apply set_update_In in Hin. destruct Hin as [Hin|Hin]; [|left; exact Hin].
          right. destruct (Hstored key Hin) as (v & Hlook & Heqv).
          exists v, v0. split; [exact Hlook|]. split; [apply in_app_iff; auto|].
          split; [exact Heqv|]. intros w Hw.
          eapply num_eqv_le_trans; [exact Heqv|].
          apply num_lt_le. eapply sorted_head_lt; eauto.
        - right. exists v, pv. rewrite lookup_fold_delete in Hlook.
          destruct (set_mem key (map fst b)); [discriminate|].
          split; [exact Hlook|]. split; [apply in_app_iff; auto|]. auto. }
      split.
      { intros pv Hpv. apply in_app_iff in Hpv. destruct Hpv as [Hpv|Hpv].
        - apply const_map_In in Hpv. subst pv.
          destruct (Hstored key0 Hkey0) as (v & Hlook & Heqv).
          exists key0, v. split; [apply Hmono, set_update_In; auto|]. auto.
        - destruct (Hsome pv Hpv) as (key & v & Hin & Hlook & Heqv).
          exists key, v. split; [exact Hin|]. split; [|exact Heqv].
          rewrite lookup_fold_delete in Hlook.
          destruct (set_mem key (map fst b)); [discriminate|exact Hlook]. }
      split.
      { intros key v Hlook. apply Hkeep in Hlook. rewrite lookup_fold_delete in Hlook.
        destruct (set_mem key (map fst b)); [discriminate|exact Hlook]. }
      split.
      { intros _ _ Heq. apply app_eq_nil in Heq. destruct Heq as [Heq _].
        rewrite Heq in Hv0new. exact Hv0new. }
      intros w Hw. right. apply Hsub. exact Hw.
    + (* keys are left in the bucket: [S_prime] is full *)
      assert (frontier_wf (v0 :: rest) (dict_set num_eqb v2k v0 (e0 :: rest_b))
                (fold_left (fun m key => delete key m) (map fst taken) k2v)) as Hwf1.
      { apply wf_after_partial_bucket; [exact Hwf|rewrite <- Hsplit; exact Hb|congruence]. }
      exists (v0 :: rest), (dict_set num_eqb v2k v0 (e0 :: rest_b)),
        (fold_left (fun m key => delete key m) (map fst taken) k2v),
        (set_update S_prime (map fst taken)), (map (fun _ => v0) taken).
      split; [reflexivity|]. split; [exact Hwf1|]. split; [exact Hlen1|]. split.
      { intros key Hkey. apply set_update_In. auto. }
      split.
      { intros key Hkey. apply set_update_In in Hkey.
        destruct Hkey as [Hin|Hin]; [|left; exact Hin].
        right. destruct (Hstored key Hin) as (v & Hlook & Heqv).
        exists v, v0. split; [exact Hlook|]. split; [exact Hv0new|].
        split; [exact Heqv|]. intros w Hw.
        eapply num_eqv_le_trans; [exact Heqv|]. eapply sorted_head_le; eauto. }
      split.
      { intros pv Hpv. apply const_map_In in Hpv. subst pv.
        destruct (Hstored key0 Hkey0) as (v & Hlook & Heqv).
        exists key0, v. split; [apply set_update_In; auto|]. auto. }
      split.
      { intros key v Hlook. rewrite lookup_fold_delete in Hlook.
        destruct (set_mem key (map fst taken)); [discriminate|exact Hlook]. }
      split.
      { intros _ _ Heq. rewrite Heq in Hv0new. exact Hv0new. }
      auto.
Qed.

(** ** The sorted list of distinct values *)

Lemma num_le_neq_lt a b : num_le a b -> ~ num_eqv a b -> num_lt a b.
Proof. destruct a, b; simpl; try tauto. lra. Qed.

Lemma insort_In (l : list num) v w : In w (insort l v) <-> w = v \/ In w l.
Proof.
  induction l as [|a l IH]; simpl.
  - intuition congruence.
  - destruct (num_ltb v a); simpl; [intuition congruence|]. rewrite IH. tauto.
Qed.

Lemma insort_strict (l : list num) v :
  StronglySorted num_lt l -> (forall w, In w l -> ~ num_eqv w v) ->
  StronglySorted num_lt (insort l v).
Proof.
  induction l as [|a l IH]; simpl; intros Hs Hne.
  - repeat constructor.
  - inversion Hs as [|? ? Hs' Hall]; subst.
    rewrite List.Forall_forall in Hall.
    destruct (num_ltb v a) eqn:Hlt.
    + apply num_ltb_lt in Hlt. constructor; [exact Hs|].
      apply List.Forall_forall. intros w [<-|Hw]; [exact Hlt|].
      eapply num_lt_trans; [exact Hlt|]. apply Hall, Hw.
    + apply num_ltb_ge in Hlt.
      assert (num_lt a v) as Hav by (apply num_le_neq_lt; auto).
      constructor; [apply IH; auto|].
      apply List.Forall_forall. intros w Hw. apply insort_In in Hw.
      destruct Hw as [->|Hw]; [exact Hav|]. apply Hall, Hw.
Qed.

(** [bisect_left] finds the entry equal to [x], and popping it leaves the
    other values in order. *)
Lemma pop_bisect_left (l : list num) x v' :
  StronglySorted num_lt l -> In v' l -> num_eqv v' x ->
  nth_error l (bisect_left l x) = Some v'
  /\ StronglySorted num_lt (list_pop l (bisect_left l x))
  /\ forall w, In w (list_pop l (bisect_left l x)) <-> In w l /\ ~ num_eqv w x.
Proof.
  induction l as [|a l IH]; simpl; intros Hs Hin Heqv; [tauto|].
  inversion Hs as [|? ? Hs' Hall]; subst. rewrite List.Forall_forall in Hall.
  destruct (num_ltb a x) eqn:Hlt.
  - apply num_ltb_lt in Hlt. destruct Hin as [->|Hin].
    + exfalso. eapply num_lt_not_eqv; eauto.
    + destruct (IH Hs' Hin Heqv) as (Hnth & Hs'' & Hiff). simpl.
      split; [exact Hnth|]. split.
      * constructor; [exact Hs''|]. apply List.Forall_forall.
        intros w Hw. apply Hiff in Hw. apply Hall. tauto.
      * intros w. rewrite Hiff. split.
        -- intros [<-|[Hw Hn]]; [|tauto].
           split; [auto|]. apply num_lt_not_eqv. exact Hlt.
        -- intros [[->|Hw] Hn]; auto.
  - apply num_ltb_ge in Hlt. simpl.
    assert (v' = a) as ->.
    { destruct Hin as [->|Hin]; [reflexivity|]. exfalso.
      apply (num_lt_irrefl a). eapply num_lt_le_trans; [apply Hall, Hin|].
      eapply num_le_trans; [apply num_eqv_le, Heqv|exact Hlt]. }
    split; [reflexivity|]. split; [exact Hs'|]. intros w. split.
    + intros Hw. split; [auto|]. intros Hn. apply (num_lt_irrefl a).
      eapply num_lt_le_trans; [apply Hall, Hw|].
      eapply num_le_trans; [apply num_eqv_le, Hn|exact Hlt].
    + intros [[<-|Hw] Hn]; [tauto|exact Hw].
Qed.

Lemma bucket_del_empty {V : Type} (b : list (Z * V)) key key' :
  dict_del Z.eqb b key = [] -> dict_mem Z.eqb b key' = true -> key' = key.
Proof.
  unfold dict_mem. destruct b as [|[k e] b]; simpl; [discriminate|].
  destruct (key =? k) eqn:E; [|discriminate]. intros ->. simpl.
  destruct (key' =? k) eqn:E'; [|discriminate]. intros _.
  apply Z.eqb_eq in E, E'. congruence.
Qed.

Lemma dict_set_not_nil {K V : Type} (eqb : K -> K -> bool) (d : list (K * V)) k v :
  dict_set eqb d k v <> [].
Proof. destruct d as [|[k' v'] d]; simpl; [|destruct (eqb k k')]; discriminate. Qed.

(** ** [_remove_key] and [_add_to_value_bucket] keep the frontier well formed *)

Lemma wf_remove_last values v2k k2v key old (b : D.bucket) :
  frontier_wf values v2k k2v -> k2v !! key = Some old ->
  dict_get num_eqb v2k old = Some b -> dict_del Z.eqb b key = [] ->
  frontier_wf (list_pop values (bisect_left values old))
              (dict_del num_eqb v2k old) (delete key k2v)
  /\ exists v', nth_error values (bisect_left values old) = Some v'
                /\ num_eqb v' old = true.
Proof.
  intros (Hsort & Huniq & Hlisted & Hbucket & Hk2v & Hb2k) Hold Hb Hdel.
  destruct (Hbucket old b Hb) as [Hub (v' & Hv' & Heqv)].
  destruct (pop_bisect_left _ old v' Hsort Hv' (num_eqv_sym _ _ Heqv))
    as (Hnth & Hs' & Hiff).
  split; [|exists v'; split; [exact Hnth|apply num_eqb_eqv, num_eqv_sym, Heqv]].
  assert (forall v bv, dict_get num_eqb (dict_del num_eqb v2k old) v = Some bv ->
                       num_eqb v old = false /\ dict_get num_eqb v2k v = Some bv) as Hdelv.
  { intros v bv Hget. destruct (num_eqb v old) eqn:E.
    - rewrite v2k_get_del_same in Hget by assumption. discriminate.
    - rewrite v2k_get_del_other in Hget by exact E. auto. }
  split; [exact Hs'|]. split; [apply v2k_unique_del, Huniq|]. split.
  { intros w Hw. apply Hiff in Hw. destruct Hw as [Hw Hn].
    destruct (Hlisted w Hw) as (bw & Hbw & Hne). exists bw. split; [|exact Hne].
    rewrite v2k_get_del_other; [exact Hbw|]. apply num_eqb_false, Hn. }
  split.
  { intros v bv Hget. apply Hdelv in Hget. destruct Hget as [E Hget].
    destruct (Hbucket v bv Hget) as [Hu (w & Hw & Hvw)].
    split; [exact Hu|]. exists w. split; [|exact Hvw]. apply Hiff. split; [exact Hw|].
    intros Hn. apply num_eqb_false in E. apply E. eapply num_eqv_trans; eauto. }
  split.
  { intros key' v Hlook. apply lookup_delete_Some in Hlook. destruct Hlook as [Hne Hlook].
    destruct (Hk2v key' v Hlook) as (bv & Hbv & Hmem). exists bv. split; [|exact Hmem].
    rewrite v2k_get_del_other; [exact Hbv|].
    destruct (num_eqb v old) eqn:E; [|reflexivity]. exfalso.
    rewrite (v2k_get_congr v2k v old E), Hb in Hbv. inversion Hbv. subst bv.
    apply Hne. symmetry. eapply bucket_del_empty; eauto. }
  intros v bv key' Hget Hmem. apply Hdelv in Hget. destruct Hget as [E Hget].
  destruct (Hb2k v bv key' Hget Hmem) as (w & Hlook & Hwv).
  exists w. split; [|exact Hwv]. rewrite lookup_delete_ne; [exact Hlook|].
  intros <-. rewrite Hold in Hlook. inversion Hlook. subst w.
  apply num_eqb_false in E. apply E. apply num_eqv_sym, Hwv.
Qed.

Lemma wf_remove_one values v2k k2v key old (b : D.bucket) :
  frontier_wf values v2k k2v -> k2v !! key = Some old ->
  dict_get num_eqb v2k old = Some b -> dict_del Z.eqb b key <> [] ->
  frontier_wf values (dict_set num_eqb v2k old (dict_del Z.eqb b key))
              (delete key k2v).
Proof.
  intros (Hsort & Huniq & Hlisted & Hbucket & Hk2v & Hb2k) Hold Hb Hdel.
  destruct (Hbucket old b Hb) as [Hub _].
  assert (forall v bv,
             dict_get num_eqb (dict_set num_eqb v2k old (dict_del Z.eqb b key)) v = Some bv ->
             (num_eqb v old = true /\ bv = dict_del Z.eqb b key
              /\ dict_get num_eqb v2k v = Some b)
             \/ (num_eqb v old = false /\ dict_get num_eqb v2k v = Some bv)) as Hset.
  { intros v bv Hget. destruct (num_eqb v old) eqn:E.
    - rewrite v2k_get_set_same in Hget by exact E. inversion Hget. left.
      split; [reflexivity|]. split; [reflexivity|].
      rewrite (v2k_get_congr v2k v old E). exact Hb.
    - rewrite v2k_get_set_other in Hget by exact E. auto. }
  split; [exact Hsort|]. split; [apply v2k_unique_set, Huniq|]. split.
  { intros w Hw. destruct (Hlisted w Hw) as (bw & Hbw & Hne).
    destruct (num_eqb w old) eqn:E.
    - exists (dict_del Z.eqb b key). split; [|exact Hdel].
      apply v2k_get_set_same. exact E.
    - exists bw. split; [|exact Hne]. rewrite v2k_get_set_other by exact E. exact Hbw. }
  split.
  { intros v bv Hget. destruct (Hset v bv Hget) as [(E & -> & Hget')|[E Hget']].
    - destruct (Hbucket v b Hget') as [_ Hex]. split; [|exact Hex].
      apply bucket_unique_del, Hub.
    - apply (Hbucket v bv Hget'). }
  split.
  { intros key' v Hlook. apply lookup_delete_Some in Hlook. destruct Hlook as [Hne Hlook].
    destruct (Hk2v key' v Hlook) as (bv & Hbv & Hmem).
    destruct (num_eqb v old) eqn:E.
    - exists (dict_del Z.eqb b key). split; [apply v2k_get_set_same; exact E|].
      rewrite (v2k_get_congr v2k v old E), Hb in Hbv. inversion Hbv. subst bv.
      unfold dict_mem in *. rewrite bucket_get_del_other; [exact Hmem|congruence].
    - exists bv. split; [|exact Hmem]. rewrite v2k_get_set_other by exact E. exact Hbv. }
  intros v bv key' Hget Hmem.
  destruct (Hset v bv Hget) as [(E & -> & Hget')|[E Hget']].
  - assert (key' <> key) as Hne.
    { intros ->. unfold dict_mem in Hmem.
      rewrite bucket_get_del_same in Hmem; [discriminate|exact Hub]. }
    assert (dict_mem Z.eqb b key' = true) as Hmem'.
    { unfold dict_mem in *. rewrite bucket_get_del_other in Hmem; [exact Hmem|exact Hne]. }
    destruct (Hb2k v b key' Hget' Hmem') as (w & Hlook & Hwv).
    exists w. split; [|exact Hwv]. rewrite lookup_delete_ne; [exact Hlook|congruence].
  - destruct (Hb2k v bv key' Hget' Hmem) as (w & Hlook & Hwv).
    exists w. split; [|exact Hwv]. rewrite lookup_delete_ne; [exact Hlook|].
    intros <-. rewrite Hold in Hlook. inversion Hlook. subst w.
    apply num_eqb_false in E. apply E. apply num_eqv_sym, Hwv.
Qed.

Lemma wf_add_bucket values v2k k2v key value e (b0 : D.bucket) :
  frontier_wf values v2k k2v -> k2v !! key = None ->
  dict_get num_eqb v2k value = Some b0 ->
  frontier_wf values (dict_set num_eqb v2k value (dict_set Z.eqb b0 key e))
              (<[key := value]> k2v).
Proof.
  intros (Hsort & Huniq & Hlisted & Hbucket & Hk2v & Hb2k) Hfree Hb0.
  assert (forall v bv,
             dict_get num_eqb (dict_set num_eqb v2k value (dict_set Z.eqb b0 key e)) v
             = Some bv ->
             (num_eqb v value = true /\ bv = dict_set Z.eqb b0 key e
              /\ dict_get num_eqb v2k v = Some b0)
             \/ (num_eqb v value = false /\ dict_get num_eqb v2k v = Some bv)) as Hset.
  { intros v bv Hget. destruct (num_eqb v value) eqn:E.
    - rewrite v2k_get_set_same in Hget by exact E. inversion Hget. left.
      split; [reflexivity|]. split; [reflexivity|].
      rewrite (v2k_get_congr v2k v value E). exact Hb0.
    - rewrite v2k_get_set_other in Hget by exact E. auto. }
  split; [exact Hsort|]. split; [apply v2k_unique_set, Huniq|]. split.
  { intros w Hw. destruct (Hlisted w Hw) as (bw & Hbw & Hne).
    destruct (num_eqb w value) eqn:E.
    - exists (dict_set Z.eqb b0 key e). split; [|apply dict_set_not_nil].
      apply v2k_get_set_same. exact E.
    - exists bw. split; [|exact Hne]. rewrite v2k_get_set_other by exact E. exact Hbw. }
  split.
  { intros v bv Hget. destruct (Hset v bv Hget) as [(E & -> & Hget')|[E Hget']].
    - destruct (Hbucket v b0 Hget') as [Hu Hex]. split; [|exact Hex].
      apply bucket_unique_set, Hu.
    - apply (Hbucket v bv Hget'). }
  split.
  { intros key' v Hlook. apply lookup_insert_Some in Hlook.
    destruct Hlook as [[<- <-]|[Hne Hlook]].
    - exists (dict_set Z.eqb b0 key e).
      split; [apply v2k_get_set_same, num_eqb_refl|].
      unfold dict_mem. rewrite bucket_get_set_same. reflexivity.
    - destruct (Hk2v key' v Hlook) as (bv & Hbv & Hmem).
      destruct (num_eqb v value) eqn:E.
      + exists (dict_set Z.eqb b0 key e). split; [apply v2k_get_set_same; exact E|].
        rewrite (v2k_get_congr v2k v value E), Hb0 in Hbv. inversion Hbv. subst bv.
        unfold dict_mem in *. rewrite bucket_get_set_other; [exact Hmem|congruence].
      + exists bv. split; [|exact Hmem].
        rewrite v2k_get_set_other by exact E. exact Hbv. }
  intros v bv key' Hget Hmem.
  destruct (Hset v bv Hget) as [(E & -> & Hget')|[E Hget']].
  - destruct (Z.eq_dec key' key) as [->|Hne].
    + exists value. split; [apply lookup_insert_eq|].
      apply num_eqv_sym, num_eqb_eqv, E.
    + assert (dict_mem Z.eqb b0 key' = true) as Hmem'.
      { unfold dict_mem in *. rewrite bucket_get_set_other in Hmem; [exact Hmem|exact Hne]. }
      destruct (Hb2k v b0 key' Hget' Hmem') as (w & Hlook & Hwv).
      exists w. split; [|exact Hwv]. rewrite lookup_insert_ne; [exact Hlook|congruence].
  - destruct (Hb2k v bv key' Hget' Hmem) as (w & Hlook & Hwv).
    exists w. split; [|exact Hwv]. rewrite lookup_insert_ne; [exact Hlook|].
    intros <-. rewrite Hfree in Hlook. discriminate.
Qed.

Lemma wf_add_fresh values v2k k2v key value (e : D.entry) :
  frontier_wf values v2k k2v -> k2v !! key = None ->
  dict_get num_eqb v2k value = None ->
  frontier_wf (insort values value)
              (dict_set num_eqb (dict_set num_eqb v2k value []) value [(key, e)])
              (<[key := value]> k2v).
Proof.
  intros (Hsort & Huniq & Hlisted & Hbucket & Hk2v & Hb2k) Hfree Hnone.
  set (v2k' := dict_set num_eqb (dict_set num_eqb v2k value []) value [(key, e)]).
  assert (forall v, num_eqb v value = true -> dict_get num_eqb v2k' v = Some [(key, e)])
    as Hsame by (intros v E; apply v2k_get_set_same; exact E).
  assert (forall v, num_eqb v value = false ->
                    dict_get num_eqb v2k' v = dict_get num_eqb v2k v) as Hother.
  { intros v E. unfold v2k'. rewrite !v2k_get_set_other by exact E. reflexivity. }
  assert (forall v bv, dict_get num_eqb v2k v = Some bv -> num_eqb v value = false)
    as Hold.
  { intros v bv Hget. destruct (num_eqb v value) eqn:E; [|reflexivity].
    rewrite (v2k_get_congr v2k v value E), Hnone in Hget. discriminate. }
  split.
  { apply insort_strict; [exact Hsort|]. intros w Hw Hn.
    destruct (Hlisted w Hw) as (bw & Hbw & _).
    apply Hold in Hbw. apply num_eqb_false in Hbw. tauto. }
  split; [apply v2k_unique_set, v2k_unique_set, Huniq|]. split.
  { intros w Hw. apply insort_In in Hw. destruct Hw as [->|Hw].
    - exists [(key, e)]. split; [apply Hsame, num_eqb_refl|discriminate].
    - destruct (Hlisted w Hw) as (bw & Hbw & Hne). exists bw. split; [|exact Hne].
      rewrite Hother; [exact Hbw|]. eapply Hold, Hbw. }
  split.
  { intros v bv Hget. destruct (num_eqb v value) eqn:E.
    - rewrite Hsame in Hget by exact E. inversion Hget. subst bv.
      split; [simpl; auto|]. exists value.
      split; [apply insort_In; auto|apply num_eqb_eqv, E].
    - rewrite Hother in Hget by exact E.
      destruct (Hbucket v bv Hget) as [Hu (w & Hw & Hvw)].
      split; [exact Hu|]. exists w. split; [apply insort_In; auto|exact Hvw]. }
  split.
  { intros key' v Hlook. apply lookup_insert_Some in Hlook.
    destruct Hlook as [[<- <-]|[Hne Hlook]].
    - exists [(key, e)]. split; [apply Hsame, num_eqb_refl|].
      unfold dict_mem. simpl. rewrite Z.eqb_refl. reflexivity.
    - destruct (Hk2v key' v Hlook) as (bv & Hbv & Hmem).
      exists bv. split; [|exact Hmem]. rewrite Hother; [exact Hbv|]. eapply Hold, Hbv. }
  intros v bv key' Hget Hmem. destruct (num_eqb v value) eqn:E.
  - rewrite Hsame in Hget by exact E. inversion Hget. subst bv.
    unfold dict_mem in Hmem. simpl in Hmem.
    destruct (key' =? key) eqn:Ek; [|discriminate]. apply Z.eqb_eq in Ek. subst key'.
    exists value. split; [apply lookup_insert_eq|].
    apply num_eqv_sym, num_eqb_eqv, E.
  - rewrite Hother in Hget by exact E.
    destruct (Hb2k v bv key' Hget Hmem) as (w & Hlook & Hwv).
    exists w. split; [|exact Hwv]. rewrite lookup_insert_ne; [exact Hlook|].
    intros <-. rewrite Hfree in Hlook. discriminate.
Qed.

Lemma remove_key_inv d key :
  frontier_inv d ->
  frontier_inv (D._remove_key d key)
  /\ D._key_to_value (D._remove_key d key) !! key = None
  /\ D.M (D._remove_key d key) = D.M d
  /\ D.B (D._remove_key d key) = D.B d.
Proof.
  intros [HM Hwf]. unfold D._remove_key.
  destruct (D._key_to_value d !! key) as [old|] eqn:Hold.
  2:{ split; [split; assumption|]. auto. }
  pose proof Hwf as (_ & _ & _ & _ & Hk2v & _).
  destruct (Hk2v key old Hold) as (b & Hb & Hmem).
  rewrite Hb, Hmem.
  assert (is_nil b = false) as ->
      by (destruct b; [discriminate Hmem|reflexivity]).
  cbn [negb andb]. cbv zeta.
  destruct (is_nil (dict_del Z.eqb b key)) eqn:Hnil.
  - assert (dict_del Z.eqb b key = []) as Hdel
        by (destruct (dict_del Z.eqb b key); [reflexivity|discriminate]).
    destruct (wf_remove_last _ _ _ _ _ _ Hwf Hold Hb Hdel) as [Hwf' (v' & Hnth & Heq)].
    rewrite Hnth, Heq. unfold frontier_inv. cbn.
    split; [split; assumption|]. split; [apply lookup_delete_eq|auto].
  - assert (dict_del Z.eqb b key <> []) as Hdel
        by (intros Heq; rewrite Heq in Hnil; discriminate).
    pose proof (wf_remove_one _ _ _ _ _ _ Hwf Hold Hb Hdel) as Hwf'.
    unfold frontier_inv. cbn.
    split; [split; assumption|]. split; [apply lookup_delete_eq|auto].
Qed.

Lemma add_to_value_bucket_inv d value key a pred_v_id :
  frontier_inv d -> D._key_to_value d !! key = None ->
  frontier_inv (D._add_to_value_bucket d value key a pred_v_id)
  /\ D.M (D._add_to_value_bucket d value key a pred_v_id) = D.M d
  /\ D.B (D._add_to_value_bucket d value key a pred_v_id) = D.B d.
Proof.
  intros [HM Hwf] Hfree. unfold D._add_to_value_bucket, dict_mem.
  destruct (dict_get num_eqb (D._value_to_keys d) value) as [b0|] eqn:Hb0;
    cbn [negb]; cbv zeta.
  - rewrite Hb0. cbn [default from_option id]. unfold frontier_inv. cbn.
    split; [|auto]. split; [exact HM|]. apply wf_add_bucket; assumption.
  - rewrite v2k_get_set_same by apply num_eqb_refl.
    cbn [default from_option id dict_set]. unfold frontier_inv. cbn.
    split; [|auto]. split; [exact HM|]. apply wf_add_fresh; assumption.
Qed.

Lemma Insert_inv d key value a pred_v_id d' :
  frontier_inv d -> D.Insert d key value a pred_v_id = Ok d' ->
  frontier_inv d' /\ D.M d' = D.M d /\ D.B d' = D.B d.
Proof.
  intros Hinv. unfold D.Insert.
  destruct (D._key_to_value d !! key) as [old|] eqn:Hold.
  2:{ intros Hrun. inversion Hrun. apply add_to_value_bucket_inv; assumption. }
  destruct (dict_get num_eqb (D._value_to_keys d) old) as [b|]; [|discriminate].
  cbn [bind]. destruct (dict_get Z.eqb b key) as [[old_alpha old_pred]|]; [|discriminate].
  cbn [bind]. destruct (num_ltb old value).
  { intros Hrun. inversion Hrun. subst d'. auto. }
  match goal with
  | |- (let* ignore := ?m in _) = _ -> _ => destruct m as [[|]|e]
  end; cbn [bind]; intros Hrun; inversion Hrun.
  - subst d'. auto.
  - destruct (remove_key_inv d key Hinv) as (Hinv' & Hfree & HM & HB).
    destruct (add_to_value_bucket_inv _ value key a pred_v_id Hinv' Hfree)
      as (Hinv'' & HM' & HB').
    split; [exact Hinv''|]. split; congruence.
Qed.

Lemma BatchPrepend_inv : forall L_items d d',
  frontier_inv d -> D.BatchPrepend d L_items = Ok d' ->
  frontier_inv d' /\ D.M d' = D.M d /\ D.B d' = D.B d.
Proof.
  unfold D.BatchPrepend.
  induction L_items as [|[[[key value] a] pred_v_id] L_items IH]; intros d d' Hinv; simpl.
  - intros Hrun. inversion Hrun. subst d'. auto.
  - destruct (D.Insert d key value a pred_v_id) as [d1|e] eqn:Hins; [|discriminate].
    cbn [bind]. intros Hrun.
    destruct (Insert_inv _ _ _ _ _ _ Hinv Hins) as (Hinv1 & HM1 & HB1).
    destruct (IH d1 d' Hinv1 Hrun) as (Hinv' & HM' & HB').
    split; [exact Hinv'|]. split; congruence.
Qed.

(** ** [Pull] *)

Lemma list_max_spec : forall tl hd,
  In (list_max hd tl) (hd :: tl)
  /\ forall pv, In pv (hd :: tl) -> num_le pv (list_max hd tl).
Proof.
  unfold list_max. induction tl as [|a tl IH]; intros hd.
  - split; [left; reflexivity|]. intros pv [<-|[]]. apply num_le_refl.
  - cbn [fold_left]. destruct (IH (num_max hd a)) as [Hin Hle].
    assert (num_le hd (num_max hd a) /\ num_le a (num_max hd a)) as [H1 H2].
    { unfold num_max. destruct (num_ltb hd a) eqn:E.
      - apply num_ltb_lt in E. split; [apply num_lt_le, E|apply num_le_refl].
      - apply num_ltb_ge in E. split; [apply num_le_refl|exact E]. }
    split.
    + destruct Hin as [Heq|Hin]; [|right; right; exact Hin].
      rewrite <- Heq. unfold num_max. destruct (num_ltb hd a); simpl; auto.
    + intros pv [<-|[<-|Hpv]].
      * eapply num_le_trans; [exact H1|]. apply Hle. left. reflexivity.
      * eapply num_le_trans; [exact H2|]. apply Hle. left. reflexivity.
      * apply Hle. right. exact Hpv.
Qed.

Lemma num_le_add_eps a : num_le a (num_add a eps12).
Proof. destruct a as [x|]; simpl; [lra|exact I]. Qed.

Lemma num_add_eqv a b c : num_eqv a b -> num_eqv (num_add a c) (num_add b c).
Proof. destruct a, b, c; simpl; try tauto. intros ->. reflexivity. Qed.

Lemma num_le_eqv_trans a b c : num_le a b -> num_eqv b c -> num_le a c.
Proof. destruct a, b, c; simpl; try tauto. lra. Qed.

(** A well-formed frontier without stored keys lists no value. *)
Lemma wf_no_keys values v2k k2v :
  frontier_wf values v2k k2v -> k2v = ∅ -> values = [].
Proof.
  intros (_ & _ & Hlisted & _ & _ & Hb2k) ->.
  destruct values as [|v values]; [reflexivity|]. exfalso.
  destruct (Hlisted v) as (b & Hb & Hne); [left; reflexivity|].
  destruct b as [|[key e] b]; [congruence|].
  destruct (Hb2k v _ key Hb) as (v' & Hlook & _).
  - unfold dict_mem. simpl. rewrite Z.eqb_refl. reflexivity.
  - rewrite lookup_empty in Hlook. discriminate.
Qed.

(** [Pull] on a well-formed frontier returns, leaves a well-formed frontier
    and keeps its contract. *)
Lemma Pull_spec d :
  frontier_inv d ->
  exists x S_prime d',
    D.Pull d = Ok (x, S_prime, d')
    /\ frontier_inv d' /\ D.M d' = D.M d /\ D.B d' = D.B d
    /\ Pull_contract d x S_prime d'.
Proof.
  intros [HM Hwf].
  destruct (pull_loop_spec (D.M d) _ _ _ [] [] Hwf)
    as (values' & v2k' & k2v' & S' & new & Hrun & Hwf' & HlenS & _ & Hnew & Hsome
        & Hkeep & Hprogress & Hsub); [unfold len; simpl; lia|].
  cbn [app] in Hrun. unfold D.Pull. rewrite Hrun. cbn [bind].
  eexists _, S', _. split; [reflexivity|].
  split; [split; [exact HM|exact Hwf']|]. split; [reflexivity|]. split; [reflexivity|].
  assert (forall key, In key S' ->
            exists v pv, D._key_to_value d !! key = Some v /\ In pv new /\ num_eqv v pv
                         /\ forall w, In w values' -> num_le v w) as Hpulled.
  { intros key Hkey. destruct (Hnew key Hkey) as [[]|H]. exact H. }
  unfold Pull_contract. cbn [D.M D.B D._key_to_value].
  split; [exact HlenS|]. split.
  { intros key Hkey. destruct (Hpulled key Hkey) as (v & pv & Hlook & Hpv & Heqv & Hbound).
    exists v. split; [exact Hlook|].
    destruct values' as [|v1 rest]; [|apply Hbound; left; reflexivity].
    destruct new as [|p ps]; [destruct Hpv|].
    eapply num_le_trans; [|apply num_le_add_eps].
    eapply num_eqv_le_trans; [exact Heqv|]. apply list_max_spec. exact Hpv. }
  split.
  { intros key v Hlook. split; [apply Hkeep, Hlook|].
    pose proof Hwf' as (Hsort' & _ & _ & Hbucket' & Hk2v' & _).
    destruct (Hk2v' key v Hlook) as (b & Hb & _).
    destruct (Hbucket' v b Hb) as [_ (w & Hw & Hvw)].
    destruct values' as [|v1 rest]; [destruct Hw|].
    eapply num_le_eqv_trans; [eapply sorted_head_le; eauto|].
    apply num_eqv_sym, Hvw. }
  split.
  { intros Hempty Hne. unfold D.is_empty in Hempty. cbn [D._key_to_value] in Hempty.
    apply Nat.eqb_eq, map_size_empty_iff in Hempty.
    rewrite (wf_no_keys _ _ _ Hwf' Hempty).
    destruct S' as [|key0 S']; [congruence|].
    destruct (Hpulled key0) as (v0 & pv0 & _ & Hpv0 & _); [left; reflexivity|].
    destruct new as [|p ps]; [destruct Hpv0|].
    destruct (list_max_spec ps p) as [Hin Hmax].
    destruct (Hsome _ Hin) as (key & mx & Hkey & Hlook & Heqv).
    exists key, mx. split; [exact Hkey|]. split; [exact Hlook|]. split.
    { intros key' v Hkey' Hlook'.
      destruct (Hpulled key' Hkey') as (v' & pv & Hlook'' & Hpv & Hvpv & _).
      rewrite Hlook' in Hlook''. inversion Hlook''. subst v'.
      eapply num_eqv_le_trans; [exact Hvpv|].
      eapply num_le_eqv_trans; [apply Hmax, Hpv|apply num_eqv_sym, Heqv]. }
    assert (num_eqv (num_add (list_max p ps) eps12) (num_add mx eps12)) as Hx
        by (apply num_add_eqv, num_eqv_sym, Heqv).
    split; [exact Hx|]. intros Hfin.
    eapply num_lt_eqv_trans; [apply num_lt_add_eps, Hfin|apply num_eqv_sym, Hx]. }
  intros ->.
  assert (new = []) as ->.
  { destruct new as [|p ps]; [reflexivity|].
    destruct (Hsome p) as (key & _ & [] & _). left. reflexivity. }
  assert (D._values d = []) as Hnone.
  { destruct (D._values d) as [|v vs]; [reflexivity|]. exfalso.
    apply Hprogress; [discriminate|unfold len; simpl; lia|reflexivity]. }
  rewrite Hnone in Hsub. destruct values' as [|v1 rest]; [reflexivity|].
  destruct (Hsub v1). left. reflexivity.
Qed.

Lemma reachable_inv M0 B0 d :
  reachable M0 B0 d -> frontier_inv d /\ D.M d = Z.max 1 M0 /\ D.B d = B0.
Proof.
  induction 1 as [|d key value a pred_v_id d' _ (Hinv & HM & HB) Hrun
                  |d L_items d' _ (Hinv & HM & HB) Hrun
                  |d x S_prime d' _ (Hinv & HM & HB) Hrun].
  - split; [|auto]. split; [simpl; lia|]. cbn.
    split; [constructor|]. split; [exact I|]. split; [intros v []|].
    split; [intros v b; discriminate|]. split.
    + intros key v Hlook. rewrite lookup_empty in Hlook. discriminate.
    + intros v b key; discriminate.
  - destruct (Insert_inv _ _ _ _ _ _ Hinv Hrun) as (Hinv' & HM' & HB').
    split; [exact Hinv'|]. split; congruence.
  - destruct (BatchPrepend_inv _ _ _ Hinv Hrun) as (Hinv' & HM' & HB').
    split; [exact Hinv'|]. split; congruence.
  - destruct (Pull_spec d Hinv) as (x' & S' & d'' & Hrun' & Hinv' & HM' & HB' & _).
    rewrite Hrun in Hrun'. inversion Hrun'. subst.
    split; [exact Hinv'|]. split; congruence.
Qed.




(** ** C5: what BaseCase returns *)

Lemma same_params_refl g : same_params g g.
Proof. repeat split. Qed.

Lemma same_params_trans g1 g2 g3 :
  same_params g1 g2 -> same_params g2 g3 -> same_params g1 g3.
Proof. unfold same_params. intuition congruence. Qed.

Lemma BaseCase_relax_params B d a u g H e g' H' :
  BaseCase_relax B d a u (g, H) e = Ok (g', H') -> same_params g g'.
Proof.
  destruct e as [v w]. unfold BaseCase_relax.
  destruct (BaseCase_accepts B g d a u v w) as [[|]|]; simpl; intros Heq;
    inversion Heq; subst; repeat split.
Qed.

Lemma BaseCase_relax_all_params B d a u edges g H g' H' :
  for_each edges (BaseCase_relax B d a u) (g, H) = Ok (g', H') -> same_params g g'.
Proof.
  intros Hrun.
  refine (for_each_invariant (fun st : globals * list heap_entry => same_params g (fst st))
                             _ _ _ _ _ _ Hrun); [|apply same_params_refl].
  intros [g1 H1] e [g2 H2] Hp Hb. simpl in *.
  eapply same_params_trans; [exact Hp|]. eapply BaseCase_relax_params; eauto.
Qed.

Lemma BaseCase_loop_nil budget graph B g U0 candidates :
  BaseCase_loop budget graph B g U0 candidates [] = Ok (g, U0, candidates).
Proof. destruct budget; reflexivity. Qed.

Lemma BaseCase_loop_cons budget graph B g U0 candidates current_d current_alpha u
      current_pred_u H :
  BaseCase_loop (S budget) graph B g U0 candidates
                ((current_d, current_alpha, u, current_pred_u) :: H)
  = if BaseCase_stale g (current_d, current_alpha, u, current_pred_u)
    then BaseCase_loop (S budget) graph B g U0 candidates H
    else if set_mem u U0 then BaseCase_loop (S budget) graph B g U0 candidates H
    else
      let* '(g', H'') :=
        for_each (default [] (graph !! u))
                 (BaseCase_relax B current_d current_alpha u) (g, H) in
      BaseCase_loop budget graph B g' (set_add u U0)
                    (dict_set Z.eqb candidates u current_d) H''.
Proof. reflexivity. Qed.

Lemma set_vertex_params g v d a p :
  k_param (set_vertex g v d a p) = k_param g
  /\ t_param (set_vertex g v d a p) = t_param g
  /\ N_vertices (set_vertex g v d a p) = N_vertices g.
Proof. repeat split. Qed.

(** The loop keeps [candidates] keyed by exactly the vertices of [U0], adds
    at most [budget] vertices, and leaves the parameters alone. *)
Lemma BaseCase_loop_invariant budget graph B :
  forall g U0 candidates H g' U0' candidates',
    BaseCase_loop budget graph B g U0 candidates H = Ok (g', U0', candidates') ->
    Permutation (map fst candidates) U0 -> NoDup U0 ->
    Permutation (map fst candidates') U0' /\ NoDup U0'
    /\ (length U0' <= length U0 + budget)%nat /\ same_params g g'.
Proof.
  induction budget as [|budget IH]; intros g U0 candidates H g' U0' candidates'.
  - simpl. intros Heq Hp Hnd. inversion Heq. subst.
    repeat split; auto; lia.
  - induction H as [|[[[current_d current_alpha] u] current_pred_u] H IHH].
    + rewrite BaseCase_loop_nil. intros Heq Hp Hnd. inversion Heq. subst.
      repeat split; auto; lia.
    + rewrite BaseCase_loop_cons.
      destruct (BaseCase_stale g (current_d, current_alpha, u, current_pred_u));
        [exact IHH|].
      destruct (set_mem u U0) eqn:Hmem; [exact IHH|].
      match goal with
      | |- context [for_each ?l ?b ?s] =>
        destruct (for_each l b s) as [[g1 H1]|e] eqn:Hrelax; simpl; [|discriminate]
      end.
      intros Hrun Hp Hnd.
      apply set_mem_false in Hmem.
      apply BaseCase_relax_all_params in Hrelax.
      apply IH in Hrun.
      * destruct Hrun as (Hp' & Hnd' & Hlen & Hpar).
        split; [exact Hp'|]. split; [exact Hnd'|]. split.
        -- rewrite set_add_fresh in Hlen by exact Hmem. simpl in Hlen. lia.
        -- eapply same_params_trans; eauto.
      * rewrite dict_set_fresh by (rewrite Hp; exact Hmem).
        rewrite map_app. simpl. rewrite set_add_fresh by exact Hmem.
        rewrite <- Hp. symmetry. apply Permutation_cons_append.
      * rewrite set_add_fresh by exact Hmem.
        apply NoDup_cons. split; [rewrite list_elem_of_In; exact Hmem | exact Hnd].
Qed.

Lemma filter_length_lt {A : Type} (f : A -> bool) (l : list A) (x : A) :
  In x l -> f x = false -> (length (List.filter f l) < length l)%nat.
Proof.
  induction l as [|a l IH]; simpl; [tauto|].
  intros [->|Hin] Hx.
  - rewrite Hx. pose proof (List.filter_length_le f l). lia.
  - pose proof (IH Hin Hx). destruct (f a); simpl; lia.
Qed.

Lemma py_index_nonneg {A : Type} (l : list A) (i : Z) :
  0 <= i ->
  py_index l i = match nth_error l (Z.to_nat i) with
                 | Some a => Ok a
                 | None => Raise IndexError
                 end.
Proof.
  intros Hi. unfold py_index.
  destruct (i <? 0) eqn:E; [apply Z.ltb_lt in E; lia|].
  cbv zeta. rewrite E. reflexivity.
Qed.

(** C5: whenever [BaseCase] returns, its loop has completed a set [U0] of at
    most k+1 distinct vertices, each with one recorded distance.  With at most
    k of them the result is [(B, U0)].  With more, the boundary is the entry
    of index k of the recorded distances in ascending order, the (k+1)-th
    smallest, the returned set holds exactly the completed vertices whose
    distance is strictly below it, and that set has at most k vertices. *)
Theorem BaseCase_result (g : globals) (B : num) (srcs : pyset) (graph : Graph)
  (B_prime : num) (U : pyset) (g' : globals) :
  0 <= k_param g ->
  BaseCase g B srcs graph = Ok (B_prime, U, g') ->
  exists (U0 : pyset) (candidates : list (Z * num)),
    BaseCase_completed g B srcs graph = Ok (g', U0, candidates)
    /\ Permutation (map fst candidates) U0 /\ NoDup U0
    /\ Permutation (sorted (map snd candidates)) (map snd candidates)
    /\ StronglySorted num_le (sorted (map snd candidates))
    /\ len U0 <= k_param g + 1
    /\ (len U0 <= k_param g -> B_prime = B /\ U = U0)
    /\ (k_param g < len U0 ->
        nth_error (sorted (map snd candidates)) (Z.to_nat (k_param g)) = Some B_prime
        /\ (forall v, In v U <->
                      exists dist, In (v, dist) candidates /\ num_lt dist B_prime)
        /\ len U <= k_param g).
Proof.
  intros Hk. unfold BaseCase.
  destruct (BaseCase_completed g B srcs graph) as [[[g1 U0] candidates]|e] eqn:Hloop;
    simpl; [|discriminate].
  pose proof Hloop as Hinv. unfold BaseCase_completed in Hinv.
  apply BaseCase_loop_invariant in Hinv; [|reflexivity|constructor].
  destruct Hinv as (Hp & Hnd & Hlen & (Hk1 & _)).
  pose proof (sorted_Permutation (map snd candidates)) as Hsp.
  pose proof (sorted_ascending (map snd candidates)) as Hsa.
  simpl in Hlen. rewrite Hk1.
  assert (len U0 <= k_param g + 1) as HlenZ by (unfold len; lia).
  destruct (len U0 <=? k_param g) eqn:Hle.
  - apply Z.leb_le in Hle. intros Heq. injection Heq as HB HU Hg. subst g1.
    exists U0, candidates. repeat split; auto; lia.
  - apply Z.leb_gt in Hle.
    assert (length candidates = S (Z.to_nat (k_param g))) as Hcl.
    { apply Permutation_length in Hp. rewrite length_map in Hp.
      unfold len in *. lia. }
    assert ((len (sorted (map snd candidates)) >? k_param g) = true) as Hgt.
    { apply Z.gtb_lt. unfold len.
      rewrite (Permutation_length (sorted_Permutation _)), length_map. lia. }
    rewrite Hgt, py_index_nonneg by exact Hk.
    destruct (nth_error (sorted (map snd candidates)) (Z.to_nat (k_param g)))
      as [b|] eqn:Hnth; simpl; [|discriminate].
    intros Heq. injection Heq as HB HU Hg. subst b U g1.
    exists U0, candidates. repeat split; auto; try lia.
    + rewrite set_of_list_In, in_map_iff.
      intros ([v' dist] & <- & Hin). apply filter_In in Hin.
      destruct Hin as [Hin Hlt]. exists dist. split; [exact Hin|].
      apply num_ltb_lt. exact Hlt.
    + intros (dist & Hin & Hlt). rewrite set_of_list_In, in_map_iff.
      exists (v, dist). split; [reflexivity|]. apply filter_In. split; [exact Hin|].
      apply num_ltb_lt. exact Hlt.
    + assert (In B_prime (map snd candidates)) as HB.
      { eapply Permutation_in; [apply sorted_Permutation|].
        eapply nth_error_In; eauto. }
      apply in_map_iff in HB. destruct HB as ([v dist] & Hd & Hin). simpl in Hd. subst.
      pose proof (filter_length_lt (fun '(v, dist) => num_ltb dist B_prime)
                                   candidates (v, B_prime) Hin) as Hf.
      simpl in Hf.
      assert (num_ltb B_prime B_prime = false) as Hirr.
      { destruct (num_ltb B_prime B_prime) eqn:E; [|reflexivity].
        apply num_ltb_lt, num_lt_irrefl in E. tauto. }
      specialize (Hf Hirr).
      pose proof (set_of_list_length
                    (map fst (List.filter (fun '(v, dist) => num_ltb dist B_prime)
                                          candidates))) as Hs.
      rewrite length_map in Hs. unfold len. lia.
Qed.

Lemma BaseCase_result_witness :
  match BaseCase (initial_globals fresh_globals 4 0 1 1) Inf [0]
                 (build_graph chain_of_four) with
  | Ok (B_prime, U, g') =>
    exists U0 candidates,
      BaseCase_completed (initial_globals fresh_globals 4 0 1 1) Inf [0]
                         (build_graph chain_of_four) = Ok (g', U0, candidates)
      /\ len U0 <= 1 + 1
      /\ (1 < len U0 -> len U <= 1)
  | Raise _ => False
  end.
Proof.
  destruct (BaseCase (initial_globals fresh_globals 4 0 1 1) Inf [0]
                     (build_graph chain_of_four)) as [[[B_prime U] g']|e] eqn:Hrun.
  - assert (0 <= k_param (initial_globals fresh_globals 4 0 1 1)) as Hk
        by (simpl; lia).
    destruct (BaseCase_result _ _ _ _ _ _ _ Hk Hrun)
      as (U0 & candidates & Hc & _ & _ & _ & _ & Hlen & _ & Hmore).
    exists U0, candidates. split; [exact Hc|]. split; [exact Hlen|].
    intros Hlt. exact (proj2 (proj2 (Hmore Hlt))).
  - vm_compute in Hrun. discriminate Hrun.
Defined.

(** ** C6: what FindPivots returns *)

Lemma FindPivots_relax_params B u g W Wi e g' W' Wi' :
  FindPivots_relax B u (g, W, Wi) e = Ok (g', W', Wi') -> same_params g g'.
Proof.
  destruct e as [v w]. unfold FindPivots_relax.
  destruct (FindPivots_accepts g u v w) as [[|]|]; simpl; [| |discriminate];
    match goal with |- context [if ?c then _ else _] => destruct c end;
    intros Heq; inversion Heq; subst; repeat split.
Qed.

Lemma FindPivots_round_params graph B g W Wi g' W' Wi' :
  FindPivots_round graph B g W Wi = Ok (g', W', Wi') -> same_params g g'.
Proof.
  unfold FindPivots_round. intros Hrun.
  refine (for_each_invariant
            (fun st : globals * pyset * pyset => same_params g (fst (fst st)))
            _ _ _ _ _ _ Hrun); [|apply same_params_refl].
  intros [[g1 W1] Wi1] u [[g2 W2] Wi2] Hp Hb. cbn [fst snd] in *.
  destruct (graph !! u) as [edges|]; [|inversion Hb; subst; exact Hp].
  refine (for_each_invariant
            (fun st : globals * pyset * pyset => same_params g (fst (fst st)))
            _ _ _ _ _ _ Hb); [|exact Hp].
  intros [[g3 W3] Wi3] e [[g4 W4] Wi4] Hp3 Hr. cbn [fst snd] in *.
  eapply same_params_trans; [exact Hp3|]. eapply FindPivots_relax_params; eauto.
Qed.

Lemma FindPivots_after_S i graph B g W Wi :
  FindPivots_after (S i) graph B g W Wi
  = let* '(g', W', next_Wi) := FindPivots_round graph B g W Wi in
    FindPivots_after i graph B g' W' next_Wi.
Proof. reflexivity. Qed.

(** The rounds with the size test against the rounds without it. *)
Lemma FindPivots_rounds_after rounds graph B srcs (k : Z) :
  forall g W Wi g' W' early,
    k_param g = k ->
    FindPivots_rounds rounds graph B srcs g W Wi = Ok (g', W', early) ->
    k_param g' = k /\
    if (early : bool) then
      exists i next_Wi,
        (1 <= i <= rounds)%nat
        /\ FindPivots_after i graph B g W Wi = Ok (g', W', next_Wi)
        /\ len W' > k * len srcs
        /\ forall j gj Wj nj,
            (1 <= j < i)%nat ->
            FindPivots_after j graph B g W Wi = Ok (gj, Wj, nj) ->
            len Wj <= k * len srcs
    else
      exists next_Wi,
        FindPivots_after rounds graph B g W Wi = Ok (g', W', next_Wi)
        /\ forall j gj Wj nj,
            (1 <= j <= rounds)%nat ->
            FindPivots_after j graph B g W Wi = Ok (gj, Wj, nj) ->
            len Wj <= k * len srcs.
Proof.
  induction rounds as [|rounds IH]; intros g W Wi g' W' early Hk Hrun.
  - simpl in Hrun. inversion Hrun. subst. split; [reflexivity|].
    exists Wi. split; [reflexivity|]. intros j gj Wj nj Hj. lia.
  - cbn [FindPivots_rounds] in Hrun.
    destruct (FindPivots_round graph B g W Wi) as [[[g1 W1] Wi1]|e] eqn:Hround;
      cbn [bind] in Hrun; [|discriminate].
    pose proof (FindPivots_round_params _ _ _ _ _ _ _ _ Hround) as (Hk1 & _).
    rewrite Hk1, Hk in Hrun.
    destruct (len W1 >? k * len srcs) eqn:Hgt.
    + inversion Hrun. subst g1 W1 early. split; [congruence|].
      exists 1%nat, Wi1. split; [lia|].
      split; [rewrite FindPivots_after_S, Hround; reflexivity|].
      split; [apply Z.gtb_lt in Hgt; lia|]. intros j gj Wj nj Hj. lia.
    + apply IH in Hrun; [|congruence].
      destruct Hrun as [Hk' Hrest]. split; [exact Hk'|].
      assert (len W1 <= k * len srcs) as Hle.
      { destruct (Z.gtb_spec (len W1) (k * len srcs)); [discriminate|lia]. }
      destruct early.
      * destruct Hrest as (i & next & Hi & Hafter & Hbig & Hbefore).
        exists (S i), next. split; [lia|].
        split; [rewrite FindPivots_after_S, Hround; exact Hafter|].
        split; [exact Hbig|].
        intros j gj Wj nj Hj. destruct j as [|j]; [lia|].
        rewrite FindPivots_after_S, Hround. cbn [bind]. destruct j as [|j].
        -- simpl. intros Heq. inversion Heq. subst. exact Hle.
        -- apply Hbefore. lia.
      * destruct Hrest as (next & Hafter & Hall).
        exists next. split; [rewrite FindPivots_after_S, Hround; exact Hafter|].
        intros j gj Wj nj Hj. destruct j as [|j]; [lia|].
        rewrite FindPivots_after_S, Hround. cbn [bind]. destruct j as [|j].
        -- simpl. intros Heq. inversion Heq. subst. exact Hle.
        -- apply Hall. lia.
Qed.

(** *** The traversal of one root *)

Lemma dfs_unfold depth F_adj node visited :
  dfs_calculate_subtree_size (S depth) F_adj node visited
  = if set_mem node visited then Ok (0, visited)
    else
      for_each (default [] (F_adj !! node))
        (fun '(size, visited) neighbor =>
           let* '(sub, visited') :=
             dfs_calculate_subtree_size depth F_adj neighbor visited in
           Ok (size + sub, visited'))
        (1, set_add node visited).
Proof. reflexivity. Qed.

Lemma in_subtree_trans F_adj a b c :
  in_subtree F_adj a b -> in_subtree F_adj b c -> in_subtree F_adj a c.
Proof.
  intros Hab Hbc. induction Hbc as [|p children x Hp IH Hlook Hin].
  - exact Hab.
  - eapply subtree_child; eauto.
Qed.

Lemma filter_length_mono {A : Type} (f h : A -> bool) (l : list A) :
  (forall x, In x l -> f x = true -> h x = true) ->
  (length (List.filter f l) <= length (List.filter h l))%nat.
Proof.
  induction l as [|a l IH]; simpl; intros Himp; [lia|].
  assert (length (List.filter f l) <= length (List.filter h l))%nat as Hl
      by (apply IH; intros; apply Himp; auto).
  destruct (f a) eqn:Hf.
  - rewrite (Himp a) by auto. simpl. lia.
  - destruct (h a); simpl; lia.
Qed.

Lemma filter_length_strict {A : Type} (f h : A -> bool) (l : list A) (a : A) :
  (forall x, In x l -> f x = true -> h x = true) ->
  In a l -> h a = true -> f a = false ->
  (length (List.filter f l) < length (List.filter h l))%nat.
Proof.
  induction l as [|b l IH]; simpl; intros Himp Hin Hh Hf; [tauto|].
  assert (length (List.filter f l) <= length (List.filter h l))%nat as Hl
      by (apply filter_length_mono; intros; apply Himp; auto).
  destruct Hin as [->|Hin].
  - rewrite Hf, Hh. simpl. lia.
  - assert (length (List.filter f l) < length (List.filter h l))%nat
      by (apply IH; auto).
    destruct (f b) eqn:Hfb.
    + rewrite (Himp b) by auto. simpl. lia.
    + destruct (h b); simpl; lia.
Qed.

Lemma unvisited_mono nodes visited visited' :
  (forall x, In x visited -> In x visited') ->
  (unvisited nodes visited' <= unvisited nodes visited)%nat.
Proof.
  intros Hsub. apply filter_length_mono. intros x _ Hx.
  apply negb_true_iff, set_mem_false in Hx.
  apply negb_true_iff, set_mem_false. auto.
Qed.

Lemma unvisited_add nodes node visited :
  In node nodes -> ~ In node visited ->
  (unvisited nodes (set_add node visited) < unvisited nodes visited)%nat.
Proof.
  intros Hin Hnew. apply (filter_length_strict _ _ _ node); auto.
  - intros x _ Hx. apply negb_true_iff, set_mem_false in Hx.
    apply negb_true_iff, set_mem_false. rewrite set_add_In in Hx. tauto.
  - apply negb_true_iff, set_mem_false. exact Hnew.
  - apply negb_false_iff, set_mem_In, set_add_In. left. reflexivity.
Qed.

Lemma set_add_NoDup x (s : pyset) : ~ In x s -> NoDup s -> NoDup (set_add x s).
Proof.
  intros Hx Hnd. rewrite set_add_fresh by exact Hx.
  apply NoDup_cons. split; [rewrite list_elem_of_In; exact Hx | exact Hnd].
Qed.

Lemma set_add_len x (s : pyset) : ~ In x s -> len (set_add x s) = len s + 1.
Proof.
  intros Hx. unfold len. rewrite (Permutation_length (set_add_fresh x s Hx)).
  simpl. lia.
Qed.

Section Traversal.
Variable F_adj : gmap Z (list Z).
Variable nodes : list Z.
Hypothesis children_in_nodes :
  forall p children c, F_adj !! p = Some children -> In c children -> In c nodes.

(** The loop over the children of a node, given that traversals nested one
    level less deep behave. *)
Lemma dfs_children depth :
  (forall node visited,
      In node nodes -> NoDup visited -> (unvisited nodes visited < depth)%nat ->
      exists size visited',
        dfs_calculate_subtree_size depth F_adj node visited = Ok (size, visited')
        /\ traversal_ok F_adj node visited size visited') ->
  forall children size0 visited0,
    (forall c, In c children -> In c nodes) ->
    NoDup visited0 -> (unvisited nodes visited0 < depth)%nat ->
    exists size1 visited1,
      for_each children
        (fun '(size, visited) neighbor =>
           let* '(sub, visited') :=
             dfs_calculate_subtree_size depth F_adj neighbor visited in
           Ok (size + sub, visited'))
        (size0, visited0) = Ok (size1, visited1)
      /\ NoDup visited1
      /\ (forall x, In x visited0 -> In x visited1)
      /\ (forall c, In c children -> In c visited1)
      /\ size1 - size0 = len visited1 - len visited0
      /\ (forall x, In x visited1 -> ~ In x visited0 ->
                    exists c, In c children /\ in_subtree F_adj c x)
      /\ (forall p cs c,
             In p visited1 -> ~ In p visited0 -> F_adj !! p = Some cs ->
             In c cs -> In c visited1).
Proof.
  intros IH. induction children as [|c children IHc];
    intros size0 visited0 Hch Hnd Hm.
  - exists size0, visited0. simpl. repeat split; auto; try lia; intros; tauto.
  - cbn [for_each].
    destruct (IH c visited0) as (sub & v1 & Hrun & Hnd1 & Hsub1 & Hc1 & Hsz1 & Hsound1 & Hclo1);
      [apply Hch; left; reflexivity|exact Hnd|exact Hm|].
    rewrite Hrun. cbn [bind].
    destruct (IHc (size0 + sub) v1) as
        (size1 & v2 & Hrun2 & Hnd2 & Hsub2 & Hc2 & Hsz2 & Hsound2 & Hclo2).
    { intros c' Hc'. apply Hch. right. exact Hc'. }
    { exact Hnd1. }
    { pose proof (unvisited_mono nodes visited0 v1 Hsub1). lia. }
    exists size1, v2. split; [exact Hrun2|]. split; [exact Hnd2|].
    split; [auto|]. split.
    { intros c' [<-|Hc']; auto. }
    split; [lia|]. split.
    + intros x Hx Hnx. destruct (in_dec Z.eq_dec x v1) as [Hin1|Hnin1].
      * exists c. split; [left; reflexivity|]. apply Hsound1; assumption.
      * destruct (Hsound2 x Hx Hnin1) as (c' & Hc' & Hs). exists c'. split; [right|]; assumption.
    + intros p cs c' Hp Hnp Hlook Hin. destruct (in_dec Z.eq_dec p v1) as [Hin1|Hnin1].
      * apply Hsub2. eapply Hclo1; eauto.
      * eapply Hclo2; eauto.
Qed.

Lemma dfs_traversal depth :
  forall node visited,
    In node nodes -> NoDup visited -> (unvisited nodes visited < depth)%nat ->
    exists size visited',
      dfs_calculate_subtree_size depth F_adj node visited = Ok (size, visited')
      /\ traversal_ok F_adj node visited size visited'.
Proof.
  induction depth as [|depth IH]; intros node visited Hnode Hnd Hm; [lia|].
  rewrite dfs_unfold. destruct (set_mem node visited) eqn:Hmem.
  - apply set_mem_In in Hmem. exists 0, visited. split; [reflexivity|].
    unfold traversal_ok. repeat split; auto; try lia; intros; tauto.
  - apply set_mem_false in Hmem.
    pose proof (unvisited_add nodes node visited Hnode Hmem) as Hdec.
    destruct (dfs_children depth IH (default [] (F_adj !! node)) 1 (set_add node visited))
      as (size1 & v1 & Hrun & Hnd1 & Hsub & Hch & Hsz & Hsound & Hclo).
    { intros c Hc. destruct (F_adj !! node) as [cs|] eqn:Hlook; simpl in Hc; [|tauto].
      eapply children_in_nodes; eauto. }
    { apply set_add_NoDup; assumption. }
    { lia. }
    exists size1, v1. split; [exact Hrun|].
    assert (In node v1) as Hn1 by (apply Hsub, set_add_In; left; reflexivity).
    unfold traversal_ok. split; [exact Hnd1|]. split.
    { intros x Hx. apply Hsub, set_add_In. right. exact Hx. }
    split; [exact Hn1|]. split.
    { rewrite set_add_len in Hsz by exact Hmem. lia. }
    split.
    + intros x Hx Hnx. destruct (Z.eq_dec x node) as [->|Hne]; [constructor|].
      destruct (Hsound x Hx) as (c & Hc & Hs).
      { rewrite set_add_In. tauto. }
      destruct (F_adj !! node) as [cs|] eqn:Hlook; simpl in Hc; [|tauto].
      eapply in_subtree_trans; [|exact Hs].
      eapply subtree_child; [constructor|exact Hlook|exact Hc].
    + intros p cs c Hp Hnp Hlook Hin. destruct (Z.eq_dec p node) as [->|Hne].
      * apply Hch. rewrite Hlook. exact Hin.
      * eapply Hclo; eauto. rewrite set_add_In. tauto.
Qed.

(** From an empty visited set the traversal visits exactly the subtree of
    the root and returns its number of vertices. *)
Lemma dfs_counts_the_subtree root size visited :
  In root nodes ->
  dfs_calculate_subtree_size (length nodes + 1) F_adj root [] = Ok (size, visited) ->
  NoDup visited /\ size = len visited
  /\ forall x, In x visited <-> in_subtree F_adj root x.
Proof.
  intros Hroot Hrun.
  destruct (dfs_traversal (length nodes + 1) root []) as
      (size' & visited' & Hrun' & Hnd & _ & Hin & Hsz & Hsound & Hclo).
  { exact Hroot. }
  { constructor. }
  { unfold unvisited. pose proof (List.filter_length_le
                                    (fun x => negb (set_mem x [])) nodes). lia. }
  assert (size = size' /\ visited = visited') as [-> ->]
      by (rewrite Hrun in Hrun'; inversion Hrun'; auto).
  split; [exact Hnd|]. split; [unfold len in *; simpl in Hsz; lia|].
  intros x. split.
  - intros Hx. apply Hsound; [exact Hx|]. simpl. tauto.
  - intros Hs. induction Hs as [|p cs c Hp IHp Hlook Hc]; [exact Hin|].
    eapply Hclo; eauto.
Qed.

Lemma dfs_returns root :
  In root nodes ->
  exists size visited,
    dfs_calculate_subtree_size (length nodes + 1) F_adj root [] = Ok (size, visited).
Proof.
  intros Hroot.
  destruct (dfs_traversal (length nodes + 1) root []) as (size & visited & Hrun & _).
  - exact Hroot.
  - constructor.
  - unfold unvisited. pose proof (List.filter_length_le
                                    (fun x => negb (set_mem x [])) nodes). lia.
  - eauto.
Qed.
End Traversal.

(** The forest has an edge [(p, c)] exactly for the vertices [c] of [W] whose
    predecessor [p] lies in [W] or [S]. *)
Lemma build_F_adj_edges g W srcs p c :
  In c (default [] (build_F_adj g W srcs !! p))
  <-> In c W /\ pred g !! c = Some (Some p) /\ (In p W \/ In p srcs).
Proof.
  unfold build_F_adj.
  assert (forall l (F0 : gmap Z (list Z)),
             In c (default [] (fold_left
               (fun F v_node =>
                  match pred g !! v_node with
                  | Some (Some p_node) =>
                    if set_mem p_node W || set_mem p_node srcs
                    then <[p_node := default [] (F !! p_node) ++ [v_node]]> F
                    else F
                  | _ => F
                  end) l F0 !! p))
             <-> In c (default [] (F0 !! p))
                 \/ (In c l /\ pred g !! c = Some (Some p) /\ (In p W \/ In p srcs)))
    as Hgen.
  { induction l as [|v l IH]; intros F0; simpl; [tauto|].
    rewrite IH. clear IH.
    destruct (pred g !! v) as [[q|]|] eqn:Hpv.
    - destruct (set_mem q W || set_mem q srcs) eqn:Hmem.
      + apply orb_true_iff in Hmem. rewrite !set_mem_In in Hmem.
        destruct (Z.eq_dec q p) as [->|Hne].
        * rewrite lookup_insert_eq. simpl. rewrite in_app_iff. simpl.
          intuition (subst; auto).
        * rewrite lookup_insert_ne by exact Hne.
          intuition (subst; try congruence).
      + apply orb_false_iff in Hmem. destruct Hmem as [H1 H2].
        apply set_mem_false in H1, H2.
        split; [tauto|]. intros [?|([<-|?] & Hp' & Hin)]; [tauto| |tauto].
        exfalso. assert (q = p) as -> by congruence. tauto.
    - intuition (subst; try congruence).
    - intuition (subst; try congruence). }
  rewrite Hgen, lookup_empty. simpl. tauto.
Qed.

Lemma build_F_adj_children g W srcs p children c :
  build_F_adj g W srcs !! p = Some children -> In c children -> In c W.
Proof.
  intros Hlook Hin.
  apply (proj1 (build_F_adj_edges g W srcs p c)). rewrite Hlook. exact Hin.
Qed.

(** The loop over the roots. *)
Lemma pivots_loop (F_adj : gmap Z (list Z)) (W : pyset) (k : Z) :
  forall roots P0 P,
    for_each roots
      (fun P s_root =>
         if set_mem s_root W then
           let* '(subtree_size, _) :=
             dfs_calculate_subtree_size (length W + 1) F_adj s_root [] in
           if subtree_size >=? k then Ok (set_add s_root P) else Ok P
         else Ok P)
      P0 = Ok P ->
    forall s, In s P <->
              In s P0
              \/ (In s roots /\ In s W
                  /\ exists size visited,
                      dfs_calculate_subtree_size (length W + 1) F_adj s []
                      = Ok (size, visited) /\ k <= size).
Proof.
  induction roots as [|r roots IH]; intros P0 P; cbn [for_each].
  - intros Heq. inversion Heq. subst. intros s. simpl. tauto.
  - destruct (set_mem r W) eqn:HrW.
    + destruct (dfs_calculate_subtree_size (length W + 1) F_adj r [])
        as [[size visited]|e] eqn:Hdfs; cbn [bind]; [|discriminate].
      apply set_mem_In in HrW.
      destruct (size >=? k) eqn:Hge; cbn [bind]; intros Hrest s;
        rewrite (IH _ _ Hrest s).
      * apply Z.geb_le in Hge. rewrite set_add_In. split.
        -- intros [[->|H]|(H1 & H2 & H3)].
           ++ right. split; [left; reflexivity|]. split; [exact HrW|]. eauto.
           ++ left. exact H.
           ++ right. split; [right; exact H1|]. split; assumption.
        -- intros [H|([<-|H1] & H2 & H3)].
           ++ left. right. exact H.
           ++ left. left. reflexivity.
           ++ right. split; [exact H1|]. split; assumption.
      * assert (size < k) as Hlt.
        { destruct (Z.geb_spec size k); [discriminate|lia]. }
        split.
        -- intros [H|(H1 & H2 & H3)].
           ++ left. exact H.
           ++ right. split; [right; exact H1|]. split; assumption.
        -- intros [H|([<-|H1] & H2 & (sz & vis & Hrun & Hk))].
           ++ left. exact H.
           ++ rewrite Hdfs in Hrun. inversion Hrun. subst. lia.
           ++ right. split; [exact H1|]. split; eauto.
    + cbn [bind]. intros Hrest s. rewrite (IH _ _ Hrest s).
      apply set_mem_false in HrW. split.
      * intros [H|(H1 & H2 & H3)].
        -- left. exact H.
        -- right. split; [right; exact H1|]. split; assumption.
      * intros [H|([<-|H1] & H2 & H3)].
        -- left. exact H.
        -- tauto.
        -- right. split; [exact H1|]. split; assumption.
Qed.

(** C6: whenever [FindPivots] returns [(P, W)], either some round
    i <= k was the first after which |W| > k*|S|, the result is the state of
    that round and P = S; or all k rounds ran without that, and P holds
    exactly the roots s of S that lie in W and whose traversal, started from
    an empty visited set of its own, counts at least k vertices.  That
    traversal visits exactly the subtree of s in the forest whose edges
    (pred[c], c) join the vertices c of W to a predecessor in W or S, and
    returns the number of its vertices. *)
Theorem FindPivots_result (g : globals) (B : num) (srcs : pyset) (graph : Graph)
  (P W : pyset) (g' : globals) :
  FindPivots g B srcs graph = Ok (P, W, g') ->
  let k := k_param g in
  (exists i next_Wi,
      (1 <= i <= Z.to_nat k)%nat
      /\ FindPivots_after i graph B g srcs srcs = Ok (g', W, next_Wi)
      /\ len W > k * len srcs
      /\ (forall j, (1 <= j < i)%nat -> ~ FindPivots_outgrown j graph B g srcs)
      /\ P = srcs)
  \/ (exists next_Wi,
         FindPivots_after (Z.to_nat k) graph B g srcs srcs = Ok (g', W, next_Wi)
         /\ (forall j, (1 <= j <= Z.to_nat k)%nat ->
                       ~ FindPivots_outgrown j graph B g srcs)
         /\ let F_adj := build_F_adj g' W srcs in
            (forall p c, In c (default [] (F_adj !! p)) <->
                         In c W /\ pred g' !! c = Some (Some p)
                         /\ (In p W \/ In p srcs))
            /\ forall s,
                In s P <->
                In s srcs /\ In s W
                /\ exists size visited,
                    dfs_calculate_subtree_size (length W + 1) F_adj s []
                    = Ok (size, visited)
                    /\ k <= size
                    /\ NoDup visited /\ size = len visited
                    /\ forall x, In x visited <-> in_subtree F_adj s x).
Proof.
  intros Hrun k. unfold FindPivots in Hrun.
  destruct (FindPivots_rounds (Z.to_nat (k_param g)) graph B srcs g srcs srcs)
    as [[[g1 W1] early]|e] eqn:Hrounds; cbn [bind] in Hrun; [|discriminate].
  apply (FindPivots_rounds_after _ _ _ _ k) in Hrounds; [|reflexivity].
  destruct Hrounds as [Hk1 Hrounds]. destruct early.
  - inversion Hrun. subst P W1 g1. left.
    destruct Hrounds as (i & next & Hi & Hafter & Hbig & Hbefore).
    exists i, next. repeat split; auto; try lia.
    intros j Hj (gj & Wj & nj & Haj & Hgt).
    specialize (Hbefore j gj Wj nj Hj Haj). fold k in Hgt. lia.
  - match type of Hrun with
    | bind ?m _ = _ => destruct m as [P1|e] eqn:Hloop; cbn [bind] in Hrun;
                         [|discriminate]
    end.
    inversion Hrun. subst P1 W1 g1. right.
    destruct Hrounds as (next & Hafter & Hall).
    exists next. split; [exact Hafter|]. split.
    { intros j Hj (gj & Wj & nj & Haj & Hgt).
      specialize (Hall j gj Wj nj Hj Haj). fold k in Hgt. lia. }
    cbv zeta. split; [intros p c; apply build_F_adj_edges|].
    intros s. rewrite Hk1 in Hloop.
    rewrite (pivots_loop _ _ _ _ _ _ Hloop s). simpl. split.
    + intros [[]|(Hs & HsW & size & visited & Hdfs & Hsize)].
      split; [exact Hs|]. split; [exact HsW|]. exists size, visited.
      split; [exact Hdfs|]. split; [exact Hsize|].
      eapply dfs_counts_the_subtree; eauto.
      intros p0 children c0. apply build_F_adj_children.
    + intros (Hs & HsW & size & visited & Hdfs & Hsize & _).
      right. split; [exact Hs|]. split; [exact HsW|]. eauto.
Qed.

Lemma FindPivots_result_witness :
  match FindPivots (initial_globals fresh_globals 4 0 1 1) Inf [0]
                   (build_graph chain_of_four) with
  | Ok (P, W, _) => P = [0] \/ forall s, In s P -> In s [0] /\ In s W
  | Raise _ => False
  end.
Proof.
  destruct (FindPivots (initial_globals fresh_globals 4 0 1 1) Inf [0]
                       (build_graph chain_of_four)) as [[[P W] g']|e] eqn:Hrun.
  - destruct (FindPivots_result _ _ _ _ _ _ _ Hrun)
      as [(i & next & _ & _ & _ & _ & HP)|(next & _ & _ & _ & HP)].
    + left. exact HP.
    + right. intros s Hs. apply HP in Hs. tauto.
  - vm_compute in Hrun. discriminate Hrun.
Defined.

(** Two roots, one below the other: with sources 0 and 1, the forest
    0 -> 1 -> 2 and k = 2, vertex 2 counts for root 0 (subtree of size 3) and
    again for root 1 (size 2), and both roots are pivots. *)
Lemma nested_roots_are_both_pivots :
  match FindPivots path_relaxed_state Inf [0; 1]
                   (build_graph [(0, 1, 1%Q); (1, 2, 1%Q)]) with
  | Ok (P, W, g') =>
    P = [0; 1] /\ W = [0; 1; 2]
    /\ dfs_calculate_subtree_size 4 (build_F_adj g' W [0; 1]) 0 [] = Ok (3, [0; 1; 2])
    /\ dfs_calculate_subtree_size 4 (build_F_adj g' W [0; 1]) 1 [] = Ok (2, [1; 2])
  | Raise _ => False
  end.
Proof. vm_compute. repeat split. Qed.

(** ** C7: termination *)

Lemma nre_bind {A B : Type} (m : result A) (f : A -> result B) :
  no_RecursionError m -> (forall a, m = Ok a -> no_RecursionError (f a)) ->
  no_RecursionError (bind m f).
Proof. destruct m as [a|e]; simpl; auto. Qed.

Lemma nre_for_each {A S : Type} (body : S -> A -> result S) (l : list A) :
  (forall s a, In a l -> no_RecursionError (body s a)) ->
  forall s, no_RecursionError (for_each l body s).
Proof.
  induction l as [|a l IH]; intros Hbody s; simpl; [exact I|].
  apply nre_bind; [apply Hbody; left; reflexivity|].
  intros s' _. apply IH. intros s0 a0 Ha0. apply Hbody. right. exact Ha0.
Qed.

Create HintDb nre.

Ltac nre :=
  repeat first
    [ exact I
    | solve [auto with nre]
    | apply nre_bind; [|intros ? ?]
    | apply nre_for_each; intros
    | match goal with
      | |- no_RecursionError (match ?x with _ => _ end) => destruct x eqn:?
      end ].

Lemma nre_subscript {V : Type} (d : gmap Z V) key : no_RecursionError (subscript d key).
Proof. unfold subscript. nre. Qed.
#[local] Hint Resolve nre_subscript : nre.

Lemma nre_Insert d key value a p : no_RecursionError (D.Insert d key value a p).
Proof. unfold D.Insert, D.pred_geb. nre. Qed.
#[local] Hint Resolve nre_Insert : nre.

Lemma nre_BatchPrepend d items : no_RecursionError (D.BatchPrepend d items).
Proof. unfold D.BatchPrepend. nre. Qed.
#[local] Hint Resolve nre_BatchPrepend : nre.

Lemma nre_pull_loop M0 values :
  forall v2k k2v S_prime pulled,
    no_RecursionError (D.pull_loop M0 values v2k k2v S_prime pulled).
Proof.
  induction values as [|v values IH]; intros v2k k2v S_prime pulled; simpl; [exact I|].
  nre.
Qed.
#[local] Hint Resolve nre_pull_loop : nre.

Lemma nre_Pull d : no_RecursionError (D.Pull d).
Proof. unfold D.Pull. nre. Qed.
#[local] Hint Resolve nre_Pull : nre.

Lemma nre_lt_pred_get g u v : no_RecursionError (lt_pred_get g u v).
Proof. unfold lt_pred_get. nre. Qed.
#[local] Hint Resolve nre_lt_pred_get : nre.

Lemma nre_BaseCase_relax B d a u st e : no_RecursionError (BaseCase_relax B d a u st e).
Proof. unfold BaseCase_relax, BaseCase_accepts. nre. Qed.
#[local] Hint Resolve nre_BaseCase_relax : nre.

Lemma nre_BaseCase_loop budget graph B :
  forall g U0 candidates H,
    no_RecursionError (BaseCase_loop budget graph B g U0 candidates H).
Proof.
  induction budget as [|budget IH]; intros g U0 candidates H; [exact I|].
  induction H as [|[[[d a] u] p] H IHH]; [exact I|].
  rewrite BaseCase_loop_cons. nre.
Qed.
#[local] Hint Resolve nre_BaseCase_loop : nre.

Lemma nre_py_index {A : Type} (l : list A) i : no_RecursionError (py_index l i).
Proof. unfold py_index. nre. Qed.
#[local] Hint Resolve nre_py_index : nre.

Lemma nre_BaseCase g B srcs graph : no_RecursionError (BaseCase g B srcs graph).
Proof. unfold BaseCase, BaseCase_completed. nre. Qed.
#[local] Hint Resolve nre_BaseCase : nre.

Lemma nre_FindPivots_relax B u st e : no_RecursionError (FindPivots_relax B u st e).
Proof. unfold FindPivots_relax, FindPivots_accepts. nre. Qed.
#[local] Hint Resolve nre_FindPivots_relax : nre.

Lemma nre_FindPivots_round graph B g W Wi :
  no_RecursionError (FindPivots_round graph B g W Wi).
Proof. unfold FindPivots_round. nre. Qed.
#[local] Hint Resolve nre_FindPivots_round : nre.

Lemma nre_FindPivots_rounds rounds graph B srcs :
  forall g W Wi, no_RecursionError (FindPivots_rounds rounds graph B srcs g W Wi).
Proof. induction rounds as [|rounds IH]; intros g W Wi; simpl; nre. Qed.
#[local] Hint Resolve nre_FindPivots_rounds : nre.

(** The depth [len(W) + 1] is enough for every root that lies in [W]. *)
Lemma nre_FindPivots g B srcs graph : no_RecursionError (FindPivots g B srcs graph).
Proof.
  unfold FindPivots. nre.
  match goal with
  | H : set_mem ?s ?W = true |- context [build_F_adj ?g1 ?W ?S0] =>
    apply set_mem_In in H;
      destruct (dfs_returns (build_F_adj g1 W S0) W
                            (build_F_adj_children g1 W S0) s H)
        as (size & visited & Hrun)
  end.
  rewrite Hrun. exact I.
Qed.
#[local] Hint Resolve nre_FindPivots : nre.

Lemma nre_insert_pivots g P d : no_RecursionError (insert_pivots g P d).
Proof. unfold insert_pivots. nre. Qed.
#[local] Hint Resolve nre_insert_pivots : nre.

Lemma nre_seed_neighbors g graph W d : no_RecursionError (seed_neighbors g graph W d).
Proof. unfold seed_neighbors. nre. Qed.
#[local] Hint Resolve nre_seed_neighbors : nre.

Lemma nre_min_d_hat g P : no_RecursionError (min_d_hat g P).
Proof. unfold min_d_hat. nre. Qed.
#[local] Hint Resolve nre_min_d_hat : nre.

Lemma nre_BMSSP_relax B Bi B_prime_i u st e :
  no_RecursionError (BMSSP_relax B Bi B_prime_i u st e).
Proof. unfold BMSSP_relax, BMSSP_accepts. nre. Qed.
#[local] Hint Resolve nre_BMSSP_relax : nre.

Lemma nre_relax_completed graph B Bi B_prime_i Ui g d :
  no_RecursionError (relax_completed graph B Bi B_prime_i Ui g d).
Proof. unfold relax_completed. nre. Qed.
#[local] Hint Resolve nre_relax_completed : nre.

Lemma nre_requeue_pulled g Bi B_prime_i Si batch :
  no_RecursionError (requeue_pulled g Bi B_prime_i Si batch).
Proof. unfold requeue_pulled. nre. Qed.
#[local] Hint Resolve nre_requeue_pulled : nre.

Lemma BMSSP_loop_unfold rec fuel graph B max_U g f :
  BMSSP_loop rec fuel graph B max_U g f
  = if size_below (current_U f) max_U && negb (D.is_empty (frame_D f)) then
      match fuel with
      | O =>
        Ok (g, mkFrame (frame_D f) (current_U f) (last_B_prime_i f)
                       (iteration_count f + 1) (stall_count f) (processed_vertices f))
      | S fuel' =>
        let* '(Bi, Si, d1) := D.Pull (frame_D f) in
        let stalled := issubset Si (processed_vertices f) in
        let stall_count' := if stalled then stall_count f + 1 else 0 in
        if stalled && (stall_count' >? 5) then
          Ok (g, mkFrame d1 (current_U f) (last_B_prime_i f)
                         (iteration_count f + 1) stall_count' (processed_vertices f))
        else
          let processed' :=
            if stalled then processed_vertices f
            else set_update (processed_vertices f) Si in
          let Bi := adjust_Bi g graph Si Bi in
          let* '(B_prime_i, Ui, g1) := rec g Bi Si in
          let* '(g2, d2, K_batch_prepend) :=
            relax_completed graph B Bi B_prime_i Ui g1 d1 in
          let* batch_items_to_add :=
            requeue_pulled g2 Bi B_prime_i Si K_batch_prepend in
          let* d3 := D.BatchPrepend d2 batch_items_to_add in
          BMSSP_loop rec fuel' graph B max_U g2
            (mkFrame d3 (set_update (current_U f) Ui) B_prime_i
                     (iteration_count f + 1) stall_count' processed')
      end
    else Ok (g, f).
Proof. destruct fuel; reflexivity. Qed.

Lemma nre_BMSSP_loop rec graph B max_U :
  (forall g B0 S0, no_RecursionError (rec g B0 S0)) ->
  forall fuel g f, no_RecursionError (BMSSP_loop rec fuel graph B max_U g f).
Proof.
  intros Hrec. induction fuel as [|fuel IH]; intros g f;
    rewrite BMSSP_loop_unfold; cbv zeta; nre.
Qed.

Lemma nre_BMSSP l graph :
  forall g B srcs, no_RecursionError (BMSSP l g B srcs graph).
Proof.
  induction l as [|l IH]; intros g B srcs; [apply nre_BaseCase|].
  cbn [BMSSP]. cbv zeta. nre. apply nre_BMSSP_loop. intros; apply IH.
Qed.
#[local] Hint Resolve nre_BMSSP : nre.






(** Zero-weight cycles, one of them unreachable: the solve returns. *)
Lemma solve_on_zero_weight_cycles (g0 : globals) :
  distances_of (solve_sssp_directed_real_weights g0 4 4
                  [(0, 1, 0%Q); (1, 0, 0%Q); (2, 3, 0%Q); (3, 2, 0%Q)] 0)
  = Ok [(0, Fin 0); (1, Fin 0)].
Proof. rewrite solve_4. vm_compute. reflexivity. Qed.

(** ** The frontier: what Insert and Pull do to the stored keys *)

Lemma stored_None d key :
  frontier_inv d -> (stored d key = None <-> D._key_to_value d !! key = None).
Proof.
  intros [_ (_ & _ & _ & _ & Hk2v & _)]. unfold stored.
  destruct (D._key_to_value d !! key) as [v|] eqn:Hlook; [|tauto].
  destruct (Hk2v key v Hlook) as (b & -> & Hmem). unfold dict_mem in Hmem.
  destruct (dict_get Z.eqb b key); [|discriminate]. split; discriminate.
Qed.

Lemma stored_add_same d value key a pred_v_id :
  stored (D._add_to_value_bucket d value key a pred_v_id) key
  = Some (value, (a, pred_v_id)).
Proof.
  unfold stored, D._add_to_value_bucket. cbn [D._key_to_value D._value_to_keys].
  rewrite lookup_insert_eq, v2k_get_set_same by apply num_eqb_refl.
  rewrite bucket_get_set_same. reflexivity.
Qed.

Lemma stored_add_other d value key a pred_v_id key' :
  frontier_inv d -> key' <> key ->
  stored (D._add_to_value_bucket d value key a pred_v_id) key' = stored d key'.
Proof.
  intros [_ (_ & _ & _ & _ & Hk2v & _)] Hne.
  unfold stored, D._add_to_value_bucket, dict_mem.
  cbn [D._key_to_value D._value_to_keys].
  rewrite lookup_insert_ne by congruence.
  destruct (D._key_to_value d !! key') as [v|] eqn:Hlook; [|reflexivity].
  destruct (Hk2v key' v Hlook) as (bv & Hbv & _). rewrite Hbv.
  destruct (num_eqb v value) eqn:E.
  - rewrite v2k_get_set_same by exact E.
    rewrite (v2k_get_congr _ v value E) in Hbv. rewrite Hbv. cbn [negb].
    rewrite Hbv. cbn [default from_option id].
    rewrite bucket_get_set_other by exact Hne. reflexivity.
  - rewrite v2k_get_set_other by exact E.
    destruct (dict_get num_eqb (D._value_to_keys d) value); cbn [negb].
    + rewrite Hbv. reflexivity.
    + rewrite v2k_get_set_other by exact E. rewrite Hbv. reflexivity.
Qed.

Lemma stored_remove_other d key key' :
  frontier_inv d -> key' <> key ->
  stored (D._remove_key d key) key' = stored d key'.
Proof.
  intros [_ Hwf] Hne. pose proof Hwf as (_ & _ & _ & _ & Hk2v & _).
  unfold D._remove_key.
  destruct (D._key_to_value d !! key) as [old|] eqn:Hold; [|reflexivity].
  destruct (Hk2v key old Hold) as (b & Hb & Hmem). rewrite Hb, Hmem.
  assert (is_nil b = false) as -> by (destruct b; [discriminate Hmem|reflexivity]).
  cbn [negb andb]. cbv zeta.
  unfold stored.
  destruct (is_nil (dict_del Z.eqb b key)) eqn:Hnil;
    cbn [D._key_to_value D._value_to_keys];
    rewrite lookup_delete_ne by congruence;
    (destruct (D._key_to_value d !! key') as [v|] eqn:Hlook; [|reflexivity]);
    destruct (Hk2v key' v Hlook) as (bv & Hbv & Hmem'); rewrite Hbv.
  - assert (dict_del Z.eqb b key = []) as Hdel
        by (destruct (dict_del Z.eqb b key); [reflexivity|discriminate]).
    destruct (num_eqb v old) eqn:E.
    + exfalso. rewrite (v2k_get_congr _ v old E), Hb in Hbv. inversion Hbv. subst bv.
      apply Hne. eapply bucket_del_empty; eauto.
    + rewrite v2k_get_del_other by exact E. rewrite Hbv. reflexivity.
  - destruct (num_eqb v old) eqn:E.
    + rewrite v2k_get_set_same by exact E.
      rewrite (v2k_get_congr _ v old E), Hb in Hbv. inversion Hbv. subst bv.
      rewrite bucket_get_del_other by exact Hne. reflexivity.
    + rewrite v2k_get_set_other by exact E. rewrite Hbv. reflexivity.
Qed.

(** On a well-formed frontier the two subscripts of [Insert] find what they
    look for, and the cascade of tests is a comparison of triples. *)
Lemma Insert_by_stored d key value a pred_v_id :
  frontier_inv d ->
  D.Insert d key value a pred_v_id
  = match stored d key with
    | None => Ok (D._add_to_value_bucket d value key a pred_v_id)
    | Some (old_value, (old_alpha, old_pred)) =>
      if num_ltb old_value value then Ok d
      else if num_eqb value old_value then
        if alpha_ltb old_alpha a then Ok d
        else if alpha_eqb a old_alpha then
          let* ge := D.pred_geb pred_v_id old_pred in
          if (ge : bool) then Ok d
          else Ok (D._add_to_value_bucket (D._remove_key d key) value key a pred_v_id)
        else Ok (D._add_to_value_bucket (D._remove_key d key) value key a pred_v_id)
      else Ok (D._add_to_value_bucket (D._remove_key d key) value key a pred_v_id)
    end.
Proof.
  intros [_ (_ & _ & _ & _ & Hk2v & _)]. unfold D.Insert, stored.
  destruct (D._key_to_value d !! key) as [old|] eqn:Hold; [|reflexivity].
  destruct (Hk2v key old Hold) as (b & -> & Hmem). unfold dict_mem in Hmem.
  cbn [bind].
  destruct (dict_get Z.eqb b key) as [[old_alpha old_pred]|]; [|discriminate].
  cbn [bind]. destruct (num_ltb old value); [reflexivity|].
  destruct (num_eqb value old); [|reflexivity].
  destruct (alpha_ltb old_alpha a); [reflexivity|].
  destruct (alpha_eqb a old_alpha); [|reflexivity].
  destruct (D.pred_geb pred_v_id old_pred) as [[|]|e]; reflexivity.
Qed.

Lemma num_ltb_asym a b : num_ltb a b = true -> num_ltb b a = false /\ num_eqb b a = false.
Proof.
  intros H. apply num_ltb_lt in H. split.
  - apply num_ltb_ge, num_lt_le, H.
  - apply num_eqb_false. apply num_lt_not_eqv', H.
Qed.

Lemma num_ltb_total a b : num_ltb a b = false -> num_eqb b a = false -> num_ltb b a = true.
Proof.
  intros H1 H2. apply num_ltb_ge in H1. apply num_eqb_false in H2.
  apply num_ltb_lt, num_le_neq_lt; assumption.
Qed.

Lemma num_eqb_not_ltb a b : num_eqb a b = true -> num_ltb a b = false /\ num_ltb b a = false.
Proof.
  intros H. apply num_eqb_eqv in H. split; apply num_ltb_ge, num_eqv_le.
  - apply num_eqv_sym, H.
  - exact H.
Qed.

Lemma alpha_ltb_asym a b :
  alpha_ltb a b = true -> alpha_ltb b a = false /\ alpha_eqb b a = false.
Proof. destruct a, b; simpl; try discriminate; auto. intros H. lia. Qed.

Lemma alpha_ltb_total a b :
  alpha_ltb a b = false -> alpha_eqb b a = false -> alpha_ltb b a = true.
Proof. destruct a, b; simpl; try discriminate; auto. intros H1 H2. lia. Qed.

Lemma alpha_eqb_not_ltb a b :
  alpha_eqb a b = true -> alpha_ltb a b = false /\ alpha_ltb b a = false.
Proof. destruct a, b; simpl; try discriminate; auto. intros H. lia. Qed.

Lemma alpha_eqb_refl a : alpha_eqb a a = true.
Proof. destruct a; simpl; [apply Z.eqb_refl|reflexivity]. Qed.

Lemma alpha_ltb_irrefl a : alpha_ltb a a = false.
Proof. destruct a; simpl; [apply Z.ltb_irrefl|reflexivity]. Qed.

Lemma num_ltb_irrefl a : num_ltb a a = false.
Proof. apply num_ltb_ge, num_le_refl. Qed.

(** X1.  [Insert] touches one key only, and leaves it stored with the
    lexicographically lower of the old and the new triple
    [(value, alpha, pred)]: the new triple when the key is new or the new
    triple is strictly below the stored one, the stored one otherwise. *)
Theorem Insert_keeps_the_lower_triple M0 B0 d key value a pred_v_id d' :
  reachable M0 B0 d -> D.Insert d key value a pred_v_id = Ok d' ->
  (forall key', key' <> key -> stored d' key' = stored d key')
  /\ stored d' key
     = match stored d key with
       | None => Some (value, (a, pred_v_id))
       | Some (old_value, (old_alpha, old_pred)) =>
         if triple_below value a pred_v_id old_value old_alpha old_pred
         then Some (value, (a, pred_v_id))
         else Some (old_value, (old_alpha, old_pred))
       end.
Proof.
  intros Hreach. destruct (reachable_inv _ _ _ Hreach) as (Hinv & _ & _).
  rewrite (Insert_by_stored _ _ _ _ _ Hinv).
  assert (forall key', key' <> key ->
            stored (D._add_to_value_bucket (D._remove_key d key) value key a pred_v_id) key'
            = stored d key') as Hframe.
  { intros key' Hne. destruct (remove_key_inv d key Hinv) as (Hinv' & _).
    rewrite stored_add_other by assumption. apply stored_remove_other; assumption. }
  unfold triple_below.
  destruct (stored d key) as [[old_value [old_alpha old_pred]]|] eqn:Hst.
  2:{ intros Hrun. inversion Hrun. split; [|apply stored_add_same].
      intros key' Hne. apply stored_add_other; assumption. }
  destruct (num_ltb old_value value) eqn:Hlt.
  { intros Hrun. inversion Hrun. subst d'. split; [reflexivity|].
    destruct (num_ltb_asym _ _ Hlt) as [-> ->]. exact Hst. }
  destruct (num_eqb value old_value) eqn:Heq.
  2:{ intros Hrun. inversion Hrun. rewrite (num_ltb_total _ _ Hlt Heq).
      split; [exact Hframe|apply stored_add_same]. }
  destruct (num_eqb_not_ltb _ _ Heq) as [-> _]. cbn [orb andb].
  destruct (alpha_ltb old_alpha a) eqn:Halt.
  { intros Hrun. inversion Hrun. subst d'. split; [reflexivity|].
    destruct (alpha_ltb_asym _ _ Halt) as [-> ->]. exact Hst. }
  destruct (alpha_eqb a old_alpha) eqn:Haeq.
  2:{ intros Hrun. inversion Hrun. rewrite (alpha_ltb_total _ _ Halt Haeq).
      split; [exact Hframe|apply stored_add_same]. }
  destruct (alpha_eqb_not_ltb _ _ Haeq) as [-> _]. cbn [orb andb].
  destruct pred_v_id as [x|], old_pred as [y|]; cbn [D.pred_geb bind]; try discriminate.
  destruct (Z.geb_spec x y) as [Hge|Hge]; intros Hrun; inversion Hrun.
  - subst d'. split; [reflexivity|].
    assert ((x <? y) = false) as -> by (apply Z.ltb_ge; lia). exact Hst.
  - assert ((x <? y) = true) as -> by (apply Z.ltb_lt; lia).
    split; [exact Hframe|apply stored_add_same].
Qed.

Lemma Insert_keeps_the_lower_triple_witness :
  match D.Insert (D.init 4 Inf) 7 (Fin 3) (AFin 2) (Some 1) with
  | Ok d =>
    match D.Insert d 7 (Fin 3) (AFin 1) (Some 5) with
    | Ok d' =>
      (forall key', key' <> 7 -> stored d' key' = stored d key')
      /\ stored d' 7 = Some (Fin 3, (AFin 1, Some 5))
    | Raise _ => False
    end
  | Raise _ => False
  end.
Proof.
  destruct (D.Insert (D.init 4 Inf) 7 (Fin 3) (AFin 2) (Some 1)) as [d|e] eqn:Hfirst;
    [|vm_compute in Hfirst; discriminate Hfirst].
  destruct (D.Insert d 7 (Fin 3) (AFin 1) (Some 5)) as [d'|e] eqn:Hrun.
  - assert (reachable 4 Inf d) as Hreach
        by (eapply reachable_Insert; [apply reachable_init|exact Hfirst]).
    destruct (Insert_keeps_the_lower_triple 4 Inf d 7 (Fin 3) (AFin 1) (Some 5) d'
                Hreach Hrun) as [Hframe Hkey].
    split; [exact Hframe|]. rewrite Hkey.
    inversion Hfirst. subst d. reflexivity.
  - inversion Hfirst. subst d. vm_compute in Hrun. discriminate Hrun.
Defined.

(** X2.  On a reachable frontier [Insert] raises nothing but TypeError, and
    raises it exactly when the key is stored with an equal value and an equal
    [alpha] and one of the two predecessors to compare is [None]. *)
Theorem Insert_raises_only_TypeError M0 B0 d key value a pred_v_id :
  reachable M0 B0 d ->
  (forall e, D.Insert d key value a pred_v_id = Raise e -> e = TypeError)
  /\ (D.Insert d key value a pred_v_id = Raise TypeError
      <-> exists old_value old_alpha old_pred,
            stored d key = Some (old_value, (old_alpha, old_pred))
            /\ num_eqb value old_value = true /\ alpha_eqb a old_alpha = true
            /\ (pred_v_id = None \/ old_pred = None)).
Proof.
  intros Hreach. destruct (reachable_inv _ _ _ Hreach) as (Hinv & _ & _).
  rewrite (Insert_by_stored _ _ _ _ _ Hinv).
  destruct (stored d key) as [[old_value [old_alpha old_pred]]|].
  2:{ split; [discriminate|]. split; [discriminate|]. intros (? & ? & ? & H & _).
      discriminate H. }
  assert (forall P : Prop,
             (exists v al p, Some (old_value, (old_alpha, old_pred)) = Some (v, (al, p))
                             /\ num_eqb value v = true /\ alpha_eqb a al = true
                             /\ (pred_v_id = None \/ p = None)) ->
             (num_eqb value old_value = true -> alpha_eqb a old_alpha = true ->
              pred_v_id = None \/ old_pred = None -> P) -> P) as Hex.
  { intros P (v & al & p & Heq & H1 & H2 & H3) HP. inversion Heq. subst. auto. }
  destruct (num_ltb old_value value) eqn:Hlt.
  { split; [discriminate|]. split; [discriminate|]. intros H. apply (Hex _ H).
    intros H1 _ _. destruct (num_eqb_not_ltb _ _ H1) as [_ H2]. congruence. }
  destruct (num_eqb value old_value) eqn:Heq.
  2:{ split; [discriminate|]. split; [discriminate|]. intros H. apply (Hex _ H).
      discriminate. }
  destruct (alpha_ltb old_alpha a) eqn:Halt.
  { split; [discriminate|]. split; [discriminate|]. intros H. apply (Hex _ H).
    intros _ H1 _. destruct (alpha_eqb_not_ltb _ _ H1) as [_ H2]. congruence. }
  destruct (alpha_eqb a old_alpha) eqn:Haeq.
  2:{ split; [discriminate|]. split; [discriminate|]. intros H. apply (Hex _ H).
      discriminate. }
  destruct pred_v_id as [x|], old_pred as [y|]; cbn [D.pred_geb bind].
  - destruct (x >=? y); (split; [discriminate|]); (split; [discriminate|]);
      intros H; apply (Hex _ H); intros _ _ [H1|H1]; discriminate H1.
  - split; [intros e He; inversion He; reflexivity|]. split; [|reflexivity].
    intros _. exists old_value, old_alpha, None. auto.
  - split; [intros e He; inversion He; reflexivity|]. split; [|reflexivity].
    intros _. exists old_value, old_alpha, (Some y). auto.
  - split; [intros e He; inversion He; reflexivity|]. split; [|reflexivity].
    intros _. exists old_value, old_alpha, None. auto.
Qed.

Lemma Insert_raises_only_TypeError_witness :
  match D.Insert (D.init 4 Inf) 0 zero (AFin 0) None with
  | Ok d =>
    (forall e, D.Insert d 0 zero (AFin 0) (Some 3) = Raise e -> e = TypeError)
    /\ (D.Insert d 0 zero (AFin 0) (Some 3) = Raise TypeError
        <-> exists old_value old_alpha old_pred,
              stored d 0 = Some (old_value, (old_alpha, old_pred))
              /\ num_eqb zero old_value = true /\ alpha_eqb (AFin 0) old_alpha = true
              /\ (Some 3 = None \/ old_pred = None))
  | Raise _ => False
  end.
Proof.
  destruct (D.Insert (D.init 4 Inf) 0 zero (AFin 0) None) as [d|e] eqn:Hfirst.
  - apply (Insert_raises_only_TypeError 4 Inf d 0 zero (AFin 0) (Some 3)).
    eapply reachable_Insert; [apply reachable_init|exact Hfirst].
  - vm_compute in Hfirst. discriminate Hfirst.
Defined.

Lemma Insert_again d0 key value a pred_v_id :
  D.Insert (D._add_to_value_bucket d0 value key a pred_v_id) key value a pred_v_id
  = let* ge := D.pred_geb pred_v_id pred_v_id in
    if (ge : bool) then Ok (D._add_to_value_bucket d0 value key a pred_v_id)
    else Ok (D._add_to_value_bucket
               (D._remove_key (D._add_to_value_bucket d0 value key a pred_v_id) key)
               value key a pred_v_id).
Proof.
  pose proof (stored_add_same d0 value key a pred_v_id) as Hst.
  unfold stored in Hst. unfold D.Insert.
  destruct (D._key_to_value (D._add_to_value_bucket d0 value key a pred_v_id) !! key)
    as [v|] eqn:Hv; [|discriminate].
  destruct (dict_get num_eqb
              (D._value_to_keys (D._add_to_value_bucket d0 value key a pred_v_id)) v)
    as [b|]; [|discriminate].
  cbn [bind]. destruct (dict_get Z.eqb b key) as [e|]; [|discriminate].
  inversion Hst. subst v e. cbn [bind].
  rewrite num_ltb_irrefl, num_eqb_refl, alpha_ltb_irrefl, alpha_eqb_refl. reflexivity.
Qed.

(** X3.  [Insert] is idempotent for an item whose predecessor is a vertex id:
    when a call returns, the same call on the frontier it leaves changes
    nothing. *)
Theorem Insert_twice_is_Insert_once d key value a p d' :
  D.Insert d key value a (Some p) = Ok d' ->
  D.Insert d' key value a (Some p) = Ok d'.
Proof.
  intros Hrun.
  assert (d' = d \/ exists d0, d' = D._add_to_value_bucket d0 value key a (Some p))
    as [->|[d0 ->]].
  { revert Hrun. unfold D.Insert.
    destruct (D._key_to_value d !! key) as [old|]; [|intros H; inversion H; eauto].
    destruct (dict_get num_eqb (D._value_to_keys d) old) as [b|]; [|discriminate].
    cbn [bind]. destruct (dict_get Z.eqb b key) as [[old_alpha old_pred]|]; [|discriminate].
    cbn [bind]. destruct (num_ltb old value); [intros H; inversion H; auto|].
    match goal with
    | |- (let* ignore := ?m in _) = _ -> _ => destruct m as [[|]|e]
    end; cbn [bind]; intros H; inversion H; eauto. }
  - exact Hrun.
  - rewrite Insert_again. cbn [D.pred_geb bind].
    assert ((p >=? p) = true) as -> by (apply Z.geb_le; lia). reflexivity.
Qed.

Lemma Insert_twice_is_Insert_once_witness :
  match D.Insert (D.init 4 Inf) 7 (Fin 3) (AFin 2) (Some 1) with
  | Ok d' => D.Insert d' 7 (Fin 3) (AFin 2) (Some 1) = Ok d'
  | Raise _ => False
  end.
Proof.
  destruct (D.Insert (D.init 4 Inf) 7 (Fin 3) (AFin 2) (Some 1)) as [d'|e] eqn:Hrun.
  - exact (Insert_twice_is_Insert_once _ 7 (Fin 3) (AFin 2) 1 d' Hrun).
  - vm_compute in Hrun. discriminate Hrun.
Defined.

(** X4.  A new key inserted with the predecessor [None] is stored, and the
    same call made again raises TypeError: the tie on value and [alpha] sends
    [Insert] to the test [None >= None]. *)
Theorem Insert_twice_with_no_predecessor_raises d key value a :
  D._key_to_value d !! key = None ->
  exists d', D.Insert d key value a None = Ok d'
             /\ stored d' key = Some (value, (a, None))
             /\ D.Insert d' key value a None = Raise TypeError.
Proof.
  intros Hfree. exists (D._add_to_value_bucket d value key a None).
  split; [unfold D.Insert; rewrite Hfree; reflexivity|].
  split; [apply stored_add_same|]. rewrite Insert_again. reflexivity.
Qed.

Lemma Insert_twice_with_no_predecessor_raises_witness :
  exists d', D.Insert (D.init 64 Inf) 0 zero (AFin 0) None = Ok d'
             /\ stored d' 0 = Some (zero, (AFin 0, None))
             /\ D.Insert d' 0 zero (AFin 0) None = Raise TypeError.
Proof.
  apply (Insert_twice_with_no_predecessor_raises (D.init 64 Inf) 0 zero (AFin 0)).
  reflexivity.
Defined.

(** The keys a run of the loop of [Pull] takes: they are added to [S_prime]
    and deleted from [_key_to_value], nothing else changes there. *)
Lemma pull_loop_keys M0 :
  forall values v2k k2v S_prime pulled values' v2k' k2v' S' pulled',
    D.pull_loop M0 values v2k k2v S_prime pulled = Ok (values', v2k', k2v', S', pulled') ->
    exists keys,
      k2v' = fold_left (fun m key => delete key m) keys k2v
      /\ S' = set_update S_prime keys.
Proof.
  induction values as [|v0 rest IH];
    intros v2k k2v S_prime pulled values' v2k' k2v' S' pulled'.
  - intros H. inversion H. exists []. auto.
  - rewrite pull_loop_cons. destruct (len S_prime <? M0).
    2:{ intros H. inversion H. exists []. auto. }
    cbv zeta.
    destruct (take_keys_spec M0 v0 (default [] (dict_get num_eqb v2k v0)) k2v S_prime pulled)
      as (taken & rest_b & _ & Hrun & _).
    match goal with
    | |- context [D.take_keys ?x ?y ?z ?w] =>
      replace (D.take_keys x y z w) with
        (rest_b, fold_left (fun m key => delete key m) (map fst taken) k2v,
         set_update S_prime (map fst taken), pulled ++ map (fun _ => v0) taken)
        by (symmetry; exact Hrun)
    end.
    destruct (is_nil rest_b).
    + destruct (dict_get num_eqb v2k v0); [|discriminate]. intros H.
      destruct (IH _ _ _ _ _ _ _ _ _ H) as (keys & -> & ->).
      exists (map fst taken ++ keys). unfold set_update.
      rewrite !fold_left_app. auto.
    + intros H. inversion H. exists (map fst taken). auto.
Qed.

(** The loop of [Pull] stops only when no value is left or [S_prime] is
    full. *)
Lemma pull_loop_stops M0 :
  forall values v2k k2v S_prime pulled values' v2k' k2v' S' pulled',
    D.pull_loop M0 values v2k k2v S_prime pulled = Ok (values', v2k', k2v', S', pulled') ->
    values' = [] \/ M0 <= len S'.
Proof.
  induction values as [|v0 rest IH];
    intros v2k k2v S_prime pulled values' v2k' k2v' S' pulled'.
  - intros H. inversion H. auto.
  - rewrite pull_loop_cons. destruct (len S_prime <? M0) eqn:Hroom.
    2:{ intros H. inversion H. subst. apply Z.ltb_ge in Hroom. auto. }
    cbv zeta.
    destruct (take_keys_spec M0 v0 (default [] (dict_get num_eqb v2k v0)) k2v S_prime pulled)
      as (taken & rest_b & _ & Hrun & Hstop & _).
    match goal with
    | |- context [D.take_keys ?x ?y ?z ?w] =>
      replace (D.take_keys x y z w) with
        (rest_b, fold_left (fun m key => delete key m) (map fst taken) k2v,
         set_update S_prime (map fst taken), pulled ++ map (fun _ => v0) taken)
        by (symmetry; exact Hrun)
    end.
    destruct rest_b as [|e0 rest_b]; cbn [is_nil].
    + destruct (dict_get num_eqb v2k v0); [|discriminate]. apply IH.
    + intros H. inversion H. subst. destruct Hstop as [Hnil|Hfull]; [discriminate|auto].
Qed.

Lemma wf_no_values values v2k k2v :
  frontier_wf values v2k k2v -> values = [] -> k2v = ∅.
Proof.
  intros (_ & _ & _ & Hbucket & Hk2v & _) ->. apply map_empty. intros key.
  destruct (k2v !! key) as [v|] eqn:Hlook; [|reflexivity]. exfalso.
  destruct (Hk2v key v Hlook) as (b & Hb & _).
  destruct (Hbucket v b Hb) as [_ (v' & [] & _)].
Qed.

Lemma wf_some_value values v2k (k2v : gmap Z num) key v :
  frontier_wf values v2k k2v -> k2v !! key = Some v -> values <> [].
Proof.
  intros Hwf Hlook ->. rewrite (wf_no_values _ _ _ Hwf eq_refl) in Hlook.
  rewrite lookup_empty in Hlook. discriminate.
Qed.

(** X5.  [Pull] removes from a reachable frontier exactly the keys it
    returns: a returned key is no longer stored, every other key is stored
    with the value it had, and every returned key was stored. *)
Theorem Pull_removes_the_pulled_keys M0 B0 d x S_prime d' :
  reachable M0 B0 d -> D.Pull d = Ok (x, S_prime, d') ->
  (forall key, D._key_to_value d' !! key
               = if set_mem key S_prime then None else D._key_to_value d !! key)
  /\ (forall key, In key S_prime -> D._key_to_value d !! key <> None).
Proof.
  intros Hreach Hrun. destruct (reachable_inv _ _ _ Hreach) as (Hinv & _ & _).
  destruct (Pull_spec d Hinv) as (x' & S'' & d'' & Hrun' & _ & _ & _ & Hcontract).
  rewrite Hrun in Hrun'. inversion Hrun'. subst x' S'' d''.
  split.
  - revert Hrun. unfold D.Pull.
    destruct (D.pull_loop (D.M d) (D._values d) (D._value_to_keys d)
                (D._key_to_value d) [] []) as [[[[[values' v2k'] k2v'] S'] pulled']|e]
      eqn:Hloop; [|discriminate].
    cbn [bind]. intros H. inversion H. subst. cbn [D._key_to_value].
    destruct (pull_loop_keys _ _ _ _ _ _ _ _ _ _ _ Hloop) as (keys & -> & ->).
    intros key. rewrite lookup_fold_delete.
    destruct (set_mem key keys) eqn:Hin.
    + apply set_mem_In in Hin.
      assert (In key (set_update [] keys)) as Hin' by (apply set_update_In; auto).
      apply set_mem_In in Hin'. rewrite Hin'. reflexivity.
    + destruct (set_mem key (set_update [] keys)) eqn:Hin'; [|reflexivity].
      apply set_mem_In, set_update_In in Hin'. destruct Hin' as [Hin'|[]].
      apply set_mem_In in Hin'. congruence.
  - intros key Hkey. destruct Hcontract as (_ & Hpulled & _).
    destruct (Hpulled key Hkey) as (v & -> & _). discriminate.
Qed.

Lemma Pull_removes_the_pulled_keys_witness :
  match D.BatchPrepend (D.init 2 (Fin 10))
          [(7, Fin 3, AFin 1, Some 0); (8, Fin 1, AFin 1, Some 0);
           (9, Fin 2, AFin 2, Some 7)] with
  | Ok d =>
    match D.Pull d with
    | Ok (x, S_prime, d') =>
      (forall key, D._key_to_value d' !! key
                   = if set_mem key S_prime then None else D._key_to_value d !! key)
      /\ (forall key, In key S_prime -> D._key_to_value d !! key <> None)
    | Raise _ => False
    end
  | Raise _ => False
  end.
Proof.
  destruct (D.BatchPrepend (D.init 2 (Fin 10))
              [(7, Fin 3, AFin 1, Some 0); (8, Fin 1, AFin 1, Some 0);
               (9, Fin 2, AFin 2, Some 7)]) as [d|e] eqn:Hbatch;
    [|vm_compute in Hbatch; discriminate Hbatch].
  destruct (D.Pull d) as [[[x S_prime] d']|e] eqn:Hrun.
  - apply (Pull_removes_the_pulled_keys 2 (Fin 10) d x S_prime d'); [|exact Hrun].
    eapply reachable_BatchPrepend; [apply reachable_init|exact Hbatch].
  - inversion Hbatch. subst d. vm_compute in Hrun. discriminate Hrun.
Defined.

(** X6.  [Pull] makes progress on a reachable frontier: it returns at least
    one key when the frontier is not empty, and it returns fewer than [M]
    keys only when it leaves the frontier empty. *)
Theorem Pull_makes_progress M0 B0 d x S_prime d' :
  reachable M0 B0 d -> D.Pull d = Ok (x, S_prime, d') ->
  (D.is_empty d = false -> S_prime <> [])
  /\ (len S_prime < D.M d -> D.is_empty d' = true).
Proof.
  intros Hreach Hrun. destruct (reachable_inv _ _ _ Hreach) as ([HM Hwf] & _ & _).
  destruct (pull_loop_spec (D.M d) _ _ _ [] [] Hwf)
    as (values' & v2k' & k2v' & S' & new & Hloop & Hwf' & _ & _ & _ & Hsome
        & _ & Hprogress & _); [unfold len; simpl; lia|].
  cbn [app] in Hloop. revert Hrun. unfold D.Pull. rewrite Hloop. cbn [bind].
  intros H. inversion H. subst. split.
  - intros Hne ->. unfold D.is_empty in Hne. apply Nat.eqb_neq in Hne.
    assert (D._key_to_value d <> ∅) as Hne'
        by (intros Heq; apply Hne; rewrite Heq; apply map_size_empty).
    apply map_choose in Hne'. destruct Hne' as (key & v & Hlook).
    pose proof (wf_some_value _ _ _ _ _ Hwf Hlook) as Hvalues.
    destruct new as [|p ps].
    + apply Hprogress; [exact Hvalues|unfold len; simpl; lia|reflexivity].
    + destruct (Hsome p) as (key' & _ & [] & _). left. reflexivity.
  - intros Hlen. destruct (pull_loop_stops _ _ _ _ _ _ _ _ _ _ _ Hloop) as [Hnil|Hfull];
      [|lia].
    unfold D.is_empty. cbn [D._key_to_value].
    rewrite (wf_no_values _ _ _ Hwf' Hnil). reflexivity.
Qed.

Lemma Pull_makes_progress_witness :
  match D.BatchPrepend (D.init 2 (Fin 10))
          [(7, Fin 3, AFin 1, Some 0); (8, Fin 1, AFin 1, Some 0);
           (9, Fin 2, AFin 2, Some 7)] with
  | Ok d =>
    match D.Pull d with
    | Ok (x, S_prime, d') =>
      (D.is_empty d = false -> S_prime <> [])
      /\ (len S_prime < D.M d -> D.is_empty d' = true)
    | Raise _ => False
    end
  | Raise _ => False
  end.
Proof.
  destruct (D.BatchPrepend (D.init 2 (Fin 10))
              [(7, Fin 3, AFin 1, Some 0); (8, Fin 1, AFin 1, Some 0);
               (9, Fin 2, AFin 2, Some 7)]) as [d|e] eqn:Hbatch;
    [|vm_compute in Hbatch; discriminate Hbatch].
  destruct (D.Pull d) as [[[x S_prime] d']|e] eqn:Hrun.
  - apply (Pull_makes_progress 2 (Fin 10) d x S_prime d'); [|exact Hrun].
    eapply reachable_BatchPrepend; [apply reachable_init|exact Hbatch].
  - inversion Hbatch. subst d. vm_compute in Hrun. discriminate Hrun.
Defined.

(** ** Invariants of the module state across BaseCase, FindPivots and BMSSP *)

Lemma for_each_invariant_In {A S : Type} (P : S -> Prop) (body : S -> A -> result S) :
  forall (l : list A),
    (forall s a s', In a l -> P s -> body s a = Ok s' -> P s') ->
    forall s s', P s -> for_each l body s = Ok s' -> P s'.
Proof.
  induction l as [|a l IH]; intros Hbody s s' Hs; simpl.
  - intros H. inversion H. subst. exact Hs.
  - destruct (body s a) as [s1|e] eqn:Hb; simpl; [|discriminate].
    apply IH.
    + intros s0 a0 s0' Hin. apply Hbody. right. exact Hin.
    + eapply Hbody; eauto. left. reflexivity.
Qed.

Lemma heappush_In H e e' : In e' (heappush H e) <-> e' = e \/ In e' H.
Proof.
  induction H as [|h H IH]; simpl.
  - intuition congruence.
  - destruct (heap_ltb e h); simpl; [intuition congruence|]. rewrite IH. tauto.
Qed.

Lemma d_hat_get_set_vertex g v d a p x :
  d_hat_get (set_vertex g v d a p) x = if decide (x = v) then d else d_hat_get g x.
Proof.
  unfold d_hat_get, set_vertex. cbn [d_hat]. destruct (decide (x = v)) as [->|Hne].
  - rewrite lookup_insert_eq. reflexivity.
  - rewrite lookup_insert_ne by congruence. reflexivity.
Qed.

Lemma path_alpha_get_set_vertex g v d a p x :
  path_alpha_get (set_vertex g v d a p) x
  = if decide (x = v) then a else path_alpha_get g x.
Proof.
  unfold path_alpha_get, set_vertex. cbn [path_alpha]. destruct (decide (x = v)) as [->|Hne].
  - rewrite lookup_insert_eq. reflexivity.
  - rewrite lookup_insert_ne by congruence. reflexivity.
Qed.

Lemma BaseCase_accepts_le B g current_d current_alpha u v w :
  BaseCase_accepts B g current_d current_alpha u v w = Ok true ->
  num_le (num_add current_d (Fin w)) (d_hat_get g v).
Proof.
  unfold BaseCase_accepts. cbv zeta.
  destruct (num_ltb (num_add current_d (Fin w)) B); [|discriminate].
  destruct (num_ltb (num_add current_d (Fin w)) (d_hat_get g v)) eqn:Hlt.
  { intros _. apply num_lt_le, num_ltb_lt, Hlt. }
  destruct (num_eqb (num_add current_d (Fin w)) (d_hat_get g v)) eqn:Heq; [|discriminate].
  intros _. apply num_eqv_le, num_eqb_eqv, Heq.
Qed.

Lemma FindPivots_accepts_le g u v w :
  FindPivots_accepts g u v w = Ok true ->
  num_le (num_add (d_hat_get g u) (Fin w)) (d_hat_get g v).
Proof.
  unfold FindPivots_accepts, subscript.
  destruct (d_hat g !! u) as [d_u|] eqn:Hu; [|discriminate].
  assert (d_hat_get g u = d_u) as -> by (unfold d_hat_get; rewrite Hu; reflexivity).
  cbn [bind].
  destruct (path_alpha g !! u) as [a_u|]; [|discriminate]. cbn [bind].
  cbv zeta.
  destruct (num_ltb (num_add d_u (Fin w)) (d_hat_get g v)) eqn:Hlt.
  { intros _. apply num_lt_le, num_ltb_lt, Hlt. }
  destruct (num_eqb (num_add d_u (Fin w)) (d_hat_get g v)) eqn:Heq; [|discriminate].
  intros _. apply num_eqv_le, num_eqb_eqv, Heq.
Qed.

Lemma BMSSP_accepts_le g u v w :
  BMSSP_accepts g u v w = Ok true ->
  num_le (num_add (d_hat_get g u) (Fin w)) (d_hat_get g v).
Proof. exact (FindPivots_accepts_le g u v w). Qed.

Section Invariant.

(** [P] is a property of the module state and [V u d a] a property of an
    estimate [d] with edge count [a] for the vertex [u].  The state gives
    each vertex an estimate with [V], and [P] survives the one write the
    three functions make: [d_hat[v]], [path_alpha[v]], [pred[v]] set from an
    estimate of [u] with [V] along an edge [(u, v, w)], when that does not
    raise the estimate of [v]. *)
Variable graph : Graph.
Variable P : globals -> Prop.
Variable V : Z -> num -> alpha -> Prop.
Hypothesis P_read : forall g u, P g -> V u (d_hat_get g u) (path_alpha_get g u).
Hypothesis P_step : forall g u v w d a,
  P g -> V u d a -> In (v, w) (default [] (graph !! u)) ->
  num_le (num_add d (Fin w)) (d_hat_get g v) ->
  P (set_vertex g v (num_add d (Fin w)) (alpha_succ a) u).

Lemma inv_BaseCase_relax B current_d current_alpha u g H e g' H' :
  P g -> heap_ok V H -> V u current_d current_alpha ->
  In e (default [] (graph !! u)) ->
  BaseCase_relax B current_d current_alpha u (g, H) e = Ok (g', H') ->
  P g' /\ heap_ok V H'.
Proof.
  intros HP HH HV Hin. destruct e as [v w]. unfold BaseCase_relax.
  destruct (BaseCase_accepts B g current_d current_alpha u v w) as [[|]|] eqn:Hacc;
    cbn [bind]; intros Hrun; inversion Hrun; subst; [|auto].
  assert (P (set_vertex g v (num_add current_d (Fin w)) (alpha_succ current_alpha) u))
    as HP'
      by (apply P_step; [exact HP|exact HV|exact Hin|eapply BaseCase_accepts_le; exact Hacc]).
  split; [exact HP'|]. intros d a x p Hx. apply heappush_In in Hx.
  destruct Hx as [Heq|Hx]; [|eauto]. inversion Heq. subst.
  pose proof (P_read _ v HP') as Hv.
  rewrite d_hat_get_set_vertex, path_alpha_get_set_vertex in Hv.
  destruct (decide (v = v)); [exact Hv|congruence].
Qed.

Lemma inv_BaseCase_loop budget B :
  forall g U0 candidates H g' U0' candidates',
    P g -> heap_ok V H ->
    BaseCase_loop budget graph B g U0 candidates H = Ok (g', U0', candidates') ->
    P g'.
Proof.
  induction budget as [|budget IH]; intros g U0 candidates H g' U0' candidates' HP HH.
  - simpl. intros Heq. inversion Heq. subst. exact HP.
  - induction H as [|[[[current_d current_alpha] u] current_pred_u] H IHH].
    + rewrite BaseCase_loop_nil. intros Heq. inversion Heq. subst. exact HP.
    + assert (heap_ok V H) as HH' by (intros d a x p Hx; eapply HH; right; exact Hx).
      assert (V u current_d current_alpha) as HV by (eapply HH; left; reflexivity).
      rewrite BaseCase_loop_cons.
      destruct (BaseCase_stale g (current_d, current_alpha, u, current_pred_u));
        [exact (IHH HH')|].
      destruct (set_mem u U0); [exact (IHH HH')|].
      match goal with
      | |- context [for_each ?l ?b ?s] =>
        destruct (for_each l b s) as [[g1 H1]|e] eqn:Hrelax; cbn [bind]; [|discriminate]
      end.
      assert (P g1 /\ heap_ok V H1) as [HP1 HH1].
      { refine (for_each_invariant_In
                  (fun st : globals * list heap_entry => P (fst st) /\ heap_ok V (snd st))
                  _ _ _ (g, H) (g1, H1) _ Hrelax); [|split; assumption].
        intros [g2 H2] e [g3 H3] Hin [HP2 HH2] Hb. cbn [fst snd] in *.
        eapply inv_BaseCase_relax; eauto. }
      apply IH; assumption.
Qed.

Lemma heap_ok_seed g :
  P g -> forall S H, heap_ok V H ->
  heap_ok V (fold_left
             (fun H x => heappush H (d_hat_get g x, path_alpha_get g x, x,
                                     pred_or_minus_one g x)) S H).
Proof.
  intros HP. induction S as [|x S IH]; intros H HH; [exact HH|].
  cbn [fold_left]. apply IH. intros d a u p Hin. apply heappush_In in Hin.
  destruct Hin as [Heq|Hin]; [|eauto]. inversion Heq. subst. apply P_read, HP.
Qed.

Lemma inv_BaseCase g B S B' U g' :
  P g -> BaseCase g B S graph = Ok (B', U, g') -> P g'.
Proof.
  intros HP. unfold BaseCase, BaseCase_completed.
  destruct (BaseCase_loop _ _ _ _ _ _ _) as [[[g1 U0] candidates]|e] eqn:Hloop;
    cbn [bind]; [|discriminate].
  assert (P g1) as HP1.
  { eapply inv_BaseCase_loop; [exact HP| |exact Hloop].
    apply heap_ok_seed; [exact HP|]. intros d a u p []. }
  destruct (len U0 <=? k_param g1); [intros H; inversion H; subst; exact HP1|].
  cbv zeta.
  match goal with
  | |- (let* B_prime := ?m in _) = _ -> _ => destruct m as [B_prime|e]
  end; cbn [bind]; intros H; inversion H; subst; exact HP1.
Qed.

Lemma inv_FindPivots_relax B u g W Wi e g' W' Wi' :
  P g -> In e (default [] (graph !! u)) ->
  FindPivots_relax B u (g, W, Wi) e = Ok (g', W', Wi') -> P g'.
Proof.
  intros HP Hin. destruct e as [v w]. unfold FindPivots_relax.
  destruct (FindPivots_accepts g u v w) as [[|]|] eqn:Hacc; cbn [bind]; [| |discriminate];
    cbv zeta;
    match goal with |- context [if ?c then _ else _] => destruct c end;
    intros Heq; inversion Heq; subst; try exact HP;
    (apply P_step; [exact HP|apply P_read, HP|exact Hin|apply FindPivots_accepts_le, Hacc]).
Qed.

Lemma inv_FindPivots_round B g W Wi g' W' Wi' :
  P g -> FindPivots_round graph B g W Wi = Ok (g', W', Wi') -> P g'.
Proof.
  unfold FindPivots_round. intros HP Hrun.
  refine (for_each_invariant
            (fun st : globals * pyset * pyset => P (fst (fst st)))
            _ _ _ _ _ _ Hrun); [|exact HP].
  intros [[g1 W1] Wi1] u [[g2 W2] Wi2] HP1 Hb. cbn [fst snd] in *.
  destruct (graph !! u) as [edges|] eqn:Hu; [|inversion Hb; subst; exact HP1].
  refine (for_each_invariant_In
            (fun st : globals * pyset * pyset => P (fst (fst st)))
            _ _ _ _ _ _ Hb); [|exact HP1].
  intros [[g3 W3] Wi3] e [[g4 W4] Wi4] Hin HP3 Hr. cbn [fst snd] in *.
  eapply inv_FindPivots_relax; [exact HP3| |exact Hr]. rewrite Hu. exact Hin.
Qed.

Lemma inv_FindPivots_rounds rounds B srcs :
  forall g W Wi g' W' early,
    P g -> FindPivots_rounds rounds graph B srcs g W Wi = Ok (g', W', early) -> P g'.
Proof.
  induction rounds as [|rounds IH]; intros g W Wi g' W' early HP; simpl.
  - intros H. inversion H. subst. exact HP.
  - destruct (FindPivots_round graph B g W Wi) as [[[g1 W1] Wi1]|e] eqn:Hround;
      cbn [bind]; [|discriminate].
    pose proof (inv_FindPivots_round _ _ _ _ _ _ _ HP Hround) as HP1.
    destruct (len W1 >? k_param g1 * len srcs).
    + intros H. inversion H. subst. exact HP1.
    + apply IH. exact HP1.
Qed.

Lemma inv_FindPivots g B S Pv W g' :
  P g -> FindPivots g B S graph = Ok (Pv, W, g') -> P g'.
Proof.
  intros HP. unfold FindPivots.
  destruct (FindPivots_rounds _ _ _ _ _ _ _) as [[[g1 W1] early]|e] eqn:Hrounds;
    cbn [bind]; [|discriminate].
  pose proof (inv_FindPivots_rounds _ _ _ _ _ _ _ _ _ HP Hrounds) as HP1.
  destruct early; [intros H; inversion H; subst; exact HP1|].
  cbv zeta.
  match goal with
  | |- context [for_each ?l ?b ?s] => destruct (for_each l b s) as [Pv0|e]
  end; cbn [bind]; intros H; inversion H; subst; exact HP1.
Qed.

Lemma inv_BMSSP_relax B Bi B_prime_i u g d K e g' d' K' :
  P g -> In e (default [] (graph !! u)) ->
  BMSSP_relax B Bi B_prime_i u (g, d, K) e = Ok (g', d', K') -> P g'.
Proof.
  intros HP Hin. destruct e as [v w]. unfold BMSSP_relax.
  destruct (BMSSP_accepts g u v w) as [[|]|] eqn:Hacc; cbn [bind]; [| |discriminate].
  2:{ intros H. inversion H. subst. exact HP. }
  cbv zeta.
  assert (P (set_vertex g v (num_add (d_hat_get g u) (Fin w))
                        (alpha_succ (path_alpha_get g u)) u)) as HP'
      by (apply P_step; [exact HP|apply P_read, HP|exact Hin|apply BMSSP_accepts_le, Hacc]).
  destruct (HEURISTICS_ENABLED && HEURISTICS_RELAX_INSERT).
  { destruct (D.Insert _ _ _ _ _); cbn [bind]; intros H; inversion H; subst. exact HP'. }
  destruct (num_leb Bi _ && _).
  { destruct (D.Insert _ _ _ _ _); cbn [bind]; intros H; inversion H; subst. exact HP'. }
  destruct (num_leb B_prime_i _ && _); intros H; inversion H; subst; exact HP'.
Qed.

Lemma inv_relax_completed B Bi B_prime_i Ui g d g' d' K' :
  P g -> relax_completed graph B Bi B_prime_i Ui g d = Ok (g', d', K') -> P g'.
Proof.
  unfold relax_completed. intros HP Hrun.
  refine (for_each_invariant
            (fun st : globals * D.t * list D.item => P (fst (fst st)))
            _ _ _ _ _ _ Hrun); [|exact HP].
  intros [[g1 d1] K1] u [[g2 d2] K2] HP1 Hb. cbn [fst snd] in *.
  destruct (graph !! u) as [edges|] eqn:Hu; [|inversion Hb; subst; exact HP1].
  refine (for_each_invariant_In
            (fun st : globals * D.t * list D.item => P (fst (fst st)))
            _ _ _ _ _ _ Hb); [|exact HP1].
  intros [[g3 d3] K3] e [[g4 d4] K4] Hin HP3 Hr. cbn [fst snd] in *.
  eapply inv_BMSSP_relax; [exact HP3| |exact Hr]. rewrite Hu. exact Hin.
Qed.

Lemma inv_BMSSP_loop rec B max_U :
  (forall g B0 S0 B' U g', P g -> rec g B0 S0 = Ok (B', U, g') -> P g') ->
  forall fuel g f g' f',
    P g -> BMSSP_loop rec fuel graph B max_U g f = Ok (g', f') -> P g'.
Proof.
  intros Hrec. induction fuel as [|fuel IH]; intros g f g' f' HP;
    rewrite BMSSP_loop_unfold;
    destruct (size_below (current_U f) max_U && negb (D.is_empty (frame_D f)));
    try (intros H; inversion H; subst; exact HP).
  destruct (D.Pull (frame_D f)) as [[[Bi Si] d1]|e]; cbn [bind]; [|discriminate].
  cbv zeta.
  destruct (issubset Si (processed_vertices f) && _);
    [intros H; inversion H; subst; exact HP|].
  destruct (rec g (adjust_Bi g graph Si Bi) Si) as [[[B_prime_i Ui] g1]|e] eqn:Hcall;
    cbn [bind]; [|discriminate].
  pose proof (Hrec _ _ _ _ _ _ HP Hcall) as HP1.
  destruct (relax_completed _ _ _ _ _ _ _) as [[[g2 d2] K]|e] eqn:Hrelax;
    cbn [bind]; [|discriminate].
  pose proof (inv_relax_completed _ _ _ _ _ _ _ _ _ HP1 Hrelax) as HP2.
  destruct (requeue_pulled _ _ _ _ _) as [batch|e]; cbn [bind]; [|discriminate].
  destruct (D.BatchPrepend _ _) as [d3|e]; cbn [bind]; [|discriminate].
  apply IH. exact HP2.
Qed.

Lemma inv_BMSSP l :
  forall g B srcs B' U g',
    P g -> BMSSP l g B srcs graph = Ok (B', U, g') -> P g'.
Proof.
  induction l as [|l IH]; intros g B srcs B' U g' HP; [apply inv_BaseCase; exact HP|].
  cbn [BMSSP].
  destruct (FindPivots g B srcs graph) as [[[Pv W] g1]|e] eqn:Hfp; cbn [bind]; [|discriminate].
  pose proof (inv_FindPivots _ _ _ _ _ _ HP Hfp) as HP1. cbv zeta.
  destruct (insert_pivots g1 Pv _) as [d1|e]; cbn [bind]; [|discriminate].
  match goal with
  | |- (let* d2 := ?m in _) = _ -> _ => destruct m as [d2|e]
  end; cbn [bind]; [|discriminate].
  match goal with
  | |- (let* B_prime_0 := ?m in _) = _ -> _ => destruct m as [B_prime_0|e]
  end; cbn [bind]; [|discriminate].
  destruct (BMSSP_loop _ _ _ _ _ _ _) as [[g2 f]|e] eqn:Hloop; cbn [bind]; [|discriminate].
  intros H. inversion H. subst.
  eapply inv_BMSSP_loop; [|exact HP1|exact Hloop].
  intros g0 B0 S0 B1 U1 g3. apply IH.
Qed.

End Invariant.

(** *** The module state a solve starts from and the map it returns *)

Lemma initial_globals_d_hat g0 n source k t v :
  d_hat_get (initial_globals g0 n source k t) v
  = if decide (v = source) then zero else Inf.
Proof.
  unfold d_hat_get, initial_globals. cbn [d_hat].
  destruct (decide (v = source)) as [->|Hne].
  - rewrite lookup_insert_eq. reflexivity.
  - rewrite lookup_insert_ne by congruence. rewrite lookup_fill.
    destruct (decide (v ∈ range n)); [reflexivity|].
    unfold dict_clear. rewrite lookup_empty. reflexivity.
Qed.

Lemma initial_globals_path_alpha g0 n source k t v :
  path_alpha_get (initial_globals g0 n source k t) v
  = if decide (v = source) then AFin 0 else AInf.
Proof.
  unfold path_alpha_get, initial_globals. cbn [path_alpha].
  destruct (decide (v = source)) as [->|Hne].
  - rewrite lookup_insert_eq. reflexivity.
  - rewrite lookup_insert_ne by congruence. rewrite lookup_fill.
    destruct (decide (v ∈ range n)); [reflexivity|].
    unfold dict_clear. rewrite lookup_empty. reflexivity.
Qed.

Lemma initial_globals_pred g0 n source k t v u :
  pred (initial_globals g0 n source k t) !! v <> Some (Some u).
Proof.
  unfold initial_globals. cbn [pred]. rewrite lookup_fill.
  destruct (decide (v ∈ range n)); [discriminate|].
  unfold dict_clear. rewrite lookup_empty. discriminate.
Qed.

Lemma result_distances_In g r :
  result_distances g = Ok r ->
  forall v d, In (v, d) r
              <-> 0 <= v < N_vertices g /\ d_hat g !! v = Some d /\ num_eqb d Inf = false.
Proof.
  unfold result_distances. intros Hrun v d.
  rewrite <- elem_of_range, list_elem_of_In.
  assert (forall l acc r0,
             for_each l
               (fun r1 v0 => let* d_v := subscript (d_hat g) v0 in
                             if num_eqb d_v Inf then Ok r1 else Ok (r1 ++ [(v0, d_v)]))
               acc = Ok r0 ->
             (In (v, d) r0
              <-> In (v, d) acc
                  \/ (In v l /\ d_hat g !! v = Some d /\ num_eqb d Inf = false))) as Hgen.
  { induction l as [|x l IH]; intros acc r0; simpl.
    - intros H. inversion H. tauto.
    - unfold subscript at 1. destruct (d_hat g !! x) as [d_x|] eqn:Hx; [|discriminate].
      cbn [bind]. destruct (num_eqb d_x Inf) eqn:Hinf; intros H; apply IH in H; rewrite H.
      + split; [tauto|]. intros [Hacc|([->|Hin] & Hd & Hne)]; [tauto| |tauto].
        rewrite Hx in Hd. inversion Hd. subst. congruence.
      + rewrite in_app_iff. simpl. split.
        * intros [[Hacc|[Heq|[]]]|Hin]; [tauto| |tauto].
          inversion Heq. subst. right. auto.
        * intros [Hacc|([->|Hin] & Hd & Hne)]; [tauto| |tauto].
          rewrite Hx in Hd. inversion Hd. subst. auto. }
  rewrite (Hgen _ _ _ Hrun). simpl. tauto.
Qed.

(** A solve that returns: the state [BMSSP] ran from and the state it left,
    from which the map is read. *)
Lemma solve_Ok g0 n m_val edges source distances g :
  solve_sssp_directed_real_weights g0 n m_val edges source = Ok (distances, g) ->
  exists k t l B' U,
    BMSSP l (initial_globals g0 n source k t) Inf [source] (build_graph edges)
    = Ok (B', U, g)
    /\ k = derive_k_param (Z.max 2 n) /\ t = derive_t_param (Z.max 2 n)
    /\ result_distances g = Ok distances.
Proof.
  unfold solve_sssp_directed_real_weights, run_BMSSP. cbv zeta.
  destruct (BMSSP _ _ _ _ _) as [[[B' U] g1]|e] eqn:Hrun; cbn [bind]; [|discriminate].
  destruct (result_distances g1) as [r|e] eqn:Hres; cbn [bind]; [|discriminate].
  intros H. inversion H. subst. eauto 10.
Qed.

(** *** Four invariants *)

Lemma BMSSP_same_params graph l g B srcs B' U g' :
  BMSSP l g B srcs graph = Ok (B', U, g') -> same_params g g'.
Proof.
  intros Hrun.
  refine (inv_BMSSP graph (same_params g) (fun _ _ _ => True) _ _ l _ _ _ _ _ _ _ Hrun).
  - auto.
  - intros g1 u v w d a Hp _ _ _. eapply same_params_trans; [exact Hp|].
    unfold same_params. apply set_vertex_params.
  - apply same_params_refl.
Qed.

Lemma BMSSP_estimates_le graph l g B srcs B' U g' :
  BMSSP l g B srcs graph = Ok (B', U, g') ->
  forall v, num_le (d_hat_get g' v) (d_hat_get g v).
Proof.
  intros Hrun.
  refine (inv_BMSSP graph (fun g1 => forall v, num_le (d_hat_get g1 v) (d_hat_get g v))
            (fun _ _ _ => True) _ _ l _ _ _ _ _ _ _ Hrun).
  - auto.
  - intros g1 u v w d a Hp _ _ Hle x. rewrite d_hat_get_set_vertex.
    destruct (decide (x = v)) as [->|_]; [|apply Hp].
    eapply num_le_trans; [exact Hle|apply Hp].
  - intros v. apply num_le_refl.
Qed.

Lemma BMSSP_reached_by_walk graph source l g B srcs B' U g' :
  (forall u, reached_by_walk graph source u (d_hat_get g u) (path_alpha_get g u)) ->
  BMSSP l g B srcs graph = Ok (B', U, g') ->
  forall u, reached_by_walk graph source u (d_hat_get g' u) (path_alpha_get g' u).
Proof.
  intros Hstart Hrun.
  refine (inv_BMSSP graph
            (fun g1 => forall u, reached_by_walk graph source u (d_hat_get g1 u)
                                                 (path_alpha_get g1 u))
            (reached_by_walk graph source) _ _ l _ _ _ _ _ _ Hstart Hrun).
  - auto.
  - intros g1 u v w d a Hp Hu Hin _ x.
    rewrite d_hat_get_set_vertex, path_alpha_get_set_vertex.
    destruct (decide (x = v)) as [->|_]; [|apply Hp].
    destruct Hu as [->|(q & n & -> & -> & Hwalk)]; [left; reflexivity|].
    right. exists (q + w)%Q, (n + 1). split; [reflexivity|]. split; [reflexivity|].
    econstructor; eauto.
Qed.

Lemma BMSSP_pred_edges graph l g B srcs B' U g' :
  (forall v u, pred g !! v = Some (Some u) ->
               exists w, In (v, w) (default [] (graph !! u))) ->
  BMSSP l g B srcs graph = Ok (B', U, g') ->
  forall v u, pred g' !! v = Some (Some u) ->
              exists w, In (v, w) (default [] (graph !! u)).
Proof.
  intros Hstart Hrun.
  refine (inv_BMSSP graph
            (fun g1 => forall v u, pred g1 !! v = Some (Some u) ->
                                   exists w, In (v, w) (default [] (graph !! u)))
            (fun _ _ _ => True) _ _ l _ _ _ _ _ _ Hstart Hrun).
  - auto.
  - intros g1 u v w d a Hp _ Hin _ x y. unfold set_vertex. cbn [pred].
    destruct (decide (x = v)) as [->|Hne].
    + rewrite lookup_insert_eq. intros H. inversion H. subst. eauto.
    + rewrite lookup_insert_ne by congruence. apply Hp.
Qed.

Lemma walk_nonnegative graph s v q n :
  nonnegative_weights graph -> walk graph s v q n -> (0 <= q)%Q /\ 0 <= n.
Proof.
  intros Hw. induction 1 as [|u v w q n _ [IHq IHn] Hin]; [split; [lra|lia]|].
  pose proof (Hw _ _ _ Hin). split; [lra|lia].
Qed.

(** *** The adjacency dictionary *)

Lemma bucket_In_get {V : Type} (l : list (Z * V)) v w :
  dict_unique Z.eqb l -> In (v, w) l -> dict_get Z.eqb l v = Some w.
Proof.
  induction l as [|[k x] l IH]; simpl; [tauto|].
  intros [Hk Hu] [Heq|Hin].
  - inversion Heq. subst. rewrite Z.eqb_refl. reflexivity.
  - pose proof (IH Hu Hin) as Hget. destruct (v =? k) eqn:E; [|exact Hget].
    apply Z.eqb_eq in E. subst. congruence.
Qed.

Lemma bucket_get_In {V : Type} (l : list (Z * V)) v w :
  dict_get Z.eqb l v = Some w -> In (v, w) l.
Proof.
  induction l as [|[k x] l IH]; simpl; [discriminate|].
  destruct (v =? k) eqn:E.
  - apply Z.eqb_eq in E. subst. intros H. inversion H. auto.
  - auto.
Qed.

Lemma build_graph_fold edges :
  forall (acc : Graph) u v,
    dict_get Z.eqb
      (default []
         (fold_left
            (fun graph '(u, v, weight) =>
               <[u := dict_set Z.eqb (default [] (graph !! u)) v weight]> graph)
            edges acc !! u)) v
    = match last_weight edges u v with
      | Some w => Some w
      | None => dict_get Z.eqb (default [] (acc !! u)) v
      end.
Proof.
  induction edges as [|[[u' v'] weight] edges IH]; intros acc u v; [reflexivity|].
  cbn [fold_left last_weight]. rewrite IH.
  destruct (last_weight edges u v); [reflexivity|].
  destruct (Z.eqb_spec u' u) as [->|Hu]; cbn [andb].
  - rewrite lookup_insert_eq. cbn [default from_option id].
    destruct (Z.eqb_spec v' v) as [->|Hv].
    + apply bucket_get_set_same.
    + apply bucket_get_set_other. congruence.
  - rewrite lookup_insert_ne by congruence. reflexivity.
Qed.

Lemma build_graph_unique edges :
  forall (acc : Graph),
    (forall u, dict_unique Z.eqb (default [] (acc !! u))) ->
    forall u,
      dict_unique Z.eqb
        (default []
           (fold_left
              (fun graph '(u, v, weight) =>
                 <[u := dict_set Z.eqb (default [] (graph !! u)) v weight]> graph)
              edges acc !! u)).
Proof.
  induction edges as [|[[u' v'] weight] edges IH]; intros acc Hacc u; [apply Hacc|].
  cbn [fold_left]. apply IH. intros x. destruct (decide (x = u')) as [->|Hne].
  - rewrite lookup_insert_eq. cbn [default from_option id]. apply bucket_unique_set, Hacc.
  - rewrite lookup_insert_ne by congruence. apply Hacc.
Qed.

Lemma last_weight_In edges u v w : last_weight edges u v = Some w -> In (u, v, w) edges.
Proof.
  induction edges as [|[[u' v'] weight] edges IH]; simpl; [discriminate|].
  destruct (last_weight edges u v) as [w'|].
  - intros H. inversion H. subst. auto.
  - destruct (Z.eqb_spec u' u) as [->|]; [|discriminate].
    destruct (Z.eqb_spec v' v) as [->|]; [|discriminate].
    intros H. inversion H. auto.
Qed.

Lemma build_graph_lookup edges u v :
  dict_get Z.eqb (default [] (build_graph edges !! u)) v = last_weight edges u v.
Proof.
  unfold build_graph. rewrite build_graph_fold. rewrite lookup_empty.
  destruct (last_weight edges u v); reflexivity.
Qed.

Lemma build_graph_In edges u v w :
  In (v, w) (default [] (build_graph edges !! u)) <-> last_weight edges u v = Some w.
Proof.
  rewrite <- build_graph_lookup. split.
  - apply bucket_In_get. unfold build_graph. apply build_graph_unique.
    intros x. rewrite lookup_empty. exact I.
  - apply bucket_get_In.
Qed.

Lemma build_graph_nonnegative edges :
  (forall u v w, In (u, v, w) edges -> (0 <= w)%Q) ->
  nonnegative_weights (build_graph edges).
Proof.
  intros Hw u v w Hin. apply build_graph_In, last_weight_In in Hin. eauto.
Qed.

(** *** What a solve that returns has computed *)

Lemma result_distances_total g r :
  result_distances g = Ok r ->
  forall v, 0 <= v < N_vertices g -> exists d, d_hat g !! v = Some d.
Proof.
  unfold result_distances. intros Hrun v Hv. apply elem_of_range, list_elem_of_In in Hv.
  assert (forall l acc r0,
             for_each l
               (fun r1 v0 => let* d_v := subscript (d_hat g) v0 in
                             if num_eqb d_v Inf then Ok r1 else Ok (r1 ++ [(v0, d_v)]))
               acc = Ok r0 ->
             In v l -> exists d, d_hat g !! v = Some d) as Hgen.
  { induction l as [|x l IH]; intros acc r0; simpl; [tauto|].
    unfold subscript at 1. destruct (d_hat g !! x) as [d_x|] eqn:Hx; [|discriminate].
    cbn [bind]. intros Hrun0 [Heq|Hin]; [subst; eauto|].
    destruct (num_eqb d_x Inf); exact (IH _ _ Hrun0 Hin). }
  exact (Hgen _ _ _ Hrun Hv).
Qed.

Lemma solve_final_state g0 n m_val edges source distances g :
  solve_sssp_directed_real_weights g0 n m_val edges source = Ok (distances, g) ->
  N_vertices g = n
  /\ k_param g = derive_k_param (Z.max 2 n)
  /\ t_param g = derive_t_param (Z.max 2 n)
  /\ result_distances g = Ok distances
  /\ (forall v, num_le (d_hat_get g v) (if decide (v = source) then zero else Inf))
  /\ (forall u, reached_by_walk (build_graph edges) source u (d_hat_get g u)
                                (path_alpha_get g u))
  /\ (forall v u, pred g !! v = Some (Some u) ->
                  exists w, In (v, w) (default [] (build_graph edges !! u))).
Proof.
  intros Hsolve.
  destruct (solve_Ok _ _ _ _ _ _ _ Hsolve) as (k & t & l & B' & U & Hrun & -> & -> & Hres).
  destruct (BMSSP_same_params _ _ _ _ _ _ _ _ Hrun) as (Hk & Ht & HN).
  split; [exact HN|]. split; [exact Hk|]. split; [exact Ht|]. split; [exact Hres|].
  split.
  { intros v. pose proof (BMSSP_estimates_le _ _ _ _ _ _ _ _ Hrun v) as Hle.
    rewrite initial_globals_d_hat in Hle. exact Hle. }
  split.
  { apply (BMSSP_reached_by_walk _ source _ _ _ _ _ _ _) with (2 := Hrun).
    intros u. rewrite initial_globals_d_hat, initial_globals_path_alpha.
    destruct (decide (u = source)) as [->|_]; [|left; reflexivity].
    right. exists 0%Q, 0. split; [reflexivity|]. split; [reflexivity|]. constructor. }
  apply (BMSSP_pred_edges _ _ _ _ _ _ _ _) with (2 := Hrun).
  intros v u Hp. exfalso. eapply initial_globals_pred; eauto.
Qed.

(** X7.  Every distance a solve returns is the total weight of a walk from
    the source to that vertex along edges of the graph, and [path_alpha] of
    the vertex is the number of edges of that walk; the vertices returned lie
    in [range(n)]. *)
Theorem solve_returns_weights_of_walks g0 n m_val edges source distances g :
  solve_sssp_directed_real_weights g0 n m_val edges source = Ok (distances, g) ->
  forall v d, In (v, d) distances ->
    0 <= v < n
    /\ exists q k, d = Fin q /\ path_alpha_get g v = AFin k
                   /\ walk (build_graph edges) source v q k.
Proof.
  intros Hsolve v d Hin.
  destruct (solve_final_state _ _ _ _ _ _ _ Hsolve) as (HN & _ & _ & Hres & _ & Hwalk & _).
  apply (result_distances_In _ _ Hres) in Hin. destruct Hin as (Hv & Hd & Hfin).
  split; [lia|].
  pose proof (Hwalk v) as Hreach.
  assert (d_hat_get g v = d) as Hget by (unfold d_hat_get; rewrite Hd; reflexivity).
  rewrite Hget in Hreach.
  destruct Hreach as [->|(q & k & -> & Hk & Hw)]; [discriminate Hfin|].
  exists q, k. auto.
Qed.

Lemma solve_returns_weights_of_walks_witness :
  match solve_sssp_directed_real_weights fresh_globals 8 5 chain_with_shortcut 0 with
  | Ok (distances, g) =>
    forall v d, In (v, d) distances ->
      0 <= v < 8
      /\ exists q k, d = Fin q /\ path_alpha_get g v = AFin k
                     /\ walk (build_graph chain_with_shortcut) 0 v q k
  | Raise _ => False
  end.
Proof.
  destruct (solve_sssp_directed_real_weights fresh_globals 8 5 chain_with_shortcut 0)
    as [[distances g]|e] eqn:Hrun.
  - exact (solve_returns_weights_of_walks _ _ _ _ _ _ _ Hrun).
  - rewrite solve_8 in Hrun. vm_compute in Hrun. discriminate Hrun.
Defined.

(** X8.  [BMSSP], at every level and so [BaseCase] too, never raises the
    estimate of a vertex and leaves [k_param], [t_param] and [N_vertices] as
    they were. *)
Theorem BMSSP_never_raises_an_estimate graph l g B srcs B' U g' :
  BMSSP l g B srcs graph = Ok (B', U, g') ->
  same_params g g' /\ forall v, num_le (d_hat_get g' v) (d_hat_get g v).
Proof.
  intros Hrun. split.
  - eapply BMSSP_same_params; eauto.
  - eapply BMSSP_estimates_le; eauto.
Qed.

Lemma BMSSP_never_raises_an_estimate_witness :
  let g := initial_globals fresh_globals 4 0 1 1 in
  match BMSSP 2 g Inf [0] (build_graph chain_of_four) with
  | Ok (_, _, g') => same_params g g' /\ forall v, num_le (d_hat_get g' v) (d_hat_get g v)
  | Raise _ => False
  end.
Proof.
  intros g.
  destruct (BMSSP 2 g Inf [0] (build_graph chain_of_four)) as [[[B' U] g']|e] eqn:Hrun.
  - exact (BMSSP_never_raises_an_estimate _ _ _ _ _ _ _ _ Hrun).
  - vm_compute in Hrun. discriminate Hrun.
Defined.

(** X9.  When no listed edge has a negative weight, every distance a solve
    returns is non-negative, and a source in [range(n)] is returned with
    distance 0. *)
Theorem solve_distances_are_nonnegative g0 n m_val edges source distances g :
  (forall u v w, In (u, v, w) edges -> (0 <= w)%Q) ->
  solve_sssp_directed_real_weights g0 n m_val edges source = Ok (distances, g) ->
  (forall v d, In (v, d) distances -> num_le zero d)
  /\ (0 <= source < n -> exists d, In (source, d) distances /\ num_eqv d zero).
Proof.
  intros Hw Hsolve. apply build_graph_nonnegative in Hw.
  destruct (solve_final_state _ _ _ _ _ _ _ Hsolve)
    as (HN & _ & _ & Hres & Hle & Hwalk & _).
  assert (forall v, num_le zero (d_hat_get g v)) as Hnonneg.
  { intros v. destruct (Hwalk v) as [->|(q & k & -> & _ & Hwk)]; [exact I|].
    apply (walk_nonnegative _ _ _ _ _ Hw Hwk). }
  split.
  - intros v d Hin. apply (result_distances_In _ _ Hres) in Hin.
    destruct Hin as (_ & Hd & _). specialize (Hnonneg v).
    assert (d_hat_get g v = d) as Hget by (unfold d_hat_get; rewrite Hd; reflexivity).
    rewrite Hget in Hnonneg. exact Hnonneg.
  - intros Hs. destruct (result_distances_total _ _ Hres source) as [d Hd]; [lia|].
    pose proof (Hnonneg source) as H0. pose proof (Hle source) as H1.
    assert (d_hat_get g source = d) as Hget by (unfold d_hat_get; rewrite Hd; reflexivity).
    rewrite Hget in H0, H1.
    rewrite decide_True in H1 by reflexivity.
    exists d. split.
    + apply (result_distances_In _ _ Hres). split; [lia|]. split; [exact Hd|].
      destruct d; [reflexivity|destruct H1].
    + apply num_le_antisym; assumption.
Qed.

Lemma solve_distances_are_nonnegative_witness :
  match solve_sssp_directed_real_weights fresh_globals 8 5 chain_with_shortcut 0 with
  | Ok (distances, g) =>
    (forall v d, In (v, d) distances -> num_le zero d)
    /\ (0 <= 0 < 8 -> exists d, In (0, d) distances /\ num_eqv d zero)
  | Raise _ => False
  end.
Proof.
  destruct (solve_sssp_directed_real_weights fresh_globals 8 5 chain_with_shortcut 0)
    as [[distances g]|e] eqn:Hrun.
  - apply (solve_distances_are_nonnegative fresh_globals 8 5 chain_with_shortcut 0
             distances g); [|exact Hrun].
    intros u v w Hin. unfold chain_with_shortcut in Hin. simpl in Hin.
    repeat (destruct Hin as [Hin|Hin];
            [inversion Hin; subst; apply Qle_bool_imp_le; reflexivity|]).
    destruct Hin.
  - rewrite solve_8 in Hrun. vm_compute in Hrun. discriminate Hrun.
Defined.

(** X10.  The predecessor a solve leaves for a vertex is the tail of a listed
    edge into that vertex. *)
Theorem solve_predecessors_are_edges g0 n m_val edges source distances g :
  solve_sssp_directed_real_weights g0 n m_val edges source = Ok (distances, g) ->
  forall v u, pred g !! v = Some (Some u) -> exists w, In (u, v, w) edges.
Proof.
  intros Hsolve v u Hp.
  destruct (solve_final_state _ _ _ _ _ _ _ Hsolve) as (_ & _ & _ & _ & _ & _ & Hpred).
  destruct (Hpred v u Hp) as [w Hin]. exists w.
  apply last_weight_In, build_graph_In, Hin.
Qed.

Lemma solve_predecessors_are_edges_witness :
  match solve_sssp_directed_real_weights fresh_globals 8 5 chain_with_shortcut 0 with
  | Ok (distances, g) =>
    forall v u, pred g !! v = Some (Some u) ->
                exists w, In (u, v, w) chain_with_shortcut
  | Raise _ => False
  end.
Proof.
  destruct (solve_sssp_directed_real_weights fresh_globals 8 5 chain_with_shortcut 0)
    as [[distances g]|e] eqn:Hrun.
  - exact (solve_predecessors_are_edges _ _ _ _ _ _ _ Hrun).
  - rewrite solve_8 in Hrun. vm_compute in Hrun. discriminate Hrun.
Defined.

(** X11.  In the adjacency dictionary a solve builds, [graph[u][v]] is the
    weight of the last listed edge from [u] to [v]: a repeated edge keeps its
    last weight only, and [v] is a neighbour of [u] exactly when such an edge
    is listed. *)
Theorem build_graph_keeps_the_last_weight edges u v :
  dict_get Z.eqb (default [] (build_graph edges !! u)) v = last_weight edges u v
  /\ (forall w, In (v, w) (default [] (build_graph edges !! u))
                <-> last_weight edges u v = Some w)
  /\ (last_weight edges u v = None <-> forall w, ~ In (u, v, w) edges).
Proof.
  split; [apply build_graph_lookup|]. split; [intros w; apply build_graph_In|].
  induction edges as [|[[u' v'] weight] edges IH]; simpl; [tauto|].
  destruct (last_weight edges u v) as [w'|] eqn:Hlast.
  - split; [discriminate|]. intros Hno. exfalso.
    apply (Hno w'). right. apply last_weight_In, Hlast.
  - destruct (Z.eqb_spec u' u) as [->|Hu]; cbn [andb].
    + destruct (Z.eqb_spec v' v) as [->|Hv].
      * split; [discriminate|]. intros Hno. exfalso. apply (Hno weight). auto.
      * split; [|reflexivity]. intros _ w [Heq|Hin]; [congruence|].
        revert Hin. apply IH. reflexivity.
    + split; [|reflexivity]. intros _ w [Heq|Hin]; [congruence|].
      revert Hin. apply IH. reflexivity.
Qed.

(** ** The reference Dijkstra *)

Lemma pq_push_In pq e e' : In e' (pq_push pq e) <-> e' = e \/ In e' pq.
Proof.
  induction pq as [|h pq IH]; simpl.
  - intuition congruence.
  - destruct (pq_ltb e h); simpl; [intuition congruence|]. rewrite IH. tauto.
Qed.

Lemma pq_push_length pq e : length (pq_push pq e) = S (length pq).
Proof.
  induction pq as [|h pq IH]; simpl; [reflexivity|].
  destruct (pq_ltb e h); simpl; [reflexivity|]. rewrite IH. reflexivity.
Qed.

Lemma pq_ltb_true a b : pq_ltb a b = true -> (fst a <= fst b)%Q.
Proof.
  unfold pq_ltb. destruct (Qeq_bool (fst a) (fst b)) eqn:E; cbn [negb].
  - intros _. apply Qeq_bool_iff in E. lra.
  - rewrite negb_true_iff. intros H.
    destruct (Qlt_le_dec (fst a) (fst b)) as [Hlt|Hle]; [lra|].
    apply Qle_bool_iff in Hle. congruence.
Qed.

Lemma pq_ltb_false a b : pq_ltb a b = false -> (fst b <= fst a)%Q.
Proof.
  unfold pq_ltb. destruct (Qeq_bool (fst a) (fst b)) eqn:E; cbn [negb].
  - intros _. apply Qeq_bool_iff in E. lra.
  - rewrite negb_false_iff. apply Qle_bool_iff.
Qed.

Lemma pq_push_sorted pq e :
  StronglySorted (fun a b : Q * Z => (fst a <= fst b)%Q) pq ->
  StronglySorted (fun a b : Q * Z => (fst a <= fst b)%Q) (pq_push pq e).
Proof.
  induction pq as [|h pq IH]; simpl; intros Hs.
  - repeat constructor.
  - inversion Hs as [|? ? Hs' Hall]; subst. rewrite List.Forall_forall in Hall.
    destruct (pq_ltb e h) eqn:Hlt.
    + apply pq_ltb_true in Hlt. constructor; [exact Hs|].
      apply List.Forall_forall. intros x [<-|Hx]; [exact Hlt|].
      specialize (Hall x Hx). simpl in Hall. lra.
    + apply pq_ltb_false in Hlt. constructor; [apply IH, Hs'|].
      apply List.Forall_forall. intros x Hx. apply pq_push_In in Hx.
      destruct Hx as [->|Hx]; [exact Hlt|apply Hall, Hx].
Qed.

Lemma set_mem_set_add x u s : set_mem x (set_add u s) = (x =? u) || set_mem x s.
Proof.
  destruct (set_mem x (set_add u s)) eqn:E.
  - apply set_mem_In, set_add_In in E. symmetry. apply orb_true_iff.
    destruct E as [->|E]; [left; apply Z.eqb_refl|right; apply set_mem_In, E].
  - symmetry. apply orb_false_iff. split.
    + apply Z.eqb_neq. intros ->.
      assert (In u (set_add u s)) as H by (apply set_add_In; auto).
      apply set_mem_In in H. congruence.
    + destruct (set_mem x s) eqn:E'; [|reflexivity].
      apply set_mem_In in E'.
      assert (In x (set_add u s)) as H by (apply set_add_In; auto).
      apply set_mem_In in H. congruence.
Qed.

(** Visiting a vertex takes its edges off the pending ones. *)
Lemma pending_edges_visit (graph_dict : Graph) visited u :
  set_mem u visited = false ->
  (pending_edges graph_dict (set_add u visited)
   + length (default [] (graph_dict !! u)) = pending_edges graph_dict visited)%nat.
Proof.
  intros Hu. unfold pending_edges. rewrite !map_fold_foldr.
  pose proof (NoDup_fst_map_to_list graph_dict) as Hnd.
  assert (forall x, (u, x) ∈ map_to_list graph_dict -> default [] (graph_dict !! u) = x)
    as Hin by (intros x Hx; apply elem_of_map_to_list in Hx; rewrite Hx; reflexivity).
  assert ((forall x, (u, x) ∉ map_to_list graph_dict) -> default [] (graph_dict !! u) = [])
    as Hout.
  { intros Hno. destruct (graph_dict !! u) as [x|] eqn:Hx; [|reflexivity].
    exfalso. apply (Hno x), elem_of_map_to_list, Hx. }
  revert Hnd Hin Hout. generalize (default [] (graph_dict !! u)).
  generalize (map_to_list graph_dict).
  induction l as [|[u' e'] l IH]; intros edges Hnd Hin Hout.
  - rewrite Hout by (intros x Hx; inversion Hx). reflexivity.
  - cbn [foldr uncurry fst snd] in *. apply NoDup_cons in Hnd. destruct Hnd as [Hfresh Hnd].
    rewrite set_mem_set_add. destruct (Z.eqb_spec u' u) as [->|Hne]; cbn [orb].
    + rewrite Hu. rewrite (Hin e') by left.
      specialize (IH [] Hnd). cbn [length] in IH. rewrite Nat.add_0_r in IH.
      rewrite IH; [lia| |reflexivity].
      intros x Hx. exfalso. apply Hfresh. apply list_elem_of_fmap. exists (u, x). auto.
    + assert (forall n m k : nat, (n + k = m -> (if set_mem u' visited then n else
                length e' + n) + k = if set_mem u' visited then m else length e' + m)%nat)
        as Harith by (intros; destruct (set_mem u' visited); lia).
      apply Harith. apply IH; [exact Hnd| |].
      * intros x Hx. apply Hin. right. exact Hx.
      * intros Hno. apply Hout. intros x Hx. inversion Hx; subst; [congruence|].
        eapply Hno; eauto.
Qed.

Lemma dijkstra_relax_length d edges :
  forall dist pq,
    (length (snd (fold_left (dijkstra_relax d) edges (dist, pq)))
     <= length pq + length edges)%nat.
Proof.
  induction edges as [|[v w] edges IH]; intros dist pq; simpl; [lia|].
  destruct (match dist !! v with
            | Some old => negb (Qle_bool old (d + w))
            | None => true
            end).
  - etransitivity; [apply IH|]. rewrite pq_push_length. lia.
  - etransitivity; [apply IH|]. lia.
Qed.

Lemma dijkstra_loop_returns graph_dict :
  forall passes dist pq visited,
    (length pq + pending_edges graph_dict visited <= passes)%nat ->
    exists dist', dijkstra_loop passes graph_dict dist pq visited = Some dist'.
Proof.
  induction passes as [|passes IH]; intros dist pq visited Hfuel.
  - destruct pq as [|[d u] pq]; [simpl; eauto|simpl in Hfuel; lia].
  - destruct pq as [|[d u] pq]; [simpl; eauto|]. cbn [dijkstra_loop].
    destruct (set_mem u visited) eqn:Hu.
    + apply IH. simpl in Hfuel. lia.
    + pose proof (dijkstra_relax_length d (default [] (graph_dict !! u)) dist pq) as Hlen.
      destruct (fold_left (dijkstra_relax d) (default [] (graph_dict !! u)) (dist, pq))
        as [dist' pq''].
      apply IH. pose proof (pending_edges_visit graph_dict visited u Hu).
      simpl in Hfuel, Hlen. lia.
Qed.

(** X12.  The reference Dijkstra returns on every graph: a vertex is visited
    once and pushes at most one entry per edge out of it, so the heap is
    empty after at most [1 + |E|] pops. *)
Theorem dijkstra_single_source_returns (graph_dict : Graph) (n source : Z) :
  exists dist, dijkstra_single_source graph_dict n source = Some dist.
Proof.
  unfold dijkstra_single_source. apply dijkstra_loop_returns.
  change (pending_edges graph_dict []) with (edge_count graph_dict). simpl. lia.
Qed.

Lemma dijkstra_relax_cases d dist pq v w :
  (exists old, dist !! v = Some old /\ (old <= d + w)%Q
               /\ dijkstra_relax d (dist, pq) (v, w) = (dist, pq))
  \/ ((forall old, dist !! v = Some old -> (d + w < old)%Q)
      /\ dijkstra_relax d (dist, pq) (v, w)
         = (<[v := (d + w)%Q]> dist, pq_push pq ((d + w)%Q, v))).
Proof.
  unfold dijkstra_relax. destruct (dist !! v) as [old|] eqn:Hv.
  - destruct (Qle_bool old (d + w)) eqn:E; cbn [negb].
    + left. exists old. apply Qle_bool_iff in E. auto.
    + right. split; [|reflexivity]. intros old' Hold. inversion Hold. subst.
      destruct (Qlt_le_dec (d + w) old') as [Hlt|Hle]; [exact Hlt|].
      apply Qle_bool_iff in Hle. congruence.
  - right. split; [discriminate|reflexivity].
Qed.

(** What relaxing the edges out of a popped vertex does to the distances and
    to the heap. *)
Lemma dijkstra_relax_fold d :
  forall edges dist pq dist' pq',
    fold_left (dijkstra_relax d) edges (dist, pq) = (dist', pq') ->
    (forall v dv, dist !! v = Some dv -> exists dv', dist' !! v = Some dv' /\ (dv' <= dv)%Q)
    /\ (forall v dv', dist' !! v = Some dv' ->
          dist !! v = Some dv'
          \/ exists w, In (v, w) edges /\ dv' = (d + w)%Q /\ In (dv', v) pq')
    /\ (forall e, In e pq -> In e pq')
    /\ (forall d' v, In (d', v) pq' ->
          In (d', v) pq \/ exists w, In (v, w) edges /\ d' = (d + w)%Q)
    /\ (forall v w, In (v, w) edges -> exists dv', dist' !! v = Some dv' /\ (dv' <= d + w)%Q)
    /\ (StronglySorted (fun a b : Q * Z => (fst a <= fst b)%Q) pq ->
        StronglySorted (fun a b : Q * Z => (fst a <= fst b)%Q) pq')
    /\ (forall v dv, dist !! v = Some dv ->
          (forall w, In (v, w) edges -> (dv <= d + w)%Q) -> dist' !! v = Some dv).
Proof.
  induction edges as [|[v0 w0] edges IH]; intros dist pq dist' pq'.
  - simpl. intros H. inversion H. subst. repeat split; eauto.
    + intros v dv Hv. exists dv. split; [exact Hv|lra].
    + intros v w [].
  - cbn [fold_left].
    destruct (dijkstra_relax_cases d dist pq v0 w0)
      as [(old & Hold & Hle & ->)|(Hbetter & ->)]; intros Hrun;
      destruct (IH _ _ _ _ Hrun) as (HA & HB & HC & HD & HE & HF & HH).
    + split; [exact HA|]. split.
      { intros v dv' Hv. destruct (HB v dv' Hv) as [Hsame|(w & Hin & Heq & Hpq)];
          [left; exact Hsame|right; exists w; split; [right; exact Hin|auto]]. }
      split; [exact HC|]. split.
      { intros d' v Hin. destruct (HD d' v Hin) as [Hold'|(w & Hw & Heq)];
          [left; exact Hold'|right; exists w; split; [right; exact Hw|exact Heq]]. }
      split.
      { intros v w [Heq|Hin]; [|apply HE, Hin]. inversion Heq. subst.
        destruct (HA v old Hold) as (dv' & Hdv' & Hle'). exists dv'. split; [exact Hdv'|lra]. }
      split; [exact HF|].
      intros v dv Hv Hall. apply HH; [exact Hv|]. intros w Hw. apply Hall. right. exact Hw.
    + split.
      { intros v dv Hv. destruct (decide (v = v0)) as [->|Hne].
        - destruct (HA v0 (d + w0)%Q) as (dv' & Hdv' & Hle'); [apply lookup_insert_eq|].
          exists dv'. split; [exact Hdv'|]. pose proof (Hbetter dv Hv). lra.
        - apply HA. rewrite lookup_insert_ne by congruence. exact Hv. }
      split.
      { intros v dv' Hv. destruct (HB v dv' Hv) as [Hsame|(w & Hin & Heq & Hpq)].
        - destruct (decide (v = v0)) as [->|Hne].
          + rewrite lookup_insert_eq in Hsame. inversion Hsame. subst dv'.
            right. exists w0. split; [left; reflexivity|]. split; [reflexivity|].
            apply HC, pq_push_In. left. reflexivity.
          + rewrite lookup_insert_ne in Hsame by congruence. left. exact Hsame.
        - right. exists w. split; [right; exact Hin|auto]. }
      split; [intros e He; apply HC, pq_push_In; right; exact He|]. split.
      { intros d' v Hin. destruct (HD d' v Hin) as [Hold'|(w & Hw & Heq)].
        - apply pq_push_In in Hold'. destruct Hold' as [Heq|Hold']; [|left; exact Hold'].
          inversion Heq. subst. right. exists w0. split; [left; reflexivity|reflexivity].
        - right. exists w. split; [right; exact Hw|exact Heq]. }
      split.
      { intros v w [Heq|Hin]; [|apply HE, Hin]. inversion Heq. subst.
        apply HA. apply lookup_insert_eq. }
      split; [intros Hs; apply HF, pq_push_sorted, Hs|].
      intros v dv Hv Hall. assert (v <> v0) as Hne.
      { intros ->. pose proof (Hbetter dv Hv).
        assert (dv <= d + w0)%Q by (apply Hall; left; reflexivity). lra. }
      apply HH.
      * rewrite lookup_insert_ne by congruence. exact Hv.
      * intros w Hw. apply Hall. right. exact Hw.
Qed.

Lemma dijkstra_loop_sound graph_dict source :
  forall passes dist pq visited dist',
    dijkstra_sound graph_dict source dist pq ->
    dijkstra_loop passes graph_dict dist pq visited = Some dist' ->
    forall v d, dist' !! v = Some d -> exists n, walk graph_dict source v d n.
Proof.
  induction passes as [|passes IH]; intros dist pq visited dist' [Hdist Hpq].
  - destruct pq as [|[d u] pq]; simpl; [|discriminate].
    intros H. inversion H. subst. exact Hdist.
  - destruct pq as [|[d u] pq]; [simpl; intros H; inversion H; subst; exact Hdist|].
    cbn [dijkstra_loop]. destruct (set_mem u visited).
    + apply IH. split; [exact Hdist|]. intros d' v Hin. apply Hpq. right. exact Hin.
    + destruct (fold_left (dijkstra_relax d) (default [] (graph_dict !! u)) (dist, pq))
        as [dist1 pq1] eqn:Hfold.
      destruct (dijkstra_relax_fold _ _ _ _ _ _ Hfold) as (_ & HB & _ & HD & _).
      destruct (Hpq d u) as [n Hwalk]; [left; reflexivity|].
      apply IH. split.
      * intros v dv Hv. destruct (HB v dv Hv) as [Hsame|(w & Hin & -> & _)];
          [eauto|]. exists (n + 1). econstructor; eauto.
      * intros d' v Hin. destruct (HD d' v Hin) as [Hold|(w & Hw & ->)].
        -- apply Hpq. right. exact Hold.
        -- exists (n + 1). econstructor; eauto.
Qed.

(** One pop keeps the invariant, for non-negative weights. *)
Lemma dijkstra_inv_pop graph_dict source dist d u pq visited :
  dijkstra_inv graph_dict source dist ((d, u) :: pq) visited ->
  set_mem u visited = true ->
  dijkstra_inv graph_dict source dist pq visited.
Proof.
  intros (Hs & Hsrc & Hge & Hpend & Hvis) Hu.
  split; [inversion Hs; assumption|]. split; [exact Hsrc|]. split.
  { intros d' v Hin. apply Hge. right. exact Hin. }
  split.
  { intros v dv Hv. destruct (Hpend v dv Hv) as [Hin|[Heq|Hin]]; auto.
    inversion Heq. subst. auto. }
  intros u' Hu'. destruct (Hvis u' Hu') as (du & Hdu & Hbound & Hrel).
  exists du. split; [exact Hdu|]. split; [|exact Hrel].
  intros d' v Hin. eapply Hbound. right. exact Hin.
Qed.

Lemma dijkstra_inv_visit graph_dict source dist d u pq visited dist' pq' :
  nonnegative_weights graph_dict ->
  dijkstra_inv graph_dict source dist ((d, u) :: pq) visited ->
  set_mem u visited = false ->
  fold_left (dijkstra_relax d) (default [] (graph_dict !! u)) (dist, pq) = (dist', pq') ->
  dijkstra_inv graph_dict source dist' pq' (set_add u visited).
Proof.
  intros Hw (Hs & Hsrc & Hge & Hpend & Hvis) Hu Hfold.
  destruct (dijkstra_relax_fold _ _ _ _ _ _ Hfold) as (HA & HB & HC & HD & HE & HF & HH).
  inversion Hs as [|? ? Hs' Hhead]; subst. rewrite List.Forall_forall in Hhead.
  destruct (Hge d u) as (du & Hdu & Hdu_le); [left; reflexivity|].
  assert (d <= du)%Q as Hd_le.
  { destruct (Hpend u du Hdu) as [Hin|[Heq|Hin]]; [congruence| |].
    - inversion Heq. lra.
    - apply (Hhead _ Hin). }
  assert (forall d' v, In (d', v) pq' -> (d <= d')%Q) as Hnew.
  { intros d' v Hin. destruct (HD d' v Hin) as [Hold|(w & Hin' & ->)].
    - apply (Hhead _ Hold).
    - pose proof (Hw _ _ _ Hin'). lra. }
  split; [apply HF, Hs'|]. split.
  { destruct Hsrc as (ds & Hds & Hle). destruct (HA _ _ Hds) as (ds' & Hds' & Hle').
    exists ds'. split; [exact Hds'|lra]. }
  split.
  { intros d' v Hin. destruct (HD d' v Hin) as [Hold|(w & Hin' & ->)].
    - destruct (Hge d' v) as (dv & Hdv & Hle); [right; exact Hold|].
      destruct (HA _ _ Hdv) as (dv' & Hdv' & Hle'). exists dv'. split; [exact Hdv'|lra].
    - apply HE, Hin'. }
  split.
  { intros v dv' Hv. rewrite set_mem_set_add.
    destruct (HB v dv' Hv) as [Hsame|(w & _ & _ & Hin)]; [|right; exact Hin].
    destruct (Hpend v dv' Hsame) as [Hin|[Heq|Hin]].
    - left. rewrite Hin. apply orb_true_r.
    - inversion Heq. subst. left. rewrite Z.eqb_refl. reflexivity.
    - right. apply HC, Hin. }
  intros u' Hu'. rewrite set_mem_set_add in Hu'. apply orb_true_iff in Hu'.
  destruct (decide (u' = u)) as [->|Hne].
  - exists du. split.
    { apply HH; [exact Hdu|]. intros w Hin. pose proof (Hw _ _ _ Hin). lra. }
    split.
    { intros d' v Hin. pose proof (Hnew d' v Hin). lra. }
    intros v w Hin. destruct (HE v w Hin) as (dv' & Hdv' & Hle).
    exists dv'. split; [exact Hdv'|lra].
  - destruct Hu' as [Heq|Hu']; [apply Z.eqb_eq in Heq; congruence|].
    destruct (Hvis u' Hu') as (du' & Hdu' & Hbound & Hrel).
    assert (du' <= d)%Q as Hle' by (apply (Hbound d u); left; reflexivity).
    exists du'. split.
    { apply HH; [exact Hdu'|]. intros w Hin. pose proof (Hw _ _ _ Hin). lra. }
    split.
    { intros d' v Hin. pose proof (Hnew d' v Hin). lra. }
    intros v w Hin. destruct (Hrel v w Hin) as (dv & Hdv & Hle).
    destruct (HA _ _ Hdv) as (dv' & Hdv' & Hle''). exists dv'. split; [exact Hdv'|lra].
Qed.

Lemma dijkstra_loop_inv graph_dict source :
  nonnegative_weights graph_dict ->
  forall passes dist pq visited dist',
    dijkstra_inv graph_dict source dist pq visited ->
    dijkstra_loop passes graph_dict dist pq visited = Some dist' ->
    exists visited', dijkstra_inv graph_dict source dist' [] visited'.
Proof.
  intros Hw. induction passes as [|passes IH]; intros dist pq visited dist' Hinv.
  - destruct pq as [|[d u] pq]; simpl; [|discriminate].
    intros H. inversion H. subst. eauto.
  - destruct pq as [|[d u] pq]; [simpl; intros H; inversion H; subst; eauto|].
    cbn [dijkstra_loop]. destruct (set_mem u visited) eqn:Hu.
    + apply IH. eapply dijkstra_inv_pop; eauto.
    + destruct (fold_left (dijkstra_relax d) (default [] (graph_dict !! u)) (dist, pq))
        as [dist1 pq1] eqn:Hfold.
      apply IH. eapply dijkstra_inv_visit; eauto.
Qed.

(** With an empty heap the invariant makes the distances a fixed point of
    relaxation: no walk from the source is lighter than the distance
    recorded for its end. *)
Lemma dijkstra_inv_final graph_dict source dist visited :
  dijkstra_inv graph_dict source dist [] visited ->
  forall v q n, walk graph_dict source v q n ->
                exists d, dist !! v = Some d /\ (d <= q)%Q.
Proof.
  intros (_ & Hsrc & _ & Hpend & Hvis). induction 1 as [|u v w q n _ IH Hin].
  - destruct Hsrc as (ds & Hds & Hle). eauto.
  - destruct IH as (du & Hdu & Hle).
    destruct (Hpend u du Hdu) as [Hu|[]].
    destruct (Hvis u Hu) as (du' & Hdu' & _ & Hrel).
    rewrite Hdu in Hdu'. inversion Hdu'. subst du'.
    destruct (Hrel v w Hin) as (dv & Hdv & Hle'). exists dv. split; [exact Hdv|lra].
Qed.

Lemma dijkstra_start_sound graph_dict source :
  dijkstra_sound graph_dict source {[source := 0%Q]} [(0%Q, source)].
Proof.
  split.
  - intros v d Hv. apply lookup_singleton_Some in Hv. destruct Hv as [<- <-].
    exists 0. constructor.
  - intros d v [Heq|[]]. inversion Heq. exists 0. constructor.
Qed.

Lemma dijkstra_start_inv graph_dict source :
  dijkstra_inv graph_dict source {[source := 0%Q]} [(0%Q, source)] [].
Proof.
  split; [repeat constructor|]. split.
  { exists 0%Q. split; [apply lookup_singleton_eq|lra]. }
  split.
  { intros d v [Heq|[]]. inversion Heq. subst. exists 0%Q.
    split; [apply lookup_singleton_eq|lra]. }
  split.
  { intros v dv Hv. apply lookup_singleton_Some in Hv. destruct Hv as [<- <-].
    right. left. reflexivity. }
  intros u Hu. discriminate Hu.
Qed.

Lemma dijkstra_single_source_sound graph_dict n source dist :
  dijkstra_single_source graph_dict n source = Some dist ->
  forall v d, dist !! v = Some d -> exists k, walk graph_dict source v d k.
Proof.
  unfold dijkstra_single_source. apply dijkstra_loop_sound, dijkstra_start_sound.
Qed.

Lemma dijkstra_single_source_least graph_dict n source dist :
  nonnegative_weights graph_dict ->
  dijkstra_single_source graph_dict n source = Some dist ->
  forall v q k, walk graph_dict source v q k -> exists d, dist !! v = Some d /\ (d <= q)%Q.
Proof.
  unfold dijkstra_single_source. intros Hw Hrun.
  destruct (dijkstra_loop_inv _ source Hw _ _ _ _ _ (dijkstra_start_inv _ _) Hrun)
    as [visited' Hinv].
  eapply dijkstra_inv_final; eauto.
Qed.

Lemma chain_with_shortcut_nonnegative :
  forall u v w, In (u, v, w) chain_with_shortcut -> (0 <= w)%Q.
Proof.
  intros u v w Hin. unfold chain_with_shortcut in Hin. simpl in Hin.
  repeat (destruct Hin as [Hin|Hin];
          [inversion Hin; subst; apply Qle_bool_imp_le; reflexivity|]).
  destruct Hin.
Qed.

(** X13.  Every distance the reference Dijkstra returns is the total weight
    of a walk from the source to that vertex, whatever the signs of the
    weights. *)
Theorem dijkstra_returns_weights_of_walks graph_dict n source dist :
  dijkstra_single_source graph_dict n source = Some dist ->
  forall v d, dist !! v = Some d -> exists k, walk graph_dict source v d k.
Proof. apply dijkstra_single_source_sound. Qed.

Lemma dijkstra_returns_weights_of_walks_witness :
  match dijkstra_single_source (build_graph chain_with_shortcut) 8 0 with
  | Some dist =>
    forall v d, dist !! v = Some d ->
                exists k, walk (build_graph chain_with_shortcut) 0 v d k
  | None => False
  end.
Proof.
  destruct (dijkstra_single_source (build_graph chain_with_shortcut) 8 0)
    as [dist|] eqn:Hrun.
  - exact (dijkstra_returns_weights_of_walks _ _ _ _ Hrun).
  - vm_compute in Hrun. discriminate Hrun.
Defined.

(** X14.  On a graph without negative weights the reference Dijkstra is
    exact: the distance it returns for a vertex is not above the weight of
    any walk from the source to it, and a vertex it does not return is the
    end of no walk from the source. *)
Theorem dijkstra_returns_the_least_weights graph_dict n source dist :
  nonnegative_weights graph_dict ->
  dijkstra_single_source graph_dict n source = Some dist ->
  forall v,
    match dist !! v with
    | Some d => forall q k, walk graph_dict source v q k -> (d <= q)%Q
    | None => forall q k, ~ walk graph_dict source v q k
    end.
Proof.
  intros Hw Hrun v.
  pose proof (dijkstra_single_source_least _ _ _ _ Hw Hrun v) as Hleast.
  destruct (dist !! v) as [d|].
  - intros q k Hwalk. destruct (Hleast q k Hwalk) as (d' & Hd' & Hle).
    inversion Hd'. subst. exact Hle.
  - intros q k Hwalk. destruct (Hleast q k Hwalk) as (d' & Hd' & _). discriminate.
Qed.

Lemma dijkstra_returns_the_least_weights_witness :
  match dijkstra_single_source (build_graph chain_with_shortcut) 8 0 with
  | Some dist =>
    forall v,
      match dist !! v with
      | Some d => forall q k, walk (build_graph chain_with_shortcut) 0 v q k -> (d <= q)%Q
      | None => forall q k, ~ walk (build_graph chain_with_shortcut) 0 v q k
      end
  | None => False
  end.
Proof.
  destruct (dijkstra_single_source (build_graph chain_with_shortcut) 8 0)
    as [dist|] eqn:Hrun.
  - apply (dijkstra_returns_the_least_weights _ 8 0 dist); [|exact Hrun].
    apply build_graph_nonnegative, chain_with_shortcut_nonnegative.
  - vm_compute in Hrun. discriminate Hrun.
Defined.

(** X15.  When no listed edge has a negative weight, a solve that returns
    never reports less than the reference Dijkstra run on the same graph:
    every vertex of the returned map is in the map of the reference, with a
    distance that is not above the one the solve returns. *)
Theorem solve_is_never_below_dijkstra g0 n m_val edges source distances g :
  (forall u v w, In (u, v, w) edges -> (0 <= w)%Q) ->
  solve_sssp_directed_real_weights g0 n m_val edges source = Ok (distances, g) ->
  exists dist,
    dijkstra_single_source (build_graph edges) n source = Some dist
    /\ forall v d, In (v, d) distances ->
         exists q dq, d = Fin q /\ dist !! v = Some dq /\ (dq <= q)%Q.
Proof.
  intros Hw Hsolve. apply build_graph_nonnegative in Hw.
  destruct (solve_final_state _ _ _ _ _ _ _ Hsolve) as (_ & _ & _ & Hres & _ & Hwalk & _).
  assert (exists dist, dijkstra_single_source (build_graph edges) n source = Some dist)
    as [dist Hrun].
  { unfold dijkstra_single_source. apply dijkstra_loop_returns.
    change (pending_edges (build_graph edges) []) with (edge_count (build_graph edges)).
    simpl. lia. }
  exists dist. split; [exact Hrun|]. intros v d Hin.
  apply (result_distances_In _ _ Hres) in Hin. destruct Hin as (_ & Hd & Hfin).
  pose proof (Hwalk v) as Hreach.
  assert (d_hat_get g v = d) as Hget by (unfold d_hat_get; rewrite Hd; reflexivity).
  rewrite Hget in Hreach.
  destruct Hreach as [->|(q & k & -> & _ & Hwk)]; [discriminate Hfin|].
  destruct (dijkstra_single_source_least _ _ _ _ Hw Hrun v q k Hwk) as (dq & Hdq & Hle).
  exists q, dq. auto.
Qed.

Lemma solve_is_never_below_dijkstra_witness :
  match solve_sssp_directed_real_weights fresh_globals 8 5 chain_with_shortcut 0 with
  | Ok (distances, g) =>
    exists dist,
      dijkstra_single_source (build_graph chain_with_shortcut) 8 0 = Some dist
      /\ forall v d, In (v, d) distances ->
           exists q dq, d = Fin q /\ dist !! v = Some dq /\ (dq <= q)%Q
  | Raise _ => False
  end.
Proof.
  destruct (solve_sssp_directed_real_weights fresh_globals 8 5 chain_with_shortcut 0)
    as [[distances g]|e] eqn:Hrun.
  - exact (solve_is_never_below_dijkstra _ _ _ _ _ _ _
             chain_with_shortcut_nonnegative Hrun).
  - rewrite solve_8 in Hrun. vm_compute in Hrun. discriminate Hrun.
Defined.

(** ** Empty source sets *)

Lemma FindPivots_rounds_empty graph B g :
  forall rounds, FindPivots_rounds rounds graph B [] g [] [] = Ok (g, [], false).
Proof.
  induction rounds as [|rounds IH]; [reflexivity|].
  cbn [FindPivots_rounds FindPivots_round for_each bind].
  replace (len (@nil Z) >? k_param g * len (@nil Z)) with false; [exact IH|].
  symmetry. unfold len. simpl. rewrite Z.mul_0_r. reflexivity.
Qed.

(** X16.  On an empty set of sources [BMSSP] does nothing at any level: it
    returns the bound it was given and no vertex, and leaves the module state
    as it was (for [k_param >= 0], which level 0 needs). *)
Theorem BMSSP_on_no_sources l g B graph :
  0 <= k_param g -> BMSSP l g B [] graph = Ok (B, [], g).
Proof.
  intros Hk. destruct l as [|l].
  - cbn [BMSSP]. unfold BaseCase, BaseCase_completed. cbn [BaseCase_seed fold_left].
    rewrite BaseCase_loop_nil. cbn [bind].
    replace (len (@nil Z) <=? k_param g) with true; [reflexivity|].
    symmetry. apply Z.leb_le. exact Hk.
  - cbn [BMSSP]. unfold FindPivots. rewrite FindPivots_rounds_empty.
    cbn [bind for_each]. unfold insert_pivots, seed_neighbors.
    cbn [bind for_each is_nil andb HEURISTICS_ENABLED HEURISTICS_SEEDING].
    rewrite BMSSP_loop_unfold. cbn [frame_D current_U].
    assert (forall M0, D.is_empty (D.init M0 B) = true) as Hempty by reflexivity.
    rewrite Hempty. rewrite andb_false_r. cbn [bind frame_D current_U fold_left].
    rewrite Hempty. reflexivity.
Qed.

Lemma BMSSP_on_no_sources_witness :
  BMSSP 2 (initial_globals fresh_globals 4 0 1 1) (Fin 7) [] (build_graph chain_of_four)
  = Ok (Fin 7, [], initial_globals fresh_globals 4 0 1 1).
Proof.
  apply (BMSSP_on_no_sources 2 (initial_globals fresh_globals 4 0 1 1) (Fin 7)
           (build_graph chain_of_four)).
  simpl. lia.
Defined.

(** ** The statistics read from the module state *)

Lemma range_length n : len (range n) = Z.max 0 n.
Proof. unfold len, range. rewrite length_map, length_seq. lia. Qed.

Lemma filter_partition_length {A : Type} (f : A -> bool) (l : list A) :
  len (List.filter (fun x => negb (f x)) l) + len (List.filter f l) = len l.
Proof.
  unfold len. induction l as [|a l IH]; simpl; [reflexivity|].
  destruct (f a); simpl; lia.
Qed.

Lemma filter_length_le {A : Type} (f : A -> bool) (l : list A) :
  len (List.filter f l) <= len l.
Proof.
  unfold len. induction l as [|a l IH]; simpl; [lia|]. destruct (f a); simpl; lia.
Qed.

Lemma statistics_head g :
  let st := get_sssp_statistics g in
  stats_n st = N_vertices g /\ stats_k_param st = k_param g
  /\ stats_t_param st = t_param g
  /\ stats_reachable_count st = len (stats_reachable g)
  /\ stats_unreachable_count st = len (stats_unreachable g)
  /\ stats_reachable_pct st
     = (if N_vertices g >? 0
        then (100 * inject_Z (len (stats_reachable g)) / inject_Z (N_vertices g))%Q
        else 0%Q)
  /\ stats_max_distance st
     = match map (d_hat_get g) (stats_reachable g) with
       | d :: ds => Some (list_max d ds)
       | [] => None
       end.
Proof.
  unfold get_sssp_statistics. cbv zeta.
  destruct (stats_reachable g) as [|v reachable] eqn:Hr; [repeat split|].
  match goal with
  | |- context [flat_map ?f ?l] => destruct (flat_map f l)
  end; repeat split.
Qed.

(** X17.  The statistics of any module state split [range(N_vertices)] in
    two: the two counts add up to [max(0, N_vertices)], the percentage lies
    between 0 and 100, and [max_distance] is [None] exactly when no vertex is
    counted as reachable. *)
Theorem statistics_partition_the_vertices g :
  let st := get_sssp_statistics g in
  stats_n st = N_vertices g
  /\ stats_reachable_count st + stats_unreachable_count st = Z.max 0 (N_vertices g)
  /\ 0 <= stats_reachable_count st
  /\ (0 <= stats_reachable_pct st <= 100)%Q
  /\ (stats_max_distance st = None <-> stats_reachable_count st = 0).
Proof.
  intros st. destruct (statistics_head g) as (Hn & _ & _ & Hr & Hu & Hp & Hm).
  fold st in Hn, Hr, Hu, Hp, Hm.
  split; [exact Hn|]. split.
  { rewrite Hr, Hu. unfold stats_reachable, stats_unreachable.
    rewrite filter_partition_length. apply range_length. }
  split; [rewrite Hr; unfold len; lia|]. split.
  { rewrite Hp. destruct (N_vertices g >? 0) eqn:HN; [|split; [lra|apply Qle_bool_imp_le; reflexivity]].
    apply Z.gtb_lt in HN.
    pose proof (filter_length_le (fun v => negb (num_eqb (d_hat_get g v) Inf))
                  (range (N_vertices g))) as Hle.
    rewrite range_length in Hle. fold (stats_reachable g) in Hle.
    assert (0 <= len (stats_reachable g)) as Hge by (unfold len; lia).
    assert (0 < inject_Z (N_vertices g))%Q as Hpos
        by (rewrite <- (Zlt_Qlt 0); exact HN).
    assert (0 <= inject_Z (len (stats_reachable g)))%Q as Hge'
        by (rewrite <- (Zle_Qle 0); exact Hge).
    assert (inject_Z (len (stats_reachable g)) <= inject_Z (N_vertices g))%Q as Hle'
        by (rewrite <- Zle_Qle; lia).
    split.
    - apply Qle_shift_div_l; [exact Hpos|]. lra.
    - apply Qle_shift_div_r; [exact Hpos|]. lra. }
  rewrite Hm, Hr. destruct (stats_reachable g) as [|v l]; simpl.
  - split; reflexivity.
  - split; [discriminate|]. unfold len. simpl. lia.
Qed.

Lemma result_distances_reachable g r :
  result_distances g = Ok r ->
  stats_reachable g = map fst r /\ map (d_hat_get g) (stats_reachable g) = map snd r.
Proof.
  unfold result_distances, stats_reachable. intros Hrun.
  assert (forall l acc r0,
             for_each l
               (fun r1 v0 => let* d_v := subscript (d_hat g) v0 in
                             if num_eqb d_v Inf then Ok r1 else Ok (r1 ++ [(v0, d_v)]))
               acc = Ok r0 ->
             map fst r0
             = map fst acc ++ List.filter (fun v => negb (num_eqb (d_hat_get g v) Inf)) l
             /\ map snd r0
                = map snd acc
                  ++ map (d_hat_get g)
                       (List.filter (fun v => negb (num_eqb (d_hat_get g v) Inf)) l))
    as Hgen.
  { induction l as [|x l IH]; intros acc r0; simpl.
    - intros H. inversion H. rewrite !app_nil_r. auto.
    - unfold subscript at 1. destruct (d_hat g !! x) as [d_x|] eqn:Hx; [|discriminate].
      assert (d_hat_get g x = d_x) as Hget by (unfold d_hat_get; rewrite Hx; reflexivity).
      rewrite Hget. cbn [bind].
      destruct (num_eqb d_x Inf); cbn [negb]; intros H; apply IH in H; [exact H|].
      rewrite !map_app in H. cbn [map fst snd] in H. rewrite <- !app_assoc in H.
      cbn [map app]. rewrite Hget. exact H. }
  destruct (Hgen _ _ _ Hrun) as [H1 H2]. simpl in H1, H2. auto.
Qed.

(** X18.  Read after a solve that returned, the statistics describe the
    returned map: [n] is the vertex count given, [k_param] and [t_param] are
    the derived parameters, [reachable_count] is the size of the map,
    [unreachable_count] the rest of [range(n)], and [max_distance] is the
    largest returned distance, [None] when the map is empty. *)
Theorem statistics_after_a_solve g0 n m_val edges source distances g :
  solve_sssp_directed_real_weights g0 n m_val edges source = Ok (distances, g) ->
  let st := get_sssp_statistics g in
  stats_n st = n
  /\ stats_k_param st = derive_k_param (Z.max 2 n)
  /\ stats_t_param st = derive_t_param (Z.max 2 n)
  /\ stats_reachable_count st = len distances
  /\ stats_unreachable_count st = Z.max 0 n - len distances
  /\ match stats_max_distance st with
     | None => distances = []
     | Some m => (exists v, In (v, m) distances)
                 /\ forall v d, In (v, d) distances -> num_le d m
     end.
Proof.
  intros Hsolve st.
  destruct (solve_final_state _ _ _ _ _ _ _ Hsolve) as (HN & Hk & Ht & Hres & _).
  destruct (statistics_head g) as (Hn & Hk' & Ht' & Hr & Hu & _ & Hm).
  fold st in Hn, Hk', Ht', Hr, Hu, Hm.
  destruct (result_distances_reachable _ _ Hres) as [Hfst Hsnd].
  assert (len (stats_reachable g) = len distances) as Hlen
      by (rewrite Hfst; unfold len; rewrite length_map; reflexivity).
  split; [congruence|]. split; [congruence|]. split; [congruence|].
  split; [congruence|]. split.
  { rewrite Hu, <- Hlen, <- HN, <- range_length. unfold stats_reachable, stats_unreachable.
    rewrite <- (filter_partition_length (fun v => num_eqb (d_hat_get g v) Inf)
                  (range (N_vertices g))). lia. }
  rewrite Hm, Hsnd. destruct distances as [|[v0 d0] distances]; [reflexivity|].
  cbn [map snd]. destruct (list_max_spec (map snd distances) d0) as [Hin Hmax]. split.
  - change (d0 :: map snd distances) with (map snd ((v0, d0) :: distances)) in Hin.
    apply in_map_iff in Hin. destruct Hin as ([v d] & Heq & Hin'). simpl in Heq. subst d.
    exists v. exact Hin'.
  - intros v d Hvd. apply Hmax.
    change (d0 :: map snd distances) with (map snd ((v0, d0) :: distances)).
    apply in_map_iff. exists (v, d). auto.
Qed.

Lemma statistics_after_a_solve_witness :
  match solve_sssp_directed_real_weights fresh_globals 8 5 chain_with_shortcut 0 with
  | Ok (distances, g) =>
    let st := get_sssp_statistics g in
    stats_n st = 8
    /\ stats_k_param st = derive_k_param (Z.max 2 8)
    /\ stats_t_param st = derive_t_param (Z.max 2 8)
    /\ stats_reachable_count st = len distances
    /\ stats_unreachable_count st = Z.max 0 8 - len distances
    /\ match stats_max_distance st with
       | None => distances = []
       | Some m => (exists v, In (v, m) distances)
                   /\ forall v d, In (v, d) distances -> num_le d m
       end
  | Raise _ => False
  end.
Proof.
  destruct (solve_sssp_directed_real_weights fresh_globals 8 5 chain_with_shortcut 0)
    as [[distances g]|e] eqn:Hrun.
  - exact (statistics_after_a_solve _ _ _ _ _ _ _ Hrun).
  - rewrite solve_8 in Hrun. vm_compute in Hrun. discriminate Hrun.
Defined.

(** ** Counting the mismatches between two distance maps *)

Lemma dict_keys_In {V : Type} (d : gmap Z V) v :
  In v (dict_keys d) <-> exists x, d !! v = Some x.
Proof.
  unfold dict_keys. rewrite in_map_iff. split.
  - intros ([k x] & <- & Hin). exists x.
    apply list_elem_of_In, elem_of_map_to_list in Hin. exact Hin.
  - intros [x Hx]. exists (v, x). split; [reflexivity|].
    apply list_elem_of_In, elem_of_map_to_list. exact Hx.
Qed.

Lemma count_mismatches_fold (test_dist ref_dist : gmap Z num) :
  forall l m e,
    let r := fold_left
               (fun '(mismatches, total_error) v =>
                  let ref_d := default Inf (ref_dist !! v) in
                  let test_d := default Inf (test_dist !! v) in
                  if differs ref_d test_d then
                    (mismatches + 1,
                     match ref_d, test_d with
                     | Fin x, Fin y => (total_error + Qabs (x - y))%Q
                     | _, _ => total_error
                     end)
                  else (mismatches, total_error))
               l (m, e) in
    fst r = m + len (List.filter
                       (fun v => differs (default Inf (ref_dist !! v))
                                         (default Inf (test_dist !! v))) l)
    /\ (e <= snd r)%Q.
Proof.
  induction l as [|v l IH]; intros m e; cbn [fold_left List.filter].
  - unfold len. simpl. split; [lia|lra].
  - cbv zeta.
    destruct (differs (default Inf (ref_dist !! v)) (default Inf (test_dist !! v))).
    + match goal with
      | |- context [fold_left ?f l (m + 1, ?e')] =>
        destruct (IH (m + 1) e') as [H1 H2];
        assert (e <= e')%Q as He
      end.
      { destruct (default Inf (ref_dist !! v)), (default Inf (test_dist !! v)); try lra.
        pose proof (Qabs_nonneg (q - q0)). lra. }
      cbv zeta in H1, H2. rewrite H1. split; [unfold len; simpl; lia|lra].
    + apply IH.
Qed.

(** X19.  [count_mismatches] counts the vertices on which the two maps
    differ by more than 1e-9, a vertex missing from a map standing at
    infinity there: the count is zero exactly when the maps agree within
    1e-9 on every vertex, and neither the count nor the average error is
    negative. *)
Theorem count_mismatches_is_zero_iff_the_maps_agree (test_dist ref_dist : gmap Z num) :
  let mismatches := fst (count_mismatches test_dist ref_dist) in
  let avg_error := snd (count_mismatches test_dist ref_dist) in
  0 <= mismatches /\ (0 <= avg_error)%Q
  /\ (mismatches = 0
      <-> forall v, differs (default Inf (ref_dist !! v))
                            (default Inf (test_dist !! v)) = false).
Proof.
  unfold count_mismatches. cbv zeta.
  pose proof (count_mismatches_fold test_dist ref_dist
                (set_update (set_of_list (dict_keys ref_dist)) (dict_keys test_dist))
                0 0%Q) as Hfold.
  cbv zeta in Hfold.
  match type of Hfold with
  | fst ?r = _ /\ _ => destruct r as [mismatches total_error] eqn:Hrun
  end.
  cbn [fst snd] in *. destruct Hfold as [Hcount Htotal].
  split; [rewrite Hcount; unfold len; lia|]. split.
  { destruct (mismatches >? 0) eqn:Hpos; [|lra]. apply Z.gtb_lt in Hpos.
    apply Qle_shift_div_l; [rewrite <- (Zlt_Qlt 0); exact Hpos|lra]. }
  rewrite Hcount. split.
  - intros Hzero v.
    destruct (differs (default Inf (ref_dist !! v)) (default Inf (test_dist !! v)))
      eqn:Hd; [|reflexivity].
    exfalso.
    assert (In v (set_update (set_of_list (dict_keys ref_dist)) (dict_keys test_dist)))
      as Hin.
    { apply set_update_In. rewrite set_of_list_In, !dict_keys_In.
      destruct (ref_dist !! v) as [x|]; [right; eauto|].
      destruct (test_dist !! v) as [y|]; [left; eauto|]. discriminate Hd. }
    assert (In v (List.filter
                    (fun v => differs (default Inf (ref_dist !! v))
                                      (default Inf (test_dist !! v)))
                    (set_update (set_of_list (dict_keys ref_dist)) (dict_keys test_dist))))
      as Hf by (apply filter_In; auto).
    destruct (List.filter _ _); [destruct Hf|]. unfold len in Hzero. simpl in Hzero. lia.
  - intros Hall.
    assert (forall l,
               List.filter
                 (fun v => differs (default Inf (ref_dist !! v))
                                   (default Inf (test_dist !! v))) l = []) as Hnil.
    { induction l as [|v l IH]; [reflexivity|]. simpl. rewrite Hall. exact IH. }
    rewrite Hnil. reflexivity.
Qed.

(** ** The graph of the reference run *)

(** The loop of the reference reads the graph through
    [graph_dict.get(u, {})] only. *)
Lemma dijkstra_loop_ext (graph1 graph2 : Graph) :
  (forall u, default [] (graph1 !! u) = default [] (graph2 !! u)) ->
  forall passes dist pq visited,
    dijkstra_loop passes graph1 dist pq visited
    = dijkstra_loop passes graph2 dist pq visited.
Proof.
  intros Hext. induction passes as [|passes IH]; intros dist pq visited;
    destruct pq as [|[d u] pq]; try reflexivity.
  cbn [dijkstra_loop]. rewrite Hext.
  destruct (set_mem u visited); [apply IH|].
  destruct (fold_left (dijkstra_relax d) (default [] (graph2 !! u)) (dist, pq)).
  apply IH.
Qed.

(** Passes beyond those that empty the heap change nothing. *)
Lemma dijkstra_loop_more_passes graph_dict :
  forall passes dist pq visited dist',
    dijkstra_loop passes graph_dict dist pq visited = Some dist' ->
    forall passes', (passes <= passes')%nat ->
                    dijkstra_loop passes' graph_dict dist pq visited = Some dist'.
Proof.
  induction passes as [|passes IH]; intros dist pq visited dist' Hrun passes' Hle;
    destruct pq as [|[d u] pq].
  - destruct passes'; exact Hrun.
  - discriminate Hrun.
  - destruct passes'; exact Hrun.
  - destruct passes' as [|passes']; [lia|]. cbn [dijkstra_loop] in *.
    destruct (set_mem u visited); [apply (IH _ _ _ _ Hrun); lia|].
    destruct (fold_left (dijkstra_relax d) (default [] (graph_dict !! u)) (dist, pq)).
    apply (IH _ _ _ _ Hrun). lia.
Qed.

Lemma dijkstra_single_source_ext (graph1 graph2 : Graph) n source :
  (forall u, default [] (graph1 !! u) = default [] (graph2 !! u)) ->
  dijkstra_single_source graph1 n source = dijkstra_single_source graph2 n source.
Proof.
  intros Hext.
  destruct (dijkstra_loop_returns graph1 (S (edge_count graph1)) {[source := 0%Q]}
              [(0%Q, source)] []) as [d1 H1].
  { change (pending_edges graph1 []) with (edge_count graph1). simpl. lia. }
  destruct (dijkstra_loop_returns graph2 (S (edge_count graph2)) {[source := 0%Q]}
              [(0%Q, source)] []) as [d2 H2].
  { change (pending_edges graph2 []) with (edge_count graph2). simpl. lia. }
  unfold dijkstra_single_source. rewrite H1, H2. f_equal.
  pose proof (dijkstra_loop_more_passes _ _ _ _ _ _ H1
                (S (edge_count graph1) + S (edge_count graph2))%nat ltac:(lia)) as H1'.
  pose proof (dijkstra_loop_more_passes _ _ _ _ _ _ H2
                (S (edge_count graph1) + S (edge_count graph2))%nat ltac:(lia)) as H2'.
  rewrite (dijkstra_loop_ext _ _ Hext) in H1'. congruence.
Qed.

Lemma graph_dict_start n u :
  fold_left (fun (graph : Graph) i => <[i := []]> graph) (range n) ∅ !! u
  = if decide (0 <= u < n) then Some [] else None.
Proof.
  rewrite lookup_fill. destruct (decide (u ∈ range n)) as [Hin|Hout].
  - apply elem_of_range in Hin. rewrite decide_True by exact Hin. reflexivity.
  - rewrite decide_False by (rewrite <- elem_of_range; exact Hout).
    apply lookup_empty.
Qed.

Lemma edges_to_graph_dict_fold n edges :
  forall (acc acc' : Graph),
    (forall u, acc !! u <> None <-> 0 <= u < n) ->
    (forall u, default [] (acc !! u) = default [] (acc' !! u)) ->
    let built :=
      fold_left
        (fun graph '(u, v, weight) =>
           <[u := dict_set Z.eqb (default [] (graph !! u)) v weight]> graph)
        edges acc' in
    match for_each edges
            (fun graph '(u, v, weight) =>
               let* adj := subscript graph u in
               Ok (<[u := dict_set Z.eqb adj v weight]> graph))
            acc with
    | Ok graph =>
      (forall u v w, In (u, v, w) edges -> 0 <= u < n)
      /\ (forall u, graph !! u <> None <-> 0 <= u < n)
      /\ (forall u, default [] (graph !! u) = default [] (built !! u))
    | Raise e =>
      e = KeyError /\ exists u v w, In (u, v, w) edges /\ ~ 0 <= u < n
    end.
Proof.
  induction edges as [|[[u v] w] edges IH]; intros acc acc' Hdom Hext; cbv zeta.
  - simpl. split; [intros ? ? ? []|]. auto.
  - cbn [for_each fold_left]. unfold subscript at 1.
    destruct (acc !! u) as [adj|] eqn:Hu; cbn [bind].
    + assert (0 <= u < n) as Hin by (apply Hdom; congruence).
      specialize (IH (<[u := dict_set Z.eqb adj v w]> acc)
                     (<[u := dict_set Z.eqb (default [] (acc' !! u)) v w]> acc')).
      cbv zeta in IH.
      destruct (for_each edges _ (<[u := dict_set Z.eqb adj v w]> acc)) as [graph|e].
      * destruct IH as (Hall & Hdom' & Hext').
        { intros x. destruct (decide (x = u)) as [->|Hne].
          - rewrite lookup_insert_eq. split; [intros _; exact Hin|discriminate].
          - rewrite lookup_insert_ne by congruence. apply Hdom. }
        { intros x. destruct (decide (x = u)) as [->|Hne].
          - rewrite !lookup_insert_eq. cbn [default from_option id].
            rewrite <- Hext, Hu. reflexivity.
          - rewrite !lookup_insert_ne by congruence. apply Hext. }
        split; [|auto]. intros u0 v0 w0 [Heq|Hin0]; [inversion Heq; subst; exact Hin|eauto].
      * destruct IH as (He & u0 & v0 & w0 & Hin0 & Hout).
        { intros x. destruct (decide (x = u)) as [->|Hne].
          - rewrite lookup_insert_eq. split; [intros _; exact Hin|discriminate].
          - rewrite lookup_insert_ne by congruence. apply Hdom. }
        { intros x. destruct (decide (x = u)) as [->|Hne].
          - rewrite !lookup_insert_eq. cbn [default from_option id].
            rewrite <- Hext, Hu. reflexivity.
          - rewrite !lookup_insert_ne by congruence. apply Hext. }
        split; [exact He|]. exists u0, v0, w0. split; [right; exact Hin0|exact Hout].
    + split; [reflexivity|]. exists u, v, w. split; [left; reflexivity|].
      intros Hin. apply Hdom in Hin. congruence.
Qed.

(** X20.  [edges_to_graph_dict] returns exactly when every edge starts in
    [range(n)] and raises KeyError otherwise.  The graph it returns has the
    keys [range(n)] and, for every vertex, the same neighbours with the same
    weights in the same order as the graph the solve builds for itself, so
    the reference Dijkstra returns the same map on both. *)
Theorem edges_to_graph_dict_agrees_with_the_solve edges n :
  match edges_to_graph_dict edges n with
  | Ok graph =>
    (forall u v w, In (u, v, w) edges -> 0 <= u < n)
    /\ (forall u, graph !! u <> None <-> 0 <= u < n)
    /\ (forall u, default [] (graph !! u) = default [] (build_graph edges !! u))
    /\ (forall source, dijkstra_single_source graph n source
                       = dijkstra_single_source (build_graph edges) n source)
  | Raise e =>
    e = KeyError /\ exists u v w, In (u, v, w) edges /\ ~ 0 <= u < n
  end.
Proof.
  unfold edges_to_graph_dict.
  pose proof (edges_to_graph_dict_fold n edges
                (fold_left (fun (graph : Graph) i => <[i := []]> graph) (range n) ∅) ∅)
    as Hfold.
  cbv zeta in Hfold. fold (build_graph edges) in Hfold.
  assert (forall u,
             fold_left (fun (graph : Graph) i => <[i := []]> graph) (range n) ∅ !! u
             <> None <-> 0 <= u < n) as Hstart.
  { intros u. rewrite graph_dict_start.
    destruct (decide (0 <= u < n)) as [Hin|Hout]; split; intros H;
      [exact Hin|discriminate|congruence|tauto]. }
  assert (forall u,
             default []
               (fold_left (fun (graph : Graph) i => <[i := []]> graph) (range n) ∅ !! u)
             = default [] ((∅ : Graph) !! u)) as Hempty.
  { intros u. rewrite graph_dict_start, lookup_empty.
    destruct (decide (0 <= u < n)); reflexivity. }
  specialize (Hfold Hstart Hempty).
  destruct (for_each edges _ _) as [graph|e]; [|exact Hfold].
  destruct Hfold as (Hall & Hdom & Hext).
  split; [exact Hall|]. split; [exact Hdom|]. split; [exact Hext|].
  intros source. apply dijkstra_single_source_ext, Hext.
Qed.

(** ** A solve on a well-formed input raises no exception *)

(** *** Loops that cannot raise *)

Ltac use_loop H :=
  match type of H with
  | _ = ?rhs =>
    match goal with
    | |- context [for_each ?l ?b ?s] =>
      replace (for_each l b s) with rhs by (symmetry; exact H)
    end
  end.

Lemma for_each_returns {A S : Type} (I : S -> Prop) (body : S -> A -> result S) :
  forall (l : list A),
    (forall s a, In a l -> I s -> exists s', body s a = Ok s' /\ I s') ->
    forall s, I s -> exists s', for_each l body s = Ok s' /\ I s'.
Proof.
  induction l as [|a l IH]; intros Hbody s Hs; simpl.
  - eauto.
  - destruct (Hbody s a) as (s1 & -> & Hs1); [left; reflexivity|exact Hs|].
    cbn [bind]. apply IH; [|exact Hs1].
    intros s0 a0 Hin. apply Hbody. right. exact Hin.
Qed.

(** *** Later states *)

Lemma fin_finite n source graph g v :
  wf_state n source graph g -> fin n g v ->
  exists q k, d_hat g !! v = Some (Fin q) /\ path_alpha g !! v = Some (AFin k)
              /\ d_hat_get g v = Fin q /\ path_alpha_get g v = AFin k
              /\ walk graph source v q k.
Proof.
  intros (Hkeys & Hwalk & _) [Hr Hfin].
  destruct (Hwalk v) as [Hinf|(q & k & Hq & Hk & Hw)]; [contradiction|].
  exists q, k. destruct (Hkeys v Hr) as (Hd & Ha & _).
  unfold d_hat_get in Hq. unfold path_alpha_get in Hk.
  destruct (d_hat g !! v) as [d|] eqn:Ed; [|contradiction].
  destruct (path_alpha g !! v) as [a|] eqn:Ea; [|contradiction].
  cbn in Hq, Hk. subst d a.
  unfold d_hat_get, path_alpha_get. rewrite Ed, Ea. auto.
Qed.

Lemma extends_refl n source graph g : wf_state n source graph g -> extends n source graph g g.
Proof. intros H. split; [exact H|]. split; [auto|apply same_params_refl]. Qed.

Lemma extends_trans n source graph g1 g2 g3 :
  extends n source graph g1 g2 -> extends n source graph g2 g3 ->
  extends n source graph g1 g3.
Proof.
  intros (_ & Hf12 & Hp12) (Hwf & Hf23 & Hp23).
  split; [exact Hwf|]. split; [auto|]. eapply same_params_trans; eauto.
Qed.

Lemma well_formed_nonnegative n graph : well_formed_graph n graph -> nonnegative_weights graph.
Proof. intros H u v w Hin. apply (H u v w Hin). Qed.

(** *** One relaxation *)

(** The decision for an edge out of a vertex reached by a walk returns; when
    it accepts, the target is not the source and the write leaves a later
    state; when it does not, the target has a finite estimate already. *)
Lemma relax_decision_returns n source graph g u v w q k :
  well_formed_graph n graph -> wf_state n source graph g ->
  walk graph source u q k -> In (v, w) (default [] (graph !! u)) ->
  exists b, relax_decision g (Fin (q + w)) (AFin (k + 1)) u v = Ok b
            /\ (b = true ->
                extends n source graph g (set_vertex g v (Fin (q + w)) (AFin (k + 1)) u))
            /\ (b = false -> d_hat_get g v <> Inf).
Proof.
  intros Hgraph Hwf Hwalk Hin.
  pose proof Hwf as (Hkeys & Hreach & Hnone & (Hs0 & Hsa & Hsp) & Hk).
  destruct (walk_nonnegative _ _ _ _ _ (well_formed_nonnegative _ _ Hgraph) Hwalk) as [Hq Hk0].
  destruct (Hgraph _ _ _ Hin) as (Hu & Hv & Hw).
  assert (v = source -> relax_decision g (Fin (q + w)) (AFin (k + 1)) u v = Ok false) as Hsrc.
  { intros ->. unfold relax_decision. rewrite Hsa.
    destruct (d_hat_get g source) as [s|] eqn:Es; [|contradiction]. cbn in Hs0.
    cbn [num_ltb num_eqb alpha_ltb alpha_eqb].
    assert (Qle_bool s (q + w) = true) as -> by (apply Qle_bool_iff; lra).
    cbn [negb].
    assert ((k + 1 <? 0) = false) as -> by lia.
    assert ((k + 1 =? 0) = false) as -> by lia.
    destruct (Qeq_bool (q + w) s); reflexivity. }
  assert (d_hat_get g v = Inf ->
          relax_decision g (Fin (q + w)) (AFin (k + 1)) u v = Ok true) as Hinf.
  { intros E. unfold relax_decision. rewrite E. reflexivity. }
  assert (exists b, relax_decision g (Fin (q + w)) (AFin (k + 1)) u v = Ok b) as [b Hb].
  { destruct (decide (v = source)) as [E|Hne]; [eauto|].
    destruct (d_hat_get g v) as [dv|] eqn:Ev; [|eauto].
    unfold relax_decision. rewrite Ev.
    destruct (num_ltb _ _); [eauto|]. destruct (num_eqb _ _); [|eauto].
    destruct (alpha_ltb _ _); [eauto|]. destruct (alpha_eqb _ _); [|eauto].
    unfold lt_pred_get. destruct (pred g !! v) as [[p|]|] eqn:Ep; eauto.
    destruct (Hnone v Ep) as [?|E]; [contradiction|]. rewrite Ev in E. discriminate. }
  exists b. split; [exact Hb|]. split.
  - intros ->.
    assert (v <> source) as Hne by (intros E; rewrite (Hsrc E) in Hb; discriminate).
    split; [|split].
    + split; [|split; [|split; [|split]]].
      * intros x Hx. destruct (Hkeys x Hx) as (Hd & Ha & Hpx). unfold set_vertex.
        cbn [d_hat path_alpha pred].
        destruct (decide (x = v)) as [->|Hxv].
        -- rewrite !lookup_insert_eq. repeat split; discriminate.
        -- rewrite !lookup_insert_ne by congruence. auto.
      * intros x. rewrite d_hat_get_set_vertex, path_alpha_get_set_vertex.
        destruct (decide (x = v)) as [->|Hxv]; [|apply Hreach].
        right. exists (q + w)%Q, (k + 1). split; [reflexivity|]. split; [reflexivity|].
        eapply walk_step; eauto.
      * intros x. rewrite d_hat_get_set_vertex. unfold set_vertex. cbn [pred].
        destruct (decide (x = v)) as [->|Hxv].
        -- rewrite lookup_insert_eq. discriminate.
        -- rewrite lookup_insert_ne by congruence. apply Hnone.
      * rewrite d_hat_get_set_vertex, path_alpha_get_set_vertex.
        unfold set_vertex. cbn [pred].
        destruct (decide (source = v)) as [E|_]; [congruence|].
        rewrite lookup_insert_ne by congruence. auto.
      * exact Hk.
    + intros x [Hx Hfin]. split; [exact Hx|]. rewrite d_hat_get_set_vertex.
      destruct (decide (x = v)); [discriminate|exact Hfin].
    + apply set_vertex_params.
  - intros -> E. rewrite (Hinf E) in Hb. discriminate.
Qed.

(** *** BaseCase *)

Lemma BaseCase_accepts_decision B g current_d current_alpha u v w :
  BaseCase_accepts B g current_d current_alpha u v w
  = if num_ltb (num_add current_d (Fin w)) B
    then relax_decision g (num_add current_d (Fin w)) (alpha_succ current_alpha) u v
    else Ok false.
Proof. reflexivity. Qed.

Lemma walk_estimate_later n source graph g g' u d a :
  extends n source graph g g' ->
  walk_estimate n source graph g u d a -> walk_estimate n source graph g' u d a.
Proof. intros (_ & Hfin & _) [Hu Hw]. split; auto. Qed.

Lemma heap_ok_later n source graph g g' H :
  extends n source graph g g' ->
  heap_ok (walk_estimate n source graph g) H -> heap_ok (walk_estimate n source graph g') H.
Proof. intros Hext HH d a u p Hin. eapply walk_estimate_later; eauto. Qed.

Lemma set_vertex_fin n g v q a p :
  in_range n v -> fin n (set_vertex g v (Fin q) a p) v.
Proof.
  intros Hv. split; [exact Hv|]. rewrite d_hat_get_set_vertex.
  destruct (decide (v = v)); [discriminate|congruence].
Qed.

Lemma BaseCase_relax_returns n source graph B u q k g H e :
  well_formed_graph n graph -> wf_state n source graph g ->
  heap_ok (walk_estimate n source graph g) H ->
  walk graph source u q k -> In e (default [] (graph !! u)) ->
  exists g' H',
    BaseCase_relax B (Fin q) (AFin k) u (g, H) e = Ok (g', H')
    /\ extends n source graph g g'
    /\ heap_ok (walk_estimate n source graph g') H'.
Proof.
  intros Hgraph Hwf HH Hwalk Hin. destruct e as [v w].
  unfold BaseCase_relax. rewrite BaseCase_accepts_decision.
  cbn [num_add alpha_succ].
  destruct (num_ltb (Fin (q + w)) B).
  2:{ cbn [bind]. exists g, H. split; [reflexivity|]. split; [apply extends_refl|]; auto. }
  destruct (relax_decision_returns _ _ _ _ _ _ _ _ _ Hgraph Hwf Hwalk Hin)
    as (b & -> & Hacc & _).
  cbn [bind]. destruct b.
  2:{ exists g, H. split; [reflexivity|]. split; [apply extends_refl|]; auto. }
  specialize (Hacc eq_refl). eexists _, _. split; [reflexivity|]. split; [exact Hacc|].
  intros d a x p Hx. apply heappush_In in Hx. destruct Hx as [Heq|Hx].
  - inversion Heq. subst. split.
    + apply set_vertex_fin. apply (Hgraph _ _ _ Hin).
    + exists (q + w)%Q, (k + 1). split; [reflexivity|]. split; [reflexivity|].
      eapply walk_step; eauto.
  - eapply walk_estimate_later; [exact Hacc|]. eapply HH. exact Hx.
Qed.

Lemma dict_set_keys {V : Type} (d : list (Z * V)) key v x :
  In x (map fst (dict_set Z.eqb d key v)) -> x = key \/ In x (map fst d).
Proof.
  induction d as [|[k0 v0] d IH]; simpl.
  - intros [<-|[]]. auto.
  - destruct (key =? k0) eqn:E; simpl.
    + apply Z.eqb_eq in E. subst. tauto.
    + intros [<-|Hx]; [auto|]. destruct (IH Hx); auto.
Qed.

Lemma BaseCase_loop_returns n source graph B :
  well_formed_graph n graph ->
  forall budget g U0 candidates H,
    wf_state n source graph g ->
    heap_ok (walk_estimate n source graph g) H ->
    (forall x, In x U0 -> fin n g x) ->
    (forall x, In x (map fst candidates) -> fin n g x) ->
    exists g' U0' candidates',
      BaseCase_loop budget graph B g U0 candidates H = Ok (g', U0', candidates')
      /\ extends n source graph g g'
      /\ (forall x, In x U0' -> fin n g' x)
      /\ (forall x, In x (map fst candidates') -> fin n g' x).
Proof.
  intros Hgraph.
  induction budget as [|budget IH]; intros g U0 candidates H Hwf HH HU Hc.
  - exists g, U0, candidates. split; [reflexivity|]. split; [apply extends_refl|]; auto.
  - induction H as [|[[[current_d current_alpha] u] current_pred_u] H IHH].
    + rewrite BaseCase_loop_nil. exists g, U0, candidates.
      split; [reflexivity|]. split; [apply extends_refl|]; auto.
    + assert (heap_ok (walk_estimate n source graph g) H) as HH'
          by (intros d a x p Hx; eapply HH; right; exact Hx).
      destruct (HH current_d current_alpha u current_pred_u) as [Hu (q & k & -> & -> & Hwalk)];
        [left; reflexivity|].
      rewrite BaseCase_loop_cons.
      destruct (BaseCase_stale g _); [exact (IHH HH')|].
      destruct (set_mem u U0); [exact (IHH HH')|].
      destruct (for_each_returns
                  (fun st : globals * list heap_entry =>
                     extends n source graph g (fst st)
                     /\ heap_ok (walk_estimate n source graph (fst st)) (snd st))
                  (BaseCase_relax B (Fin q) (AFin k) u)
                  (default [] (graph !! u))) with (s := (g, H))
        as ([g1 H1] & Hrun & Hext1 & HH1).
      { intros [g2 H2] e Hin [Hext2 HH2]. cbn [fst snd] in *.
        destruct (BaseCase_relax_returns n source graph B u q k g2 H2 e)
          as (g3 & H3 & -> & Hext3 & HH3); auto; [apply Hext2|].
        exists (g3, H3). split; [reflexivity|]. cbn [fst snd].
        split; [eapply extends_trans; eauto|exact HH3]. }
      { cbn [fst snd]. split; [apply extends_refl; exact Hwf|exact HH']. }
      use_loop Hrun. cbn [fst snd bind] in *.
      pose proof Hext1 as (Hwf1 & Hfin1 & _).
      destruct (IH g1 (set_add u U0) (dict_set Z.eqb candidates u (Fin q)) H1)
        as (g' & U0' & candidates' & -> & Hext' & HU' & Hc'); auto.
      { intros x Hx. apply set_add_In in Hx. destruct Hx as [->|Hx]; auto. }
      { intros x Hx. apply dict_set_keys in Hx. destruct Hx as [->|Hx]; auto. }
      exists g', U0', candidates'. split; [reflexivity|].
      split; [eapply extends_trans; eauto|]. auto.
Qed.

Lemma heap_ok_seed_fin n source graph g :
  wf_state n source graph g ->
  forall S H, (forall x, In x S -> fin n g x) ->
  heap_ok (walk_estimate n source graph g) H ->
  heap_ok (walk_estimate n source graph g)
          (fold_left
             (fun H x => heappush H (d_hat_get g x, path_alpha_get g x, x,
                                     pred_or_minus_one g x)) S H).
Proof.
  intros Hwf. induction S as [|x S IH]; intros H HS HH; [exact HH|].
  cbn [fold_left]. apply IH; [intros y Hy; apply HS; right; exact Hy|].
  intros d a u p Hin. apply heappush_In in Hin.
  destruct Hin as [Heq|Hin]; [|eauto]. inversion Heq. subst.
  assert (fin n g x) as Hu by (apply HS; left; reflexivity).
  split; [exact Hu|].
  destruct (fin_finite _ _ _ _ _ Hwf Hu) as (q & k & _ & _ & -> & -> & Hw). eauto.
Qed.

Lemma BaseCase_returns n source graph g B (S : pyset) :
  well_formed_graph n graph -> wf_state n source graph g ->
  (forall x, In x S -> fin n g x) ->
  exists B' U g',
    BaseCase g B S graph = Ok (B', U, g')
    /\ extends n source graph g g'
    /\ (forall x, In x U -> fin n g' x).
Proof.
  intros Hgraph Hwf HS. unfold BaseCase, BaseCase_completed.
  destruct (BaseCase_loop_returns n source graph B Hgraph (Z.to_nat (k_param g + 1)) g [] []
                                  (BaseCase_seed g S))
    as (g1 & U0 & candidates & -> & Hext & HU & Hc); auto.
  { apply heap_ok_seed_fin; auto. intros d a u p []. }
  { intros x []. }
  { intros x []. }
  cbn [bind].
  destruct (len U0 <=? k_param g1);
    [exists B, U0, g1; split; [reflexivity|]; split; assumption|].
  cbv zeta.
  pose proof Hext as ((_ & _ & _ & _ & Hk) & _).
  assert (exists B_prime,
             (if len (sorted (map snd candidates)) >? k_param g1
              then py_index (sorted (map snd candidates)) (k_param g1)
              else match sorted (map snd candidates) with
                   | d :: ds => Ok (list_max d ds)
                   | [] => Ok B
                   end) = Ok B_prime) as [B_prime ->].
  { destruct (len (sorted (map snd candidates)) >? k_param g1) eqn:E.
    - rewrite py_index_nonneg by exact Hk.
      destruct (nth_error _ _) eqn:En; [eauto|].
      apply nth_error_None in En. unfold len in E. lia.
    - destruct (sorted (map snd candidates)); eauto. }
  cbn [bind]. eexists _, _, _. split; [reflexivity|]. split; [exact Hext|].
  intros x Hx. apply (proj1 (set_of_list_In _ _)) in Hx. apply Hc.
  apply in_map_iff in Hx. destruct Hx as ([y dy] & <- & Hy).
  apply List.filter_In in Hy. apply in_map_iff. exists (y, dy). tauto.
Qed.

(** *** Sets stay increasing lists *)

Lemma set_add_sorted x (s : pyset) :
  StronglySorted Z.lt s -> StronglySorted Z.lt (set_add x s).
Proof.
  induction s as [|y s IH]; intros Hs; simpl.
  - repeat constructor.
  - inversion Hs as [|? ? Hs' Hall]. subst.
    destruct (x <? y) eqn:E1.
    + apply Z.ltb_lt in E1. constructor; [exact Hs|]. constructor; [exact E1|].
      eapply List.Forall_impl; [|exact Hall]. intros z Hz. cbn in Hz. lia.
    + destruct (x =? y) eqn:E2; [exact Hs|].
      apply Z.ltb_ge in E1. apply Z.eqb_neq in E2.
      constructor; [apply IH; exact Hs'|].
      apply List.Forall_forall. intros z Hz. apply set_add_In in Hz.
      destruct Hz as [->|Hz]; [lia|].
      rewrite List.Forall_forall in Hall. apply Hall. exact Hz.
Qed.

Lemma set_update_sorted (l : list Z) :
  forall s : pyset, StronglySorted Z.lt s -> StronglySorted Z.lt (set_update s l).
Proof.
  unfold set_update. induction l as [|x l IH]; intros s Hs; [exact Hs|].
  cbn [fold_left]. apply IH, set_add_sorted, Hs.
Qed.

Lemma sorted_NoDup (s : pyset) : StronglySorted Z.lt s -> NoDup s.
Proof.
  induction 1 as [|x s Hs IH Hall]; constructor; [|exact IH].
  rewrite List.Forall_forall in Hall. rewrite list_elem_of_In.
  intros Hx. specialize (Hall x Hx). lia.
Qed.

(** *** FindPivots *)

Lemma FindPivots_accepts_decision g u v w d_u a_u :
  d_hat g !! u = Some d_u -> path_alpha g !! u = Some a_u ->
  FindPivots_accepts g u v w
  = relax_decision g (num_add d_u (Fin w)) (alpha_succ a_u) u v.
Proof.
  intros Hd Ha. unfold FindPivots_accepts, subscript. rewrite Hd, Ha. reflexivity.
Qed.

Lemma FindPivots_relax_returns n source graph B u g (W Wi : pyset) e :
  well_formed_graph n graph -> wf_state n source graph g -> fin n g u ->
  In e (default [] (graph !! u)) ->
  (forall x, In x W -> fin n g x) -> (forall x, In x Wi -> fin n g x) ->
  exists g' W' Wi',
    FindPivots_relax B u (g, W, Wi) e = Ok (g', W', Wi')
    /\ extends n source graph g g'
    /\ (forall x, In x W' -> fin n g' x) /\ (forall x, In x Wi' -> fin n g' x).
Proof.
  intros Hgraph Hwf Hu Hin HW HWi. destruct e as [v w].
  destruct (fin_finite _ _ _ _ _ Hwf Hu) as (q & k & Hd & Ha & Hdg & Hag & Hwalk).
  unfold FindPivots_relax. rewrite (FindPivots_accepts_decision _ _ _ _ _ _ Hd Ha).
  rewrite Hdg, Hag. cbn [num_add alpha_succ].
  destruct (relax_decision_returns _ _ _ _ _ _ _ _ _ Hgraph Hwf Hwalk Hin)
    as (b & -> & Hacc & Hrej).
  cbn [bind]. cbv zeta.
  assert (in_range n v) as Hv by apply (Hgraph _ _ _ Hin).
  set (g' := if b then set_vertex g v (Fin (q + w)) (AFin (k + 1)) u else g).
  assert (extends n source graph g g' /\ fin n g' v) as [Hext Hfv].
  { subst g'. destruct b.
    - split; [auto|]. apply set_vertex_fin, Hv.
    - split; [apply extends_refl, Hwf|]. split; auto. }
  pose proof Hext as (_ & Hmono & _).
  destruct (if HEURISTICS_ENABLED && HEURISTICS_BOUNDARY_EQUALITY
            then num_leb (d_hat_get g' v) B else num_ltb (d_hat_get g' v) B).
  - eexists _, _, _. split; [reflexivity|]. split; [exact Hext|].
    split; intros x Hx; apply set_add_In in Hx; destruct Hx as [->|Hx]; auto.
  - eexists _, _, _. split; [reflexivity|]. split; [exact Hext|]. split; auto.
Qed.

Lemma FindPivots_round_returns n source graph B g (W Wi : pyset) :
  well_formed_graph n graph -> wf_state n source graph g ->
  (forall x, In x W -> fin n g x) -> (forall x, In x Wi -> fin n g x) ->
  exists g' W' Wi',
    FindPivots_round graph B g W Wi = Ok (g', W', Wi')
    /\ extends n source graph g g'
    /\ (forall x, In x W' -> fin n g' x) /\ (forall x, In x Wi' -> fin n g' x).
Proof.
  intros Hgraph Hwf HW HWi. unfold FindPivots_round.
  pose (I := fun st : globals * pyset * pyset =>
               extends n source graph g (fst (fst st))
               /\ (forall x, In x (snd (fst st)) -> fin n (fst (fst st)) x)
               /\ (forall x, In x (snd st) -> fin n (fst (fst st)) x)).
  destruct (for_each_returns I
              (fun st u => match graph !! u with
                           | None => Ok st
                           | Some edges => for_each edges (FindPivots_relax B u) st
                           end) Wi) with (s := (g, W, @nil Z))
    as ([[g' W'] Wi'] & Hrun & Hext & HW' & HWi').
  - intros [[g1 W1] Wi1] u Hu (Hext1 & HW1 & HWi1). cbn [fst snd] in *.
    destruct (graph !! u) as [edges|] eqn:Eu.
    2:{ exists (g1, W1, Wi1). split; [reflexivity|].
        unfold I. cbn [fst snd]. split; [exact Hext1|split; assumption]. }
    apply (for_each_returns I);
      [|unfold I; cbn [fst snd]; split; [exact Hext1|split; assumption]].
    intros [[g2 W2] Wi2] e He (Hext2 & HW2 & HWi2). cbn [fst snd] in *.
    destruct (FindPivots_relax_returns n source graph B u g2 W2 Wi2 e)
      as (g3 & W3 & Wi3 & -> & Hext3 & HW3 & HWi3); auto.
    + apply Hext2.
    + apply Hext2. auto.
    + rewrite Eu. exact He.
    + exists (g3, W3, Wi3). split; [reflexivity|]. cbn [fst snd].
      split; [eapply extends_trans; eauto|]. auto.
  - cbn [fst snd]. split; [apply extends_refl, Hwf|]. split; [exact HW|]. intros x [].
  - exists g', W', Wi'. auto.
Qed.

Lemma FindPivots_rounds_return n source graph B srcs :
  well_formed_graph n graph ->
  forall rounds g (W Wi : pyset),
    wf_state n source graph g ->
    (forall x, In x W -> fin n g x) -> (forall x, In x Wi -> fin n g x) ->
    exists g' W' early,
      FindPivots_rounds rounds graph B srcs g W Wi = Ok (g', W', early)
      /\ extends n source graph g g' /\ (forall x, In x W' -> fin n g' x).
Proof.
  intros Hgraph. induction rounds as [|rounds IH]; intros g W Wi Hwf HW HWi; simpl.
  - exists g, W, false. split; [reflexivity|]. split; [apply extends_refl, Hwf|exact HW].
  - destruct (FindPivots_round_returns n source graph B g W Wi)
      as (g1 & W1 & Wi1 & -> & Hext1 & HW1 & HWi1); auto.
    cbn [bind]. destruct (len W1 >? k_param g1 * len srcs).
    + exists g1, W1, true. auto.
    + destruct (IH g1 W1 Wi1) as (g' & W' & early & -> & Hext' & HW'); auto;
        [apply Hext1|].
      exists g', W', early. split; [reflexivity|].
      split; [eapply extends_trans; eauto|exact HW'].
Qed.

Lemma FindPivots_returns n source graph g B (S : pyset) :
  well_formed_graph n graph -> wf_state n source graph g ->
  (forall x, In x S -> fin n g x) -> NoDup S ->
  exists P W g',
    FindPivots g B S graph = Ok (P, W, g')
    /\ extends n source graph g g'
    /\ (forall x, In x W -> fin n g' x)
    /\ (forall x, In x P -> In x S) /\ NoDup P.
Proof.
  intros Hgraph Hwf HS Hnd. unfold FindPivots.
  destruct (FindPivots_rounds_return n source graph B S Hgraph (Z.to_nat (k_param g)) g S S)
    as (g1 & W & early & -> & Hext & HW); auto.
  cbn [bind]. destruct early.
  { exists S, W, g1. auto. }
  cbv zeta.
  destruct (for_each_returns
              (fun P : pyset => StronglySorted Z.lt P /\ forall x, In x P -> In x S)
              (fun P s_root =>
                 if set_mem s_root W then
                   let* '(subtree_size, _) :=
                     dfs_calculate_subtree_size (length W + 1) (build_F_adj g1 W S)
                                                s_root [] in
                   if subtree_size >=? k_param g1 then Ok (set_add s_root P) else Ok P
                 else Ok P) S) with (s := @nil Z)
    as (P & Hrun & Hsorted & HP).
  - intros P s_root Hroot [Hsorted HP].
    destruct (set_mem s_root W) eqn:Emem; [|eauto].
    apply set_mem_In in Emem.
    destruct (dfs_returns (build_F_adj g1 W S) W) with (root := s_root)
      as (size & visited & ->); [|exact Emem|].
    { intros p children c. apply build_F_adj_children. }
    cbn [bind]. destruct (size >=? k_param g1); [|eauto].
    eexists. split; [reflexivity|]. split; [apply set_add_sorted, Hsorted|].
    intros x Hx. apply set_add_In in Hx. destruct Hx as [->|Hx]; auto.
  - split; [constructor|]. intros x [].
  - use_loop Hrun. cbn [bind]. exists P, W, g1. split; [reflexivity|].
    split; [exact Hext|]. split; [exact HW|]. split; [exact HP|].
    apply sorted_NoDup, Hsorted.
Qed.

(** *** The frontier of a frame *)

Lemma dict_set_In {K V : Type} (eqb : K -> K -> bool) (d : list (K * V)) k x k' x' :
  In (k', x') (dict_set eqb d k x) -> x' = x \/ In (k', x') d.
Proof.
  induction d as [|[k0 x0] d IH]; simpl.
  - intros [H|[]]. inversion H. auto.
  - destruct (eqb k k0); simpl.
    + intros [H|H]; [inversion H; auto|auto].
    + intros [H|H]; [auto|]. destruct (IH H); auto.
Qed.

Lemma dict_del_In {K V : Type} (eqb : K -> K -> bool) (d : list (K * V)) k e :
  In e (dict_del eqb d k) -> In e d.
Proof.
  induction d as [|[k0 x0] d IH]; simpl; [tauto|].
  destruct (eqb k k0); simpl; [auto|]. intros [H|H]; auto.
Qed.

Lemma bucket_set_In {V : Type} (b : list (Z * V)) key e k' e' :
  In (k', e') (dict_set Z.eqb b key e) -> (k' = key /\ e' = e) \/ In (k', e') b.
Proof.
  induction b as [|[k0 x0] b IH]; simpl.
  - intros [H|[]]. inversion H. auto.
  - destruct (key =? k0) eqn:E; simpl.
    + apply Z.eqb_eq in E. subst k0. intros [H|H]; [inversion H; auto|auto].
    + intros [H|H]; [auto|]. destruct (IH H); auto.
Qed.

Lemma v2k_get_In {V : Type} (d : list (num * V)) v b :
  dict_get num_eqb d v = Some b -> exists v0, In (v0, b) d.
Proof.
  induction d as [|[k0 x0] d IH]; simpl; [discriminate|].
  destruct (num_eqb v k0).
  - intros H. inversion H. subst. eauto.
  - intros H. destruct (IH H) as [v0 Hv0]. eauto.
Qed.

Lemma bucket_get_entry {V : Type} (b : list (Z * V)) key e :
  dict_get Z.eqb b key = Some e -> In (key, e) b.
Proof.
  induction b as [|[k0 x0] b IH]; simpl; [discriminate|].
  destruct (key =? k0) eqn:E.
  - apply Z.eqb_eq in E. subst. intros H. inversion H. auto.
  - auto.
Qed.

Lemma stored_In d key v e :
  stored d key = Some (v, e) ->
  exists v0 b, In (v0, b) (D._value_to_keys d) /\ In (key, e) b.
Proof.
  unfold stored. destruct (D._key_to_value d !! key) as [value|]; [|discriminate].
  destruct (dict_get num_eqb (D._value_to_keys d) value) as [b|] eqn:Eb; [|discriminate].
  destruct (dict_get Z.eqb b key) as [e0|] eqn:Ee; [|discriminate].
  intros H. inversion H. subst.
  destruct (v2k_get_In _ _ _ Eb) as [v0 Hv0]. exists v0, b.
  split; [exact Hv0|]. apply bucket_get_entry, Ee.
Qed.

Lemma add_to_value_bucket_entries source d value key a p :
  only_source_without_pred source (D._value_to_keys d) ->
  (p = None -> key = source) ->
  only_source_without_pred source
    (D._value_to_keys (D._add_to_value_bucket d value key a p)).
Proof.
  intros Hent Hp. unfold D._add_to_value_bucket. cbn [D._value_to_keys].
  set (v2k := if negb (dict_mem num_eqb (D._value_to_keys d) value)
              then dict_set num_eqb (D._value_to_keys d) value []
              else D._value_to_keys d).
  assert (only_source_without_pred source v2k) as Hent'.
  { subst v2k. destruct (negb _); [|exact Hent].
    intros v b k0 a0 Hin Hk0. apply dict_set_In in Hin.
    destruct Hin as [->|Hin]; [destruct Hk0|eauto]. }
  intros v b k0 a0 Hin Hk0. apply dict_set_In in Hin. destruct Hin as [->|Hin]; [|eauto].
  apply bucket_set_In in Hk0. destruct Hk0 as [[-> He]|Hk0].
  - apply Hp. inversion He. reflexivity.
  - destruct (dict_get num_eqb v2k value) as [b0|] eqn:Eb; [|destruct Hk0].
    destruct (v2k_get_In _ _ _ Eb) as [v0 Hv0]. eauto.
Qed.

Lemma remove_key_entries source d key :
  only_source_without_pred source (D._value_to_keys d) ->
  only_source_without_pred source (D._value_to_keys (D._remove_key d key)).
Proof.
  intros Hent. unfold D._remove_key.
  destruct (D._key_to_value d !! key) as [old|]; [|exact Hent].
  destruct (dict_get num_eqb (D._value_to_keys d) old) as [valmap|] eqn:Eb; [|exact Hent].
  destruct (negb (is_nil valmap) && dict_mem Z.eqb valmap key); [|exact Hent].
  cbv zeta. destruct (is_nil (dict_del Z.eqb valmap key)); cbn [D._value_to_keys].
  - intros v b k0 a0 Hin. apply dict_del_In in Hin. eauto.
  - intros v b k0 a0 Hin Hk0. apply dict_set_In in Hin. destruct Hin as [->|Hin]; [|eauto].
    apply dict_del_In in Hk0. destruct (v2k_get_In _ _ _ Eb) as [v0 Hv0]. eauto.
Qed.

Lemma remove_key_lookup d key key' :
  D._key_to_value (D._remove_key d key) !! key'
  = if decide (key' = key) then None else D._key_to_value d !! key'.
Proof.
  unfold D._remove_key.
  destruct (D._key_to_value d !! key) as [old|] eqn:Eold.
  - assert (forall d', D._key_to_value d' = delete key (D._key_to_value d) ->
                       D._key_to_value d' !! key'
                       = if decide (key' = key) then None else D._key_to_value d !! key')
      as Hdel.
    { intros d' ->. destruct (decide (key' = key)) as [->|Hne].
      - apply lookup_delete_eq.
      - apply lookup_delete_ne. congruence. }
    destruct (dict_get num_eqb (D._value_to_keys d) old); [|apply Hdel; reflexivity].
    destruct (negb _ && _); [|apply Hdel; reflexivity].
    cbv zeta. destruct (is_nil _); apply Hdel; reflexivity.
  - destruct (decide (key' = key)) as [->|]; [exact Eold|reflexivity].
Qed.

(** An [Insert] of a finite vertex returns and leaves a frontier of the same
    kind, when the source is inserted only while it is absent and every other
    key comes with a predecessor. *)
Lemma Insert_returns n source g d key value a p :
  frontier_ok n source g d -> fin n g key ->
  (key = source -> D._key_to_value d !! key = None) ->
  (p = None -> key = source) ->
  exists d',
    D.Insert d key value a p = Ok d'
    /\ frontier_ok n source g d'
    /\ D.M d' = D.M d /\ D.B d' = D.B d
    /\ (forall key', key' <> key ->
                     D._key_to_value d' !! key' = D._key_to_value d !! key').
Proof.
  intros (Hinv & Hkeys & Hent) Hfin Hsrc Hp.
  assert (exists d',
             D.Insert d key value a p = Ok d'
             /\ (d' = d \/ d' = D._add_to_value_bucket d value key a p
                 \/ d' = D._add_to_value_bucket (D._remove_key d key) value key a p))
    as (d' & Hrun & Hcases).
  { rewrite (Insert_by_stored _ _ _ _ _ Hinv).
    destruct (stored d key) as [[ov [oa op]]|] eqn:Es; [|eauto].
    destruct (num_ltb ov value); [eauto|]. destruct (num_eqb value ov); [|eauto 6].
    destruct (alpha_ltb oa a); [eauto|]. destruct (alpha_eqb a oa); [|eauto 6].
    assert (key <> source) as Hne.
    { intros E. apply Hsrc in E. apply (stored_None _ _ Hinv) in E. congruence. }
    destruct p as [x|]; [|exfalso; auto].
    destruct op as [y|].
    - cbn [D.pred_geb bind]. destruct (x >=? y); eauto 6.
    - exfalso. apply Hne. destruct (stored_In _ _ _ _ Es) as (v0 & b & Hb & He). eauto. }
  exists d'. split; [exact Hrun|].
  destruct (Insert_inv _ _ _ _ _ _ Hinv Hrun) as (Hinv' & HM & HB).
  assert ((forall key' v, D._key_to_value d' !! key' = Some v -> fin n g key')
          /\ only_source_without_pred source (D._value_to_keys d')
          /\ (forall key', key' <> key ->
                           D._key_to_value d' !! key' = D._key_to_value d !! key'))
    as (Hkeys' & Hent' & Hother).
  { destruct Hcases as [->|[->| ->]].
    - auto.
    - split; [|split].
      + intros key' v. unfold D._add_to_value_bucket. cbn [D._key_to_value].
        destruct (decide (key' = key)) as [->|Hne]; [auto|].
        rewrite lookup_insert_ne by congruence. apply Hkeys.
      + apply add_to_value_bucket_entries; assumption.
      + intros key' Hne. unfold D._add_to_value_bucket. cbn [D._key_to_value].
        apply lookup_insert_ne. congruence.
    - split; [|split].
      + intros key' v. unfold D._add_to_value_bucket. cbn [D._key_to_value].
        destruct (decide (key' = key)) as [->|Hne]; [auto|].
        rewrite lookup_insert_ne by congruence. rewrite remove_key_lookup.
        destruct (decide (key' = key)); [discriminate|apply Hkeys].
      + apply add_to_value_bucket_entries; [apply remove_key_entries|]; assumption.
      + intros key' Hne. unfold D._add_to_value_bucket. cbn [D._key_to_value].
        rewrite lookup_insert_ne by congruence. rewrite remove_key_lookup.
        destruct (decide (key' = key)); [contradiction|reflexivity]. }
  split; [split; [exact Hinv'|split; assumption]|]. auto.
Qed.

Lemma frontier_ok_later n source graph g g' d :
  extends n source graph g g' -> frontier_ok n source g d -> frontier_ok n source g' d.
Proof.
  intros (_ & Hmono & _) (Hinv & Hkeys & Hent).
  split; [exact Hinv|]. split; [|exact Hent]. intros key v Hk. eauto.
Qed.

Lemma pull_loop_entries source M0 :
  forall values v2k k2v S_prime pulled values' v2k' k2v' S' pulled',
    D.pull_loop M0 values v2k k2v S_prime pulled = Ok (values', v2k', k2v', S', pulled') ->
    only_source_without_pred source v2k -> only_source_without_pred source v2k'.
Proof.
  induction values as [|v0 rest IH];
    intros v2k k2v S_prime pulled values' v2k' k2v' S' pulled'.
  - intros H. inversion H. auto.
  - rewrite pull_loop_cons. destruct (len S_prime <? M0).
    2:{ intros H. inversion H. auto. }
    cbv zeta.
    destruct (take_keys_spec M0 v0 (default [] (dict_get num_eqb v2k v0)) k2v S_prime pulled)
      as (taken & rest_b & Hsplit & Hrun & _).
    match goal with
    | |- context [D.take_keys ?x ?y ?z ?w] =>
      replace (D.take_keys x y z w) with
        (rest_b, fold_left (fun m key => delete key m) (map fst taken) k2v,
         set_update S_prime (map fst taken), pulled ++ map (fun _ => v0) taken)
        by (symmetry; exact Hrun)
    end.
    destruct (is_nil rest_b).
    + destruct (dict_get num_eqb v2k v0); [|discriminate]. intros H Hent.
      apply (IH _ _ _ _ _ _ _ _ _ H).
      intros v bk k0 a0 Hin. apply dict_del_In in Hin. eauto.
    + intros H Hent. inversion H. subst.
      intros v bk k0 a0 Hin Hk0. apply dict_set_In in Hin. destruct Hin as [->|Hin]; [|eauto].
      destruct (dict_get num_eqb v2k v0) as [b0|] eqn:Eb.
      * destruct (v2k_get_In _ _ _ Eb) as [v1 Hv1]. apply (Hent v1 b0 k0 a0 Hv1).
        cbn in Hsplit. rewrite Hsplit. apply in_or_app. auto.
      * cbn in Hsplit. destruct taken; [|discriminate]. cbn in Hsplit. subst rest_b.
        destruct Hk0.
Qed.

(** [Pull] returns distinct finite vertices, which the frontier no longer
    stores. *)
Lemma Pull_returns n source g d :
  frontier_ok n source g d ->
  exists x S_prime d',
    D.Pull d = Ok (x, S_prime, d')
    /\ frontier_ok n source g d'
    /\ D.M d' = D.M d
    /\ (forall key, In key S_prime -> fin n g key)
    /\ NoDup S_prime
    /\ (forall key, In key S_prime -> D._key_to_value d' !! key = None).
Proof.
  intros (Hinv & Hkeys & Hent).
  destruct (Pull_spec d Hinv) as (x & S_prime & d' & Hrun & Hinv' & HM & _ & Hcontract).
  exists x, S_prime, d'. split; [exact Hrun|].
  destruct Hcontract as (_ & Hpulled & Hleft & _).
  unfold D.Pull in Hrun.
  destruct (D.pull_loop _ _ _ _ _ _) as [[[[[values v2k] k2v] S'] pulled]|e] eqn:Hloop;
    cbn [bind] in Hrun; [|discriminate].
  inversion Hrun. subst S' d'. clear Hrun.
  destruct (pull_loop_keys _ _ _ _ _ _ _ _ _ _ _ Hloop) as (keys & Hk2v & HS).
  split; [split; [exact Hinv'|split]|].
  - intros key v Hk. destruct (Hleft key v Hk) as [Hk' _]. eauto.
  - cbn [D._value_to_keys]. eapply pull_loop_entries; eauto.
  - split; [exact HM|]. split; [|split].
    + intros key Hk. destruct (Hpulled key Hk) as (v & Hv & _). eauto.
    + rewrite HS. apply sorted_NoDup, set_update_sorted. constructor.
    + intros key Hk. cbn [D._key_to_value]. rewrite Hk2v, lookup_fold_delete.
      rewrite HS in Hk. apply (proj1 (set_update_In _ _ _)) in Hk. destruct Hk as [Hk|[]].
      apply (proj2 (set_mem_In _ _)) in Hk. rewrite Hk. reflexivity.
Qed.

(** *** The steps of a BMSSP frame *)

Lemma pred_get_minus_one_None n source graph g x :
  wf_state n source graph g -> fin n g x -> pred_get_minus_one g x = None -> x = source.
Proof.
  intros (_ & _ & Hnone & _) [_ Hfin]. unfold pred_get_minus_one.
  destruct (pred g !! x) as [p|] eqn:Ep; [|discriminate].
  intros ->. destruct (Hnone x Ep); [assumption|contradiction].
Qed.

Lemma subscripts_return n source graph g x :
  wf_state n source graph g -> fin n g x ->
  subscript (d_hat g) x = Ok (d_hat_get g x)
  /\ subscript (path_alpha g) x = Ok (path_alpha_get g x).
Proof.
  intros Hwf Hx. destruct (fin_finite _ _ _ _ _ Hwf Hx) as (q & k & Hd & Ha & Hdg & Hag & _).
  unfold subscript. rewrite Hd, Ha, Hdg, Hag. auto.
Qed.

Lemma insert_pivots_returns n source graph g :
  wf_state n source graph g ->
  forall (P : pyset) d,
    (forall x, In x P -> fin n g x) -> NoDup P ->
    frontier_ok n source g d ->
    (forall x, In x P -> D._key_to_value d !! x = None) ->
    exists d', insert_pivots g P d = Ok d' /\ frontier_ok n source g d'.
Proof.
  intros Hwf. unfold insert_pivots.
  induction P as [|x P IH]; intros d HP Hnd Hd Habs; cbn [for_each]; [eauto|].
  assert (fin n g x) as Hx by (apply HP; left; reflexivity).
  destruct (subscripts_return _ _ _ _ _ Hwf Hx) as [-> ->]. cbn [bind].
  apply NoDup_cons in Hnd. destruct Hnd as [Hfresh Hnd]. rewrite list_elem_of_In in Hfresh.
  destruct (Insert_returns n source g d x (d_hat_get g x) (path_alpha_get g x)
                           (pred_get_minus_one g x))
    as (d1 & -> & Hd1 & _ & _ & Hother); auto.
  { intros _. apply Habs. left. reflexivity. }
  { eapply pred_get_minus_one_None; eauto. }
  cbn [bind]. apply IH; auto.
  - intros y Hy. apply HP. right. exact Hy.
  - intros y Hy. rewrite Hother by congruence. apply Habs. right. exact Hy.
Qed.

Lemma seed_neighbors_returns n source graph g (W : pyset) d :
  well_formed_graph n graph -> wf_state n source graph g ->
  frontier_ok n source g d ->
  exists d', seed_neighbors g graph W d = Ok d' /\ frontier_ok n source g d'.
Proof.
  intros Hgraph Hwf Hd. unfold seed_neighbors.
  apply (for_each_returns (frontier_ok n source g)); [|exact Hd].
  intros d1 w Hw Hd1. destruct (graph !! w) as [edges|] eqn:Ew; [|eauto].
  apply (for_each_returns (frontier_ok n source g)); [|exact Hd1].
  intros d2 [v_nb w_nb] Hin Hd2.
  destruct (D._key_to_value d2 !! v_nb) eqn:Ek; [eauto|].
  destruct (d_hat_get g v_nb) as [dv|] eqn:Ev; [|eauto].
  assert (fin n g v_nb) as Hv.
  { split; [|congruence]. apply (Hgraph w v_nb w_nb). rewrite Ew. exact Hin. }
  destruct (Insert_returns n source g d2 v_nb (Fin dv)
                           (default (AFin 0) (path_alpha g !! v_nb))
                           (pred_get_minus_one g v_nb))
    as (d3 & -> & Hd3 & _); eauto.
  eapply pred_get_minus_one_None; eauto.
Qed.

Lemma min_d_hat_returns n source graph g (P : pyset) B :
  wf_state n source graph g -> (forall x, In x P -> fin n g x) ->
  exists m, (if is_nil P then Ok B else min_d_hat g P) = Ok m.
Proof.
  intros Hwf HP. destruct P as [|x P]; cbn [is_nil]; [eauto|].
  unfold min_d_hat.
  destruct (subscripts_return _ _ _ _ x Hwf) as [-> _]; [apply HP; left; reflexivity|].
  cbn [bind].
  destruct (for_each_returns (fun _ : num => True)
              (fun m y => let* d_y := subscript (d_hat g) y in Ok (num_min m d_y)) P)
    with (s := d_hat_get g x) as (m & Hrun & _); [|exact I|eauto].
  intros m y Hy _.
  destruct (subscripts_return _ _ _ _ y Hwf) as [-> _]; [apply HP; right; exact Hy|].
  cbn [bind]. eauto.
Qed.

Lemma BMSSP_relax_returns n source graph B Bi B_prime_i u g d e :
  well_formed_graph n graph -> wf_state n source graph g -> fin n g u ->
  In e (default [] (graph !! u)) -> frontier_ok n source g d ->
  exists g' d',
    BMSSP_relax B Bi B_prime_i u (g, d, []) e = Ok (g', d', [])
    /\ extends n source graph g g' /\ frontier_ok n source g' d'
    /\ D._key_to_value d' !! source = D._key_to_value d !! source.
Proof.
  intros Hgraph Hwf Hu Hin Hd. destruct e as [v w].
  destruct (fin_finite _ _ _ _ _ Hwf Hu) as (q & k & Hdu & Hau & Hdg & Hag & Hwalk).
  unfold BMSSP_relax.
  change (BMSSP_accepts g u v w) with (FindPivots_accepts g u v w).
  rewrite (FindPivots_accepts_decision _ _ _ _ _ _ Hdu Hau).
  rewrite Hdg, Hag. cbn [num_add alpha_succ].
  destruct (relax_decision_returns _ _ _ _ _ _ _ _ _ Hgraph Hwf Hwalk Hin)
    as (b & -> & Hacc & _).
  cbn [bind]. destruct b.
  2:{ exists g, d. split; [reflexivity|]. split; [apply extends_refl, Hwf|]. auto. }
  specialize (Hacc eq_refl). cbv zeta.
  change (HEURISTICS_ENABLED && HEURISTICS_RELAX_INSERT) with true. cbv iota.
  set (g' := set_vertex g v (Fin (q + w)) (AFin (k + 1)) u) in *.
  assert (v <> source) as Hne.
  { intros ->. destruct Hacc as ((_ & _ & _ & (_ & _ & Hp) & _) & _).
    subst g'. unfold set_vertex in Hp. cbn [pred] in Hp.
    rewrite lookup_insert_eq in Hp. discriminate. }
  destruct (Insert_returns n source g' d v (Fin (q + w)) (AFin (k + 1)) (Some u))
    as (d' & -> & Hd' & _ & _ & Hother).
  - eapply frontier_ok_later; eauto.
  - subst g'. apply set_vertex_fin. apply (Hgraph _ _ _ Hin).
  - intros E. contradiction.
  - discriminate.
  - cbn [bind]. exists g', d'. split; [reflexivity|]. split; [exact Hacc|].
    split; [exact Hd'|]. apply Hother. congruence.
Qed.

Lemma relax_completed_returns n source graph B Bi B_prime_i (Ui : pyset) g d :
  well_formed_graph n graph -> wf_state n source graph g ->
  (forall x, In x Ui -> fin n g x) -> frontier_ok n source g d ->
  exists g' d',
    relax_completed graph B Bi B_prime_i Ui g d = Ok (g', d', [])
    /\ extends n source graph g g' /\ frontier_ok n source g' d'
    /\ D._key_to_value d' !! source = D._key_to_value d !! source.
Proof.
  intros Hgraph Hwf HU Hd. unfold relax_completed.
  pose (I := fun st : globals * D.t * list D.item =>
               extends n source graph g (fst (fst st))
               /\ frontier_ok n source (fst (fst st)) (snd (fst st))
               /\ snd st = []
               /\ D._key_to_value (snd (fst st)) !! source = D._key_to_value d !! source).
  destruct (for_each_returns I
              (fun st u_completed =>
                 match graph !! u_completed with
                 | None => Ok st
                 | Some edges => for_each edges (BMSSP_relax B Bi B_prime_i u_completed) st
                 end) Ui) with (s := (g, d, @nil D.item))
    as ([[g' d'] K] & Hrun & Hext & Hd' & HK & Hsrc).
  - intros [[g1 d1] K1] u Hu (Hext1 & Hd1 & HK1 & Hsrc1). cbn [fst snd] in *. subst K1.
    destruct (graph !! u) as [edges|] eqn:Eu.
    2:{ exists (g1, d1, []). split; [reflexivity|]. unfold I. cbn [fst snd]. auto. }
    apply (for_each_returns I); [|unfold I; cbn [fst snd]; auto].
    intros [[g2 d2] K2] e He (Hext2 & Hd2 & HK2 & Hsrc2). cbn [fst snd] in *. subst K2.
    destruct (BMSSP_relax_returns n source graph B Bi B_prime_i u g2 d2 e)
      as (g3 & d3 & -> & Hext3 & Hd3 & Hsrc3); auto.
    + apply Hext2.
    + apply Hext2. auto.
    + rewrite Eu. exact He.
    + exists (g3, d3, []). split; [reflexivity|]. unfold I. cbn [fst snd].
      split; [eapply extends_trans; eauto|]. split; [exact Hd3|]. split; [reflexivity|].
      congruence.
  - unfold I. cbn [fst snd]. split; [apply extends_refl, Hwf|]. auto.
  - cbn [fst snd] in *. subst K. exists g', d'. auto.
Qed.

Lemma requeue_pulled_returns n source graph g Bi B_prime_i :
  wf_state n source graph g ->
  forall (Si : pyset) batch,
    (forall x, In x Si -> fin n g x) -> NoDup Si ->
    exists extra,
      requeue_pulled g Bi B_prime_i Si batch = Ok (batch ++ extra)
      /\ (forall key value a p, In (key, value, a, p) extra ->
            In key Si /\ p = pred_get_minus_one g key)
      /\ NoDup (map (fun it : D.item => fst (fst (fst it))) extra).
Proof.
  intros Hwf. unfold requeue_pulled.
  induction Si as [|x Si IH]; intros batch HS Hnd; cbn [for_each].
  - exists []. rewrite app_nil_r. split; [reflexivity|]. split; [intros ? ? ? ? []|constructor].
  - apply NoDup_cons in Hnd. destruct Hnd as [Hfresh Hnd]. rewrite list_elem_of_In in Hfresh.
    assert (forall y, In y Si -> fin n g y) as HS' by (intros y Hy; apply HS; right; exact Hy).
    destruct (num_leb B_prime_i (d_hat_get g x) && num_ltb (d_hat_get g x) Bi).
    + destruct (subscripts_return _ _ _ _ x Hwf) as [-> ->]; [apply HS; left; reflexivity|].
      cbn [bind].
      destruct (IH (batch ++ [(x, d_hat_get g x, path_alpha_get g x,
                               pred_get_minus_one g x)]) HS' Hnd)
        as (extra & Hrun & Hitems & Hkeys).
      exists ((x, d_hat_get g x, path_alpha_get g x, pred_get_minus_one g x) :: extra).
      split; [etransitivity; [exact Hrun|]; rewrite <- app_assoc; reflexivity|]. split.
      * intros key value a p [Heq|Hin].
        -- inversion Heq. subst. split; [left|]; reflexivity.
        -- destruct (Hitems _ _ _ _ Hin). split; [right|]; assumption.
      * cbn [map fst]. apply NoDup_cons. split; [|exact Hkeys].
        rewrite list_elem_of_In. intros Hin. apply in_map_iff in Hin.
        destruct Hin as ([[[key value] a] p] & Hk & Hin). cbn in Hk. subst key.
        apply Hfresh. apply (Hitems _ _ _ _ Hin).
    + cbn [bind]. destruct (IH batch HS' Hnd) as (extra & Hrun & Hitems & Hkeys).
      exists extra. split; [exact Hrun|]. split; [|exact Hkeys].
      intros key value a p Hin. destruct (Hitems _ _ _ _ Hin). split; [right|]; assumption.
Qed.

Lemma BatchPrepend_returns n source graph g :
  wf_state n source graph g ->
  forall (L_items : list D.item) d,
    frontier_ok n source g d ->
    (forall key value a p, In (key, value, a, p) L_items ->
       fin n g key /\ (p = None -> key = source)) ->
    NoDup (map (fun it : D.item => fst (fst (fst it))) L_items) ->
    (In source (map (fun it : D.item => fst (fst (fst it))) L_items) ->
     D._key_to_value d !! source = None) ->
    exists d', D.BatchPrepend d L_items = Ok d' /\ frontier_ok n source g d'.
Proof.
  intros Hwf. unfold D.BatchPrepend.
  induction L_items as [|[[[key value] a] p] L_items IH]; intros d Hd Hitems Hnd Hsrc;
    cbn [for_each]; [eauto|].
  cbn [map fst] in Hnd, Hsrc.
  apply NoDup_cons in Hnd. destruct Hnd as [Hfresh Hnd]. rewrite list_elem_of_In in Hfresh.
  destruct (Hitems key value a p) as [Hkey Hp]; [left; reflexivity|].
  destruct (Insert_returns n source g d key value a p) as (d1 & -> & Hd1 & _ & _ & Hother);
    auto.
  { intros ->. apply Hsrc. left. reflexivity. }
  cbn [bind]. apply IH; auto.
  - intros key' value' a' p' Hin. apply (Hitems key' value' a' p'). right. exact Hin.
  - intros Hin. rewrite Hother.
    + apply Hsrc. right. exact Hin.
    + intros <-. contradiction.
Qed.

(** *** The main loop and the recursion *)

Lemma BMSSP_loop_returns n source graph rec B max_U :
  well_formed_graph n graph ->
  (forall g B0 (S0 : pyset),
      wf_state n source graph g -> (forall x, In x S0 -> fin n g x) -> NoDup S0 ->
      exists B' U g',
        rec g B0 S0 = Ok (B', U, g')
        /\ extends n source graph g g' /\ (forall x, In x U -> fin n g' x)) ->
  forall fuel g f,
    wf_state n source graph g -> frontier_ok n source g (frame_D f) ->
    (forall x, In x (current_U f) -> fin n g x) ->
    exists g' f',
      BMSSP_loop rec fuel graph B max_U g f = Ok (g', f')
      /\ extends n source graph g g'
      /\ (forall x, In x (current_U f') -> fin n g' x).
Proof.
  intros Hgraph Hrec. induction fuel as [|fuel IH]; intros g f Hwf Hd HU;
    rewrite BMSSP_loop_unfold;
    (destruct (size_below (current_U f) max_U && negb (D.is_empty (frame_D f)));
     [|exists g, f; split; [reflexivity|]; split; [apply extends_refl, Hwf|exact HU]]).
  { eexists _, _. split; [reflexivity|]. split; [apply extends_refl, Hwf|exact HU]. }
  destruct (Pull_returns n source g (frame_D f) Hd)
    as (Bi & Si & d1 & -> & Hd1 & _ & HSi & HndSi & Hgone).
  cbn [bind]. cbv zeta.
  destruct (issubset Si (processed_vertices f) && _).
  { eexists _, _. split; [reflexivity|]. split; [apply extends_refl, Hwf|exact HU]. }
  destruct (Hrec g (adjust_Bi g graph Si Bi) Si Hwf HSi HndSi)
    as (B_prime_i & Ui & g1 & -> & Hext1 & HUi).
  cbn [bind]. pose proof Hext1 as (Hwf1 & Hmono1 & _).
  destruct (relax_completed_returns n source graph B (adjust_Bi g graph Si Bi) B_prime_i
                                    Ui g1 d1)
    as (g2 & d2 & -> & Hext2 & Hd2 & Hsrc2); auto.
  { eapply frontier_ok_later; eauto. }
  cbn [bind]. pose proof Hext2 as (Hwf2 & Hmono2 & _).
  destruct (requeue_pulled_returns n source graph g2 (adjust_Bi g graph Si Bi) B_prime_i
                                   Hwf2 Si [])
    as (batch & -> & Hitems & Hkeys); auto.
  cbn [app bind].
  destruct (BatchPrepend_returns n source graph g2 Hwf2 batch d2) as (d3 & -> & Hd3); auto.
  { intros key value a p Hin. destruct (Hitems _ _ _ _ Hin) as [Hk ->].
    split; [auto|]. apply (pred_get_minus_one_None n source graph); auto. }
  { intros Hin. rewrite Hsrc2. apply Hgone. apply in_map_iff in Hin.
    destruct Hin as ([[[key value] a] p] & Hk & Hin). cbn in Hk. subst key.
    apply (Hitems _ _ _ _ Hin). }
  cbn [bind].
  match goal with
  | |- context [BMSSP_loop rec fuel graph B max_U g2 ?f2] =>
    destruct (IH g2 f2) as (g' & f' & -> & Hext' & HU')
  end; auto.
  { cbn [current_U]. intros x Hx. apply (proj1 (set_update_In _ _ _)) in Hx.
    destruct Hx as [Hx|Hx]; auto. }
  exists g', f'. split; [reflexivity|].
  split; [eapply extends_trans; [|exact Hext']; eapply extends_trans; eauto|exact HU'].
Qed.

Lemma init_frontier_ok n source g M0 B0 : frontier_ok n source g (D.init M0 B0).
Proof.
  split; [apply (reachable_inv M0 B0), reachable_init|].
  split; [intros key v Hk; cbn in Hk; rewrite lookup_empty in Hk; discriminate|].
  intros v b key a [].
Qed.

(** Every frame returns, in a later state, vertices with finite estimates. *)
Lemma BMSSP_returns n source graph :
  well_formed_graph n graph ->
  forall l g B (srcs : pyset),
    wf_state n source graph g -> (forall x, In x srcs -> fin n g x) -> NoDup srcs ->
    exists B' U g',
      BMSSP l g B srcs graph = Ok (B', U, g')
      /\ extends n source graph g g' /\ (forall x, In x U -> fin n g' x).
Proof.
  intros Hgraph. induction l as [|l IH]; intros g B srcs Hwf HS Hnd.
  { apply BaseCase_returns; assumption. }
  cbn [BMSSP].
  destruct (FindPivots_returns n source graph g B srcs Hgraph Hwf HS Hnd)
    as (P & W & g1 & -> & Hext1 & HW & HP & HndP).
  cbn [bind]. cbv zeta. pose proof Hext1 as (Hwf1 & Hmono1 & _).
  assert (forall x, In x P -> fin n g1 x) as HP1 by auto.
  destruct (insert_pivots_returns n source graph g1 Hwf1 P
                                  (D.init (M_param_of (Z.of_nat (S l)) g1) B))
    as (d1 & -> & Hd1); auto using init_frontier_ok.
  cbn [bind]. change (HEURISTICS_ENABLED && HEURISTICS_SEEDING) with true. cbv iota.
  destruct (seed_neighbors_returns n source graph g1 W d1 Hgraph Hwf1 Hd1) as (d2 & -> & Hd2).
  cbn [bind].
  destruct (min_d_hat_returns n source graph g1 P B Hwf1 HP1) as (B_prime_0 & ->).
  cbn [bind].
  match goal with
  | |- context [BMSSP_loop ?rec ?fl graph B ?max_U g1 ?f0] =>
    assert (exists g2 f, BMSSP_loop rec fl graph B max_U g1 f0 = Ok (g2, f)
                         /\ extends n source graph g1 g2
                         /\ (forall x, In x (current_U f) -> fin n g2 x))
      as (g2 & f & -> & Hext2 & HU)
  end.
  { apply (BMSSP_loop_returns n source); auto. intros x []. }
  cbn [bind]. eexists _, _, g2. split; [reflexivity|].
  split; [eapply extends_trans; eauto|].
  pose proof Hext2 as (_ & Hmono2 & _).
  assert (forall (Ws U0 : pyset) c,
             (forall x, In x Ws -> fin n g2 x) -> (forall x, In x U0 -> fin n g2 x) ->
             forall x,
               In x (fold_left (fun U x_w => if num_ltb (d_hat_get g2 x_w) c
                                             then set_add x_w U else U) Ws U0) ->
               fin n g2 x) as Hfold.
  { induction Ws as [|y Ws IHW]; intros U0 c HWs HU0 x; cbn [fold_left]; [apply HU0|].
    apply IHW; [intros z Hz; apply HWs; right; exact Hz|].
    intros z Hz. destruct (num_ltb (d_hat_get g2 y) c); [|auto].
    apply set_add_In in Hz. destruct Hz as [->|Hz]; [apply HWs; left; reflexivity|auto]. }
  apply Hfold; auto.
Qed.

(** *** The entry point *)

Lemma initial_globals_wf g0 n source k t graph :
  in_range n source -> 0 <= k ->
  wf_state n source graph (initial_globals g0 n source k t).
Proof.
  intros Hs Hk. split; [|split; [|split; [|split]]].
  - intros v Hv. unfold initial_globals. cbn [d_hat path_alpha pred].
    apply elem_of_range in Hv. rewrite (lookup_fill None).
    split; [|split].
    + destruct (decide (v = source)) as [->|Hne]; [rewrite lookup_insert_eq; discriminate|].
      rewrite lookup_insert_ne by congruence. rewrite lookup_fill.
      destruct (decide (v ∈ range n)); [discriminate|contradiction].
    + destruct (decide (v = source)) as [->|Hne]; [rewrite lookup_insert_eq; discriminate|].
      rewrite lookup_insert_ne by congruence. rewrite lookup_fill.
      destruct (decide (v ∈ range n)); [discriminate|contradiction].
    + destruct (decide (v ∈ range n)); [discriminate|contradiction].
  - intros u. rewrite initial_globals_d_hat, initial_globals_path_alpha.
    destruct (decide (u = source)) as [->|_]; [|left; reflexivity].
    right. exists 0%Q, 0. split; [reflexivity|]. split; [reflexivity|]. constructor.
  - intros v _. rewrite initial_globals_d_hat.
    destruct (decide (v = source)); auto.
  - rewrite initial_globals_d_hat, initial_globals_path_alpha.
    destruct (decide (source = source)); [|congruence].
    split; [cbn; lra|]. split; [reflexivity|].
    unfold initial_globals. cbn [pred]. rewrite lookup_fill.
    apply elem_of_range in Hs. destruct (decide (source ∈ range n)); [reflexivity|contradiction].
  - exact Hk.
Qed.

Lemma result_distances_returns g :
  (forall v, in_range (N_vertices g) v -> d_hat g !! v <> None) ->
  exists r, result_distances g = Ok r.
Proof.
  intros Hkeys. unfold result_distances.
  destruct (for_each_returns (fun _ : list (Z * num) => True)
              (fun r v => let* d_v := subscript (d_hat g) v in
                          if num_eqb d_v Inf then Ok r else Ok (r ++ [(v, d_v)]))
              (range (N_vertices g))) with (s := @nil (Z * num)) as (r & Hrun & _);
    [|exact I|eauto].
  intros r v Hv _. apply list_elem_of_In, elem_of_range in Hv.
  unfold subscript. destruct (d_hat g !! v) as [d_v|] eqn:E; [|destruct (Hkeys v Hv E)].
  cbn [bind]. destruct (num_eqb d_v Inf); eauto.
Qed.

Lemma build_graph_well_formed n edges :
  (forall u v w, In (u, v, w) edges -> 0 <= u < n /\ 0 <= v < n /\ (0 <= w)%Q) ->
  well_formed_graph n (build_graph edges).
Proof.
  intros Hedges u v w Hin. apply build_graph_In, last_weight_In in Hin.
  apply (Hedges u v w Hin).
Qed.

Lemma solve_later_state g0 n m_val edges source :
  0 <= source < n ->
  (forall u v w, In (u, v, w) edges -> 0 <= u < n /\ 0 <= v < n /\ (0 <= w)%Q) ->
  exists distances g,
    solve_sssp_directed_real_weights g0 n m_val edges source = Ok (distances, g)
    /\ result_distances g = Ok distances
    /\ N_vertices g = n
    /\ wf_state n source (build_graph edges) g.
Proof.
  intros Hs Hedges. unfold solve_sssp_directed_real_weights, run_BMSSP. cbv zeta.
  set (k := derive_k_param (Z.max 2 n)). set (t := derive_t_param (Z.max 2 n)).
  set (l := derive_l_max_level (Z.max 2 n) t).
  pose proof (build_graph_well_formed n edges Hedges) as Hgraph.
  assert (0 <= k) as Hk by (subst k; unfold derive_k_param; lia).
  pose proof (initial_globals_wf g0 n source k t (build_graph edges) Hs Hk) as Hwf.
  destruct (BMSSP_returns n source (build_graph edges) Hgraph (Z.to_nat l)
                          (initial_globals g0 n source k t) Inf [source] Hwf)
    as (B' & U & g & -> & Hext & _).
  - intros x [<-|[]]. split; [exact Hs|]. rewrite initial_globals_d_hat.
    destruct (decide (source = source)); [discriminate|congruence].
  - apply NoDup_singleton.
  - cbn [bind]. destruct Hext as (Hwf' & _ & (_ & _ & HN)).
    destruct (result_distances_returns g) as (r & Hr).
    + intros v Hv. rewrite HN in Hv. apply Hwf'. exact Hv.
    + rewrite Hr. cbn [bind]. exists r, g. auto.
Qed.

(** X21.  A solve raises no exception when the source and the endpoints of
    every edge are vertices of [range(n)] and no weight is negative: it
    returns a distance map and leaves a module state, whatever state it
    found. *)
Theorem solve_returns_on_a_well_formed_input g0 n m_val edges source :
  0 <= source < n ->
  (forall u v w, In (u, v, w) edges -> 0 <= u < n /\ 0 <= v < n /\ (0 <= w)%Q) ->
  exists distances g,
    solve_sssp_directed_real_weights g0 n m_val edges source = Ok (distances, g).
Proof.
  intros Hs Hedges.
  destruct (solve_later_state g0 n m_val edges source Hs Hedges) as (distances & g & H & _).
  eauto.
Qed.

Lemma solve_returns_on_a_well_formed_input_witness :
  exists distances g,
    solve_sssp_directed_real_weights fresh_globals 8 5 chain_with_shortcut 0
    = Ok (distances, g).
Proof.
  apply solve_returns_on_a_well_formed_input; [lia|].
  intros u v w Hin. unfold chain_with_shortcut in Hin. cbn [In] in Hin.
  repeat (destruct Hin as [Hin|Hin];
          [inversion Hin; subst; split; [lia|split; [lia|unfold Qle; simpl; lia]]|]).
  destruct Hin.
Defined.

(** X22.  On such an input the source is in the returned map and keeps the
    predecessor [None], and the state the solve leaves gives every other
    vertex of the returned map a predecessor. *)
Theorem solve_sets_a_predecessor_for_every_returned_vertex g0 n m_val edges source
  distances g :
  0 <= source < n ->
  (forall u v w, In (u, v, w) edges -> 0 <= u < n /\ 0 <= v < n /\ (0 <= w)%Q) ->
  solve_sssp_directed_real_weights g0 n m_val edges source = Ok (distances, g) ->
  pred g !! source = Some None
  /\ (exists d, In (source, d) distances)
  /\ forall v d, In (v, d) distances -> v <> source ->
                 exists u, pred g !! v = Some (Some u).
Proof.
  intros Hs Hedges Hsolve.
  destruct (solve_later_state g0 n m_val edges source Hs Hedges)
    as (distances' & g' & Hsolve' & Hres & HN & Hwf).
  rewrite Hsolve in Hsolve'. inversion Hsolve'. subst distances' g'. clear Hsolve'.
  destruct Hwf as (Hkeys & _ & Hnone & (Hs0 & _ & Hsp) & _).
  split; [exact Hsp|]. split.
  - destruct (d_hat g !! source) as [d|] eqn:Ed; [|destruct (Hkeys source Hs) as [H _]; congruence].
    exists d. apply (result_distances_In _ _ Hres). rewrite HN.
    split; [exact Hs|]. split; [exact Ed|].
    unfold d_hat_get in Hs0. rewrite Ed in Hs0. cbn in Hs0.
    destruct d; [reflexivity|destruct Hs0].
  - intros v d Hin Hne. apply (result_distances_In _ _ Hres) in Hin.
    destruct Hin as (Hv & Hd & Hfin). rewrite HN in Hv.
    destruct (Hkeys v Hv) as (_ & _ & Hp).
    destruct (pred g !! v) as [[u|]|] eqn:Ep; [eauto| |congruence].
    destruct (Hnone v Ep) as [?|Hinf]; [contradiction|].
    unfold d_hat_get in Hinf. rewrite Hd in Hinf. cbn in Hinf. subst d. discriminate.
Qed.

Lemma solve_sets_a_predecessor_for_every_returned_vertex_witness :
  match solve_sssp_directed_real_weights fresh_globals 8 5 chain_with_shortcut 0 with
  | Ok (distances, g) =>
    pred g !! 0 = Some None
    /\ (exists d, In (0, d) distances)
    /\ forall v d, In (v, d) distances -> v <> 0 -> exists u, pred g !! v = Some (Some u)
  | Raise _ => False
  end.
Proof.
  destruct (solve_sssp_directed_real_weights fresh_globals 8 5 chain_with_shortcut 0)
    as [[distances g]|e] eqn:Hrun.
  - apply (solve_sets_a_predecessor_for_every_returned_vertex
             fresh_globals 8 5 chain_with_shortcut 0 distances g); [lia| |exact Hrun].
    intros u v w Hin. unfold chain_with_shortcut in Hin. cbn [In] in Hin.
    repeat (destruct Hin as [Hin|Hin];
            [inversion Hin; subst; split; [lia|split; [lia|unfold Qle; simpl; lia]]|]).
    destruct Hin.
  - rewrite solve_8 in Hrun. vm_compute in Hrun. discriminate Hrun.
Defined.
